(** * legit-template: a shallow embedding of the template engine core

    The development follows the Go packages of the repository:
    [runtime] (loop records, loop stack, render context), [lexer],
    [parser], [compiler] and [engine] (built-in functions, inheritance
    resolution).  Go strings are byte strings and are modelled by
    [string]; Go [int] is the 64-bit two's complement integer, modelled
    by [Z] with the wrap-around written out; Go maps and pointers live
    in explicit stores so that aliasing is visible. *)

From Stdlib Require Import ZArith List Ascii String Bool Lia DecimalString.
From stdpp Require Import base option gmap strings list fin_maps.

Local Open Scope Z_scope.

#[local] Set Warnings "-register-all".

(** ** Go machine integers *)

Module GoInt.

Definition min_int : Z := - 2 ^ 63.
Definition max_int : Z := 2 ^ 63 - 1.

(** Two's complement wrap-around of a mathematical integer. *)
Definition wrap (z : Z) : Z := (z + 2 ^ 63) mod 2 ^ 64 - 2 ^ 63.

Definition in_int (z : Z) : Prop := min_int <= z <= max_int.

Definition add (a b : Z) : Z := wrap (a + b).
Definition sub (a b : Z) : Z := wrap (a - b).

(** Go's [%] truncates towards zero, like [Z.rem]. *)
Definition rem (a b : Z) : Z := Z.rem a b.

End GoInt.

(** ** Package runtime: loop records *)

Module Loop.

(** Addresses of heap-allocated [Loop] records; [None] is Go's [nil]. *)
Definition ptr : Type := option positive.

Record t : Type := Mk {
  Index : Z;
  Iteration : Z;
  Remaining : Z;
  Count : Z;
  First : bool;
  Last : bool;
  Even : bool;
  Odd : bool;
  Depth : Z;
  Parent : ptr
}.

(** The store of loop records reachable through [*Loop] pointers. *)
Abbreviation heap := (gmap positive t).

Definition alloc (h : heap) (r : t) : heap * positive :=
  let a := fresh (dom h) in (<[a := r]> h, a).

(** [NewLoop(count, depth)] *)
Definition NewLoop_rec (count depth : Z) : t :=
  {| Index := -1; Iteration := 0; Remaining := count; Count := count;
     First := true; Last := count =? 1; Even := false; Odd := true;
     Depth := depth; Parent := None |}.

Definition NewLoop (h : heap) (count depth : Z) : heap * positive :=
  alloc h (NewLoop_rec count depth).

(** The record built by [(l *Loop).Update(index)] from the fields of [l]. *)
Definition Update_rec (l : t) (index : Z) : t :=
  let remaining_last :=
    if 0 <=? Count l
    then (GoInt.sub (GoInt.sub (Count l) index) 1,
          index =? GoInt.sub (Count l) 1)
    else (-1, false) in
  {| Index := index;
     Iteration := GoInt.add index 1;
     Remaining := fst remaining_last;
     Count := Count l;
     First := index =? 0;
     Last := snd remaining_last;
     Even := GoInt.rem (GoInt.add index 1) 2 =? 0;
     Odd := GoInt.rem (GoInt.add index 1) 2 =? 1;
     Depth := Depth l;
     Parent := Parent l |}.

(** [Update] dereferences its receiver ([None]: nil pointer panic) and
    returns the address of a freshly allocated record. *)
Definition Update (h : heap) (l : positive) (index : Z)
  : option (heap * positive) :=
  r ← h !! l; Some (alloc h (Update_rec r index)).

(** [LoopStack]: the slice of record addresses. *)
Definition LoopStack : Type := list positive.

Definition NewLoopStack : LoopStack := [].

Definition set_Parent_Depth (parent : ptr) (depth : Z) (l : t) : t :=
  {| Index := Index l; Iteration := Iteration l; Remaining := Remaining l;
     Count := Count l; First := First l; Last := Last l; Even := Even l;
     Odd := Odd l; Depth := depth; Parent := parent |}.

(** [Push] writes the parent link and the depth into the pushed
    record. *)
Definition Push (h : heap) (s : LoopStack) (loop : positive) : option (heap * LoopStack) :=
  r ← h !! loop;
  let parent := match List.rev s with top :: _ => Some top | [] => Parent r end in
  Some (<[loop := set_Parent_Depth parent (GoInt.add (Z.of_nat (length s)) 1) r]> h,
        s ++ [loop]).

(** [Pop]: the top record ([None] on the empty stack) and the rest. *)
Definition Pop (s : LoopStack) : ptr * LoopStack :=
  match List.rev s with
  | top :: rest => (Some top, List.rev rest)
  | [] => (None, s)
  end.

Definition Current (s : LoopStack) : ptr :=
  match List.rev s with top :: _ => Some top | [] => None end.

Definition StackDepth (s : LoopStack) : Z := Z.of_nat (length s).

End Loop.

(** ** Go strings

    A Go [string] is a sequence of bytes; [s[i:j]], [len], the functions
    of package [strings] used by the repository and the decimal verb of
    [fmt.Sprintf] are written out on [string]. *)

Module Str.

Definition len (s : string) : nat := String.length s.

Fixpoint drop (n : nat) (s : string) : string :=
  match n, s with
  | O, _ => s
  | S n', String _ s' => drop n' s'
  | S _, EmptyString => EmptyString
  end.

Fixpoint take (n : nat) (s : string) : string :=
  match n, s with
  | O, _ => EmptyString
  | S n', String c s' => String c (take n' s')
  | S _, EmptyString => EmptyString
  end.

(** [s[i:j]] for [i <= j <= len s]. *)
Definition slice (i j : nat) (s : string) : string := take (j - i) (drop i s).

(** [s[i]], with the zero byte outside the string (the callers test
    the bound first). *)
Definition at_ (i : nat) (s : string) : ascii :=
  match drop i s with String c _ => c | EmptyString => zero end.

Fixpoint HasPrefix (s p : string) : bool :=
  match p, s with
  | EmptyString, _ => true
  | String a p', String b s' => if Ascii.eqb a b then HasPrefix s' p' else false
  | String _ _, EmptyString => false
  end.

Definition HasSuffix (s p : string) : bool :=
  (len p <=? len s)%nat && String.eqb (drop (len s - len p) s) p.

Definition TrimPrefix (s p : string) : string :=
  if HasPrefix s p then drop (len p) s else s.

(** [strings.Index]: byte offset of the first occurrence. *)
Fixpoint Index (s sub : string) : option nat :=
  if HasPrefix s sub then Some O
  else match s with
       | EmptyString => None
       | String _ s' => S <$> Index s' sub
       end.

Definition Contains (s sub : string) : bool :=
  match Index s sub with Some _ => true | None => false end.

(** [strings.ReplaceAll] for a non-empty [old] (every call site of the
    repository passes a non-empty constant): occurrences are replaced
    left to right without overlap.  [skip] counts the bytes of the
    occurrence that is being passed over. *)
Fixpoint replace_from (old new : string) (skip : nat) (s : string) : string :=
  match s with
  | EmptyString => EmptyString
  | String c s' =>
      match skip with
      | S k => replace_from old new k s'
      | O =>
          if HasPrefix s old
          then new +:+ replace_from old new (len old - 1) s'
          else String c (replace_from old new O s')
      end
  end.

Definition ReplaceAll (s old new : string) : string := replace_from old new O s.

(** The white space of [unicode.IsSpace], as the UTF-8 byte sequences
    [strings.TrimSpace] recognises: the six ASCII space characters,
    U+0085, U+00A0, U+1680, U+2000..U+200A, U+2028, U+2029, U+202F,
    U+205F and U+3000. *)
Definition ascii_space (c : ascii) : bool :=
  let n := nat_of_ascii c in
  ((9 <=? n) && (n <=? 13) || (n =? 32))%nat.

Definition space_width (s : string) : nat :=
  match s with
  | EmptyString => 0
  | String c0 r0 =>
      if ascii_space c0 then 1
      else
        match nat_of_ascii c0, r0 with
        | 194%nat, String c1 _ =>
            let b := nat_of_ascii c1 in
            if ((b =? 133) || (b =? 160))%nat then 2 else 0
        | 225%nat, String c1 (String c2 _) =>
            if ((nat_of_ascii c1 =? 154) && (nat_of_ascii c2 =? 128))%nat then 3 else 0
        | 226%nat, String c1 (String c2 _) =>
            let b1 := nat_of_ascii c1 in
            let b2 := nat_of_ascii c2 in
            if ((b1 =? 128) && ((128 <=? b2) && (b2 <=? 138) || (b2 =? 168) || (b2 =? 169) || (b2 =? 175))
                || (b1 =? 129) && (b2 =? 159))%nat
            then 3 else 0
        | 227%nat, String c1 (String c2 _) =>
            if ((nat_of_ascii c1 =? 128) && (nat_of_ascii c2 =? 128))%nat then 3 else 0
        | _, _ => 0
        end
  end%nat.

Fixpoint trim_left (fuel : nat) (s : string) : string :=
  match fuel with
  | O => s
  | S f =>
      match space_width s with
      | O => s
      | w => trim_left f (drop w s)
      end
  end.

(** The width of the white-space rune that ends [s], if any: the last
    rune starts at the nearest non-continuation byte, at most four
    bytes back. *)
Definition space_width_end (s : string) : nat :=
  let n := len s in
  let try_ (w : nat) : bool :=
    (w <=? n)%nat && (space_width (drop (n - w) s) =? w)%nat in
  if try_ 1%nat then 1
  else if try_ 2%nat then 2
  else if try_ 3%nat then 3
  else 0.

Fixpoint trim_right (fuel : nat) (s : string) : string :=
  match fuel with
  | O => s
  | S f =>
      match space_width_end s with
      | O => s
      | w => trim_right f (take (len s - w) s)
      end
  end.

Definition TrimSpace (s : string) : string :=
  trim_right (len s) (trim_left (len s) s).

(** [strings.Trim(s, cutset)] for a cutset of ASCII bytes. *)
Definition in_cutset (cutset : string) (c : ascii) : bool :=
  existsb (Ascii.eqb c) (list_ascii_of_string cutset).

Fixpoint trim_left_set (cutset s : string) : string :=
  match s with
  | String c s' => if in_cutset cutset c then trim_left_set cutset s' else s
  | EmptyString => EmptyString
  end.

Definition rev (s : string) : string :=
  string_of_list_ascii (List.rev (list_ascii_of_string s)).

Definition Trim (s cutset : string) : string :=
  rev (trim_left_set cutset (rev (trim_left_set cutset s))).

(** [strings.SplitN(s, sep, n)] for a non-empty [sep] and [n > 0]: at
    most [n] pieces, the last one holding the unsplit rest. *)
Fixpoint SplitN (s sep : string) (n : nat) : list string :=
  match n with
  | O => []
  | S O => [s]
  | S n' =>
      match Index s sep with
      | None => [s]
      | Some i => take i s :: SplitN (drop (i + len sep) s) sep n'
      end
  end.

(** [strings.Join] *)
Fixpoint Join (l : list string) (sep : string) : string :=
  match l with
  | [] => EmptyString
  | [x] => x
  | x :: l' => x +:+ sep +:+ Join l' sep
  end.

(** The [%d] verb of [fmt.Sprintf]. *)
Definition itoa (z : Z) : string := DecimalString.NilZero.string_of_int (Z.to_int z).

(** The double quote byte. *)
Definition dq : string := String "034"%char EmptyString.
(** The backquote byte. *)
Definition bq : string := String "096"%char EmptyString.

End Str.

(** ** Regular expressions

    The compiler uses five patterns of Go's [regexp] package.  Go
    returns the leftmost match and, among those, the one a backtracking
    matcher finds first; the matcher below is that backtracking search
    for the operators the five patterns use (repetition is only ever
    applied to a character class).  All classes of the patterns are sets
    of ASCII bytes or complements of such sets. *)

Module Regexp.

Inductive t : Type :=
| Chr (p : ascii -> bool)          (* one character of a class *)
| Seq (r1 r2 : t)                  (* r1 r2 *)
| Opt (r : t)                      (* r? *)
| Star (p : ascii -> bool)         (* [class]* *)
| Plus (p : ascii -> bool)         (* [class]+ *)
| Group (r : t).                   (* ( r ) *)

(** Greedy repetition: take the character if possible and give it
    back when the rest of the pattern fails. *)
Fixpoint star {A} (p : ascii -> bool) (caps : list string) (s : string)
    (k : list string -> string -> option A) : option A :=
  match s with
  | String c s' =>
      if p c then
        match star p caps s' k with
        | Some x => Some x
        | None => k caps s
        end
      else k caps s
  | EmptyString => k caps s
  end.

(** [run r caps s k]: match [r] at the start of [s]; [k] receives the
    submatches closed so far and the unread rest. *)
Fixpoint run {A} (r : t) (caps : list string) (s : string)
    (k : list string -> string -> option A) : option A :=
  match r with
  | Chr p =>
      match s with
      | String c s' => if p c then k caps s' else None
      | EmptyString => None
      end
  | Seq r1 r2 => run r1 caps s (fun caps' s' => run r2 caps' s' k)
  | Opt r1 =>
      match run r1 caps s k with
      | Some x => Some x
      | None => k caps s
      end
  | Star p => star p caps s k
  | Plus p =>
      match s with
      | String c s' => if p c then star p caps s' k else None
      | EmptyString => None
      end
  | Group r1 =>
      run r1 caps s
        (fun caps' s' => k (caps' ++ [Str.take (Str.len s - Str.len s') s]) s')
  end.

(** A match at the start of [s]: the submatches and the unread rest. *)
Definition match_here (r : t) (s : string) : option (list string * string) :=
  run r [] s (fun caps s' => Some (caps, s')).

(** [FindStringSubmatch]: the submatches of the leftmost match
    (without the whole match, which the repository never reads). *)
Fixpoint FindStringSubmatch (r : t) (s : string) : option (list string) :=
  match match_here r s with
  | Some (caps, _) => Some caps
  | None =>
      match s with
      | EmptyString => None
      | String _ s' => FindStringSubmatch r s'
      end
  end.

(** Replacement templates: literal text and [$n] references. *)
Inductive piece : Type := Lit (s : string) | Ref (n : nat).

Fixpoint expand (tpl : list piece) (caps : list string) : string :=
  match tpl with
  | [] => EmptyString
  | Lit s :: tpl' => s +:+ expand tpl' caps
  | Ref n :: tpl' => nth (n - 1) caps EmptyString +:+ expand tpl' caps
  end.

(** [ReplaceAllString] for a pattern that matches no empty string:
    matches are found left to right and do not overlap.  [skip]
    counts the bytes of the current match still to be passed over. *)
Fixpoint replace_from (r : t) (tpl : list piece) (skip : nat) (s : string) : string :=
  match s with
  | EmptyString => EmptyString
  | String c s' =>
      match skip with
      | S k => replace_from r tpl k s'
      | O =>
          match match_here r s with
          | Some (caps, rest) =>
              expand tpl caps +:+ replace_from r tpl (Str.len s - Str.len rest - 1) s'
          | None => String c (replace_from r tpl O s')
          end
      end
  end.

Definition ReplaceAllString (r : t) (s : string) (tpl : list piece) : string :=
  replace_from r tpl O s.

(** Character classes *)
Definition only (c : ascii) : ascii -> bool := Ascii.eqb c.
Definition between (lo hi : nat) (c : ascii) : bool :=
  ((lo <=? nat_of_ascii c) && (nat_of_ascii c <=? hi))%nat.
Definition lower (c : ascii) : bool := between 97 122 c.
Definition upper (c : ascii) : bool := between 65 90 c.
Definition digit (c : ascii) : bool := between 48 57 c.
(** [[a-zA-Z_]] *)
Definition ident_start (c : ascii) : bool := lower c || upper c || only "_" c.
(** [[a-zA-Z0-9_]] *)
Definition ident_char (c : ascii) : bool := ident_start c || digit c.
(** [\s] is [[\t\n\f\r ]] *)
Definition space (c : ascii) : bool :=
  only "009" c || only "010" c || only "012" c || only "013" c || only " " c.
(** the class of the single and the double quote *)
Definition quote (c : ascii) : bool := only "'" c || only "034" c.

End Regexp.

(** ** Package lexer *)

Module Lexer.

Inductive TokenType : Type :=
| TOKEN_TEXT
| TOKEN_ECHO_ESCAPED
| TOKEN_ECHO_RAW
| TOKEN_COMMENT
| TOKEN_DIRECTIVE
| TOKEN_DIRECTIVE_ARGS
| TOKEN_VERBATIM_START
| TOKEN_VERBATIM_END
| TOKEN_EOF.

Definition TokenType_eqb (a b : TokenType) : bool :=
  match a, b with
  | TOKEN_TEXT, TOKEN_TEXT | TOKEN_ECHO_ESCAPED, TOKEN_ECHO_ESCAPED
  | TOKEN_ECHO_RAW, TOKEN_ECHO_RAW | TOKEN_COMMENT, TOKEN_COMMENT
  | TOKEN_DIRECTIVE, TOKEN_DIRECTIVE | TOKEN_DIRECTIVE_ARGS, TOKEN_DIRECTIVE_ARGS
  | TOKEN_VERBATIM_START, TOKEN_VERBATIM_START
  | TOKEN_VERBATIM_END, TOKEN_VERBATIM_END | TOKEN_EOF, TOKEN_EOF => true
  | _, _ => false
  end.

Record Position : Type := MkPos { Line : Z; Column : Z; Offset : Z }.

Record Token : Type := MkToken {
  Type_ : TokenType;
  Value : string;
  Args : string;
  Pos : Position
}.

(** The zero values [Position{}] and [Token{}]. *)
Definition zeroPos : Position := MkPos 0 0 0.
Definition zeroToken : Token := MkToken TOKEN_TEXT EmptyString EmptyString zeroPos.

Record LexerError : Type := MkErr { Message : string; ErrPosition : Position }.

(** Outcome of a lexer call: a value, a [*LexerError], or recursion
    that has not returned within the given depth. *)
Inductive result (A : Type) : Type :=
| Ok (a : A)
| Fail (e : LexerError)
| OutOfFuel.
Arguments Ok {A} a.
Arguments Fail {A} e.
Arguments OutOfFuel {A}.

(** The mutable lexer object.  [line] and [column] never exceed
    [len input + 1], so Go's [int] does not wrap on them. *)
Record t : Type := Mk {
  input : string;
  pos : nat;
  line : Z;
  column : Z;
  inVerbatim : bool;
  tokens : list Token
}.

Definition New (inp : string) : t :=
  {| input := inp; pos := 0; line := 1; column := 1;
     inVerbatim := false; tokens := [] |}.

Definition here (l : t) : Position :=
  MkPos (line l) (column l) (Z.of_nat (pos l)).

(** [unicode.IsLetter] and [unicode.IsDigit] on [rune(b)] for a byte
    [b]: the letters and decimal digits of Latin-1. *)
Definition IsLetter (c : ascii) : bool :=
  let n := nat_of_ascii c in
  ((65 <=? n) && (n <=? 90) || (97 <=? n) && (n <=? 122)
   || (n =? 170) || (n =? 181) || (n =? 186)
   || (192 <=? n) && (n <=? 214) || (216 <=? n) && (n <=? 246)
   || (248 <=? n) && (n <=? 255))%nat.

Definition IsDigit (c : ascii) : bool :=
  let n := nat_of_ascii c in ((48 <=? n) && (n <=? 57))%nat.

Definition current (l : t) : ascii :=
  if (Str.len (input l) <=? pos l)%nat then zero else Str.at_ (pos l) (input l).

Definition advance (l : t) : t :=
  if (pos l <? Str.len (input l))%nat then
    if Ascii.eqb (Str.at_ (pos l) (input l)) "010"
    then {| input := input l; pos := S (pos l); line := line l + 1; column := 1;
            inVerbatim := inVerbatim l; tokens := tokens l |}
    else {| input := input l; pos := S (pos l); line := line l; column := column l + 1;
            inVerbatim := inVerbatim l; tokens := tokens l |}
  else l.

Fixpoint advanceN (n : nat) (l : t) : t :=
  match n with
  | O => l
  | S n' => advanceN n' (advance l)
  end.

Definition matchString (s : string) (l : t) : bool :=
  if (Str.len (input l) <? pos l + Str.len s)%nat then false
  else String.eqb (Str.slice (pos l) (pos l + Str.len s) (input l)) s.

(** The scanning loops below all have the form
    [for l.pos < len(l.input) { ... l.advance() }]; every pass moves
    [pos] forward by one byte, so [len input - pos] bounds the number
    of passes.  The first argument [n] of each loop function is that
    bound; the loop condition itself is still tested on every pass. *)
Definition remaining (l : t) : nat := Str.len (input l) - pos l.

Fixpoint skipWhitespace_loop (n : nat) (l : t) : t :=
  match n with
  | O => l
  | S n' =>
      if (pos l <? Str.len (input l))%nat
         && (Ascii.eqb (Str.at_ (pos l) (input l)) " "
             || Ascii.eqb (Str.at_ (pos l) (input l)) "009")
      then skipWhitespace_loop n' (advance l)
      else l
  end.

Definition skipWhitespace (l : t) : t := skipWhitespace_loop (remaining l) l.

(** The search loop shared in shape by [scanComment], [scanRawEcho]
    and [scanEscapedEcho]: advance to the first position where
    [close] matches; [None] when the input ends first. *)
Fixpoint seek (close : string) (n : nat) (l : t) : option t :=
  match n with
  | O => None
  | S n' =>
      if (pos l <? Str.len (input l))%nat then
        if matchString close l then Some l
        else seek close n' (advance l)
      else None
  end.

Definition scanComment (startPos : Position) (l : t) : result (Token * t) :=
  let l := advanceN 4 l in
  let start := pos l in
  match seek "--}}" (remaining l) l with
  | Some l' =>
      let content := Str.slice start (pos l') (input l') in
      Ok (MkToken TOKEN_COMMENT (Str.TrimSpace content) EmptyString startPos,
          advanceN 4 l')
  | None => Fail (MkErr "Unclosed comment" startPos)
  end.

Definition scanRawEcho (startPos : Position) (l : t) : result (Token * t) :=
  let l := skipWhitespace (advanceN 3 l) in
  let start := pos l in
  match seek "!!}" (remaining l) l with
  | Some l' =>
      let content := Str.TrimSpace (Str.slice start (pos l') (input l')) in
      Ok (MkToken TOKEN_ECHO_RAW content EmptyString startPos, advanceN 3 l')
  | None => Fail (MkErr "Unclosed raw echo" startPos)
  end.

Definition scanEscapedEcho (startPos : Position) (l : t) : result (Token * t) :=
  let l := skipWhitespace (advanceN 2 l) in
  let start := pos l in
  match seek "}}" (remaining l) l with
  | Some l' =>
      let content := Str.TrimSpace (Str.slice start (pos l') (input l')) in
      Ok (MkToken TOKEN_ECHO_ESCAPED content EmptyString startPos, advanceN 2 l')
  | None => Fail (MkErr "Unclosed echo" startPos)
  end.

(** The argument scanner keeps [depth], [inString] and [stringChar]
    as loop variables; a pass either advances or brings [depth] to
    zero, which ends the loop. *)
Fixpoint scanDirectiveArgs_loop (n : nat) (depth : Z) (inString : bool)
    (stringChar : ascii) (l : t) : Z * t :=
  match n with
  | O => (depth, l)
  | S n' =>
      if (pos l <? Str.len (input l))%nat && (0 <? depth) then
        let ch := Str.at_ (pos l) (input l) in
        let quote_here :=
          (Ascii.eqb ch "034" || Ascii.eqb ch "'")
          && ((pos l =? 0)%nat
              || negb (Ascii.eqb (Str.at_ (pos l - 1) (input l)) "\")) in
        let '(inString, stringChar) :=
          if quote_here then
            if negb inString then (true, ch)
            else if Ascii.eqb ch stringChar then (false, stringChar)
            else (inString, stringChar)
          else (inString, stringChar) in
        let depth :=
          if negb inString then
            if Ascii.eqb ch "(" then depth + 1
            else if Ascii.eqb ch ")" then depth - 1
            else depth
          else depth in
        let l := if 0 <? depth then advance l else l in
        scanDirectiveArgs_loop n' depth inString stringChar l
      else (depth, l)
  end.

Definition scanDirectiveArgs (l : t) : result (string * t) :=
  let l := advance l in
  let start := pos l in
  let '(depth, l) := scanDirectiveArgs_loop (S (remaining l)) 1 false zero l in
  if negb (depth =? 0) then
    Fail (MkErr "Unclosed parenthesis in directive arguments" (here l))
  else
    let args := Str.slice start (pos l) (input l) in
    Ok (Str.TrimSpace args, advance l).

Fixpoint scanName_loop (n : nat) (l : t) : t :=
  match n with
  | O => l
  | S n' =>
      if (pos l <? Str.len (input l))%nat
         && (IsLetter (Str.at_ (pos l) (input l))
             || IsDigit (Str.at_ (pos l) (input l))
             || Ascii.eqb (Str.at_ (pos l) (input l)) "_")
      then scanName_loop n' (advance l)
      else l
  end.

Definition set_inVerbatim (b : bool) (l : t) : t :=
  {| input := input l; pos := pos l; line := line l; column := column l;
     inVerbatim := b; tokens := tokens l |}.

Definition push_token (tok : Token) (l : t) : t :=
  {| input := input l; pos := pos l; line := line l; column := column l;
     inVerbatim := inVerbatim l; tokens := tokens l ++ [tok] |}.

Definition scanDirective (startPos : Position) (l : t) : result (Token * t) :=
  let l := advance l in
  let start := pos l in
  let l := scanName_loop (remaining l) l in
  let name := Str.slice start (pos l) (input l) in
  if String.eqb name "verbatim" then
    Ok (MkToken TOKEN_VERBATIM_START name EmptyString startPos, set_inVerbatim true l)
  else if (pos l <? Str.len (input l))%nat && Ascii.eqb (Str.at_ (pos l) (input l)) "(" then
    match scanDirectiveArgs l with
    | Ok (args, l') => Ok (MkToken TOKEN_DIRECTIVE_ARGS name args startPos, l')
    | Fail e => Fail e
    | OutOfFuel => OutOfFuel
    end
  else Ok (MkToken TOKEN_DIRECTIVE name EmptyString startPos, l).

(** The test that starts a directive: [@] followed by a letter or an
    underscore. *)
Definition atDirective (l : t) : bool :=
  Ascii.eqb (current l) "@"
  && (pos l + 1 <? Str.len (input l))%nat
  && (IsLetter (Str.at_ (pos l + 1) (input l))
      || Ascii.eqb (Str.at_ (pos l + 1) (input l)) "_").

Fixpoint scanText_loop (n : nat) (l : t) : t :=
  match n with
  | O => l
  | S n' =>
      if (pos l <? Str.len (input l))%nat then
        if matchString "{{" l || matchString "{!!" l || matchString "@@" l then l
        else if atDirective l then l
        else scanText_loop n' (advance l)
      else l
  end.

Definition scanVerbatimContent (startPos : Position) (l : t) : result (Token * t) :=
  let start := pos l in
  match seek "@endverbatim" (remaining l) l with
  | Some l' =>
      let content := Str.slice start (pos l') (input l') in
      let l' := set_inVerbatim false (advanceN 12 l') in
      let l' :=
        if negb (String.eqb content EmptyString)
        then push_token (MkToken TOKEN_TEXT content EmptyString startPos) l'
        else l' in
      Ok (MkToken TOKEN_VERBATIM_END "endverbatim" EmptyString
            (MkPos (line l') (column l' - 12) (Z.of_nat (pos l') - 12)),
          l')
  | None => Fail (MkErr "Unclosed @verbatim block" startPos)
  end.

(** [nextToken]; [scanText] calls it again when it has read nothing,
    so the two are one recursion, bounded here by [fuel]. *)
Fixpoint nextToken (fuel : nat) (l : t) : result (Token * t) :=
  match fuel with
  | O => OutOfFuel
  | S fuel' =>
      if (Str.len (input l) <=? pos l)%nat then
        Ok (MkToken TOKEN_EOF EmptyString EmptyString zeroPos, l)
      else
        let startPos := here l in
        if inVerbatim l then scanVerbatimContent startPos l
        else if matchString "{{--" l then scanComment startPos l
        else if matchString "{!!" l then scanRawEcho startPos l
        else if matchString "{{" l then scanEscapedEcho startPos l
        else if matchString "@@" l then
          Ok (MkToken TOKEN_TEXT "@" EmptyString startPos, advance (advance l))
        else if atDirective l then scanDirective startPos l
        else
          (* scanText *)
          let start := pos l in
          let l' := scanText_loop (remaining l) l in
          let content := Str.slice start (pos l') (input l') in
          if String.eqb content EmptyString then nextToken fuel' l'
          else Ok (MkToken TOKEN_TEXT content EmptyString startPos, l')
  end.

(** The loop of [Tokenize]. *)
Fixpoint Tokenize_loop (fuel : nat) (l : t) : result t :=
  if (pos l <? Str.len (input l))%nat then
    match fuel with
    | O => OutOfFuel
    | S fuel' =>
        match nextToken fuel l with
        | Ok (token, l') =>
            let l' :=
              if negb (TokenType_eqb (Type_ token) TOKEN_EOF)
              then push_token token l' else l' in
            Tokenize_loop fuel' l'
        | Fail e => Fail e
        | OutOfFuel => OutOfFuel
        end
    end
  else Ok l.

(** [Tokenize]: the token list, or the first lexer error.  Every
    token consumes at least one byte, so [len input] passes (and as
    many nested calls) are enough. *)
Definition Tokenize_from (l : t) : result (list Token) :=
  match Tokenize_loop (S (remaining l)) l with
  | Ok l' => Ok (tokens l' ++ [MkToken TOKEN_EOF EmptyString EmptyString (here l')])
  | Fail e => Fail e
  | OutOfFuel => OutOfFuel
  end.

Definition Tokenize (inp : string) : result (list Token) := Tokenize_from (New inp).

(** [forward l l']: the lexer has moved on in the same input, without
    touching the tokens it has collected. *)
Definition forward (l l' : t) : Prop :=
  input l' = input l
  /\ tokens l' = tokens l
  /\ inVerbatim l' = inVerbatim l
  /\ (pos l <= pos l')%nat
  /\ ((pos l <= Str.len (input l))%nat -> (pos l' <= Str.len (input l))%nat).

(** The messages of the five [LexerError] values that the scanners
    build. *)
Definition error_messages : list string :=
  ["Unclosed comment"; "Unclosed raw echo"; "Unclosed echo";
   "Unclosed parenthesis in directive arguments"; "Unclosed @verbatim block"].

End Lexer.

(** ** Package parser *)

Module Parser.

Import Lexer.

(** The AST.  The Go node structs embed [BaseNode]; its [NodeType] tag
    is the constructor and its [Pos] the first argument.  The [Slots]
    map of a component is kept as an association list with unique
    keys: Go ranges over it in an unspecified order, the list fixes
    one. *)
Inductive Node : Type :=
| TextNode (pos : Position) (Content : string)
| EchoNode (pos : Position) (Expression : string) (Escaped : bool)
| CommentNode (pos : Position) (Content : string)
| DirectiveNode (pos : Position) (Name Args : string)
| IfNode (pos : Position) (Condition : string) (Children : list Node)
    (ElseIfs : list ElseIfNode) (Else : option ElseNode)
| UnlessNode (pos : Position) (Condition : string) (Children : list Node)
| SwitchNode (pos : Position) (Expression : string) (Cases : list CaseNode)
    (Default : option DefaultNode)
| ForNode (pos : Position) (Init Condition Post : string) (Children : list Node)
| ForeachNode (pos : Position) (Items Key Value : string) (Children : list Node)
| ForelseNode (pos : Position) (Items Key Value : string)
    (Children Empty : list Node)
| WhileNode (pos : Position) (Condition : string) (Children : list Node)
| SectionNode (pos : Position) (Name Content : string) (Children : list Node)
    (Show : bool)
| YieldNode (pos : Position) (Name Default : string)
| ExtendsNode (pos : Position) (Template : string)
| IncludeNode (pos : Position) (Variant Template Data Condition : string)
| EachNode (pos : Position) (Template Items ItemVar EmptyView : string)
| PushNode (pos : Position) (Stack : string) (Children : list Node) (Once : bool)
| PrependNode (pos : Position) (Stack : string) (Children : list Node)
| StackNode (pos : Position) (Name : string)
| ComponentNode (pos : Position) (Name Data : string) (Children : list Node)
    (Slots : list (string * SlotNode))
| VerbatimNode (pos : Position) (Content : string)
| PhpNode (pos : Position) (Code : string)
| BreakNode (pos : Position) (Condition : string)
| ContinueNode (pos : Position) (Condition : string)
| IssetNode (pos : Position) (Variable_ : string) (Children : list Node)
| EmptyCheckNode (pos : Position) (Variable_ : string) (Children : list Node)
| AuthNode (pos : Position) (Guard : string) (Children : list Node)
| GuestNode (pos : Position) (Guard : string) (Children : list Node)
| EnvNode (pos : Position) (Environments : list string) (Children : list Node)
| ProductionNode (pos : Position) (Children : list Node)
| ErrorNode (pos : Position) (Field : string) (Children : list Node)
| OnceNode (pos : Position) (Children : list Node)
| ParentNode (pos : Position)
with ElseIfNode : Type :=
| MkElseIf (pos : Position) (Condition : string) (Children : list Node)
with ElseNode : Type :=
| MkElse (pos : Position) (Children : list Node)
with CaseNode : Type :=
| MkCase (pos : Position) (Value : string) (Children : list Node)
with DefaultNode : Type :=
| MkDefault (pos : Position) (Children : list Node)
with SlotNode : Type :=
| MkSlot (pos : Position) (Name : string) (Children : list Node).

Record RootNode : Type := MkRoot { RootChildren : list Node }.

(** The parser object. *)
Record t : Type := Mk {
  tokens : list Token;
  pos : nat;
  current : Token
}.

Definition New (toks : list Token) : t :=
  {| tokens := toks; pos := 0;
     current := match toks with tok :: _ => tok | [] => zeroToken end |}.

Definition advance (p : t) : t :=
  let pos' := S (pos p) in
  {| tokens := tokens p; pos := pos';
     current := if (pos' <? length (tokens p))%nat
                then nth pos' (tokens p) zeroToken
                else current p |}.

Definition isAtEnd (p : t) : bool :=
  (length (tokens p) <=? pos p)%nat || TokenType_eqb (Type_ (current p)) TOKEN_EOF.

Definition isDirective (name : string) (p : t) : bool :=
  (TokenType_eqb (Type_ (current p)) TOKEN_DIRECTIVE
   || TokenType_eqb (Type_ (current p)) TOKEN_DIRECTIVE_ARGS)
  && String.eqb (Value (current p)) name.

(** [trimQuotes] *)
Definition trimQuotes (s : string) : string :=
  let s := Str.TrimSpace s in
  if (2 <=? Str.len s)%nat then
    let first := Str.at_ 0 s in
    let last := Str.at_ (Str.len s - 1) s in
    if Ascii.eqb first "034" && Ascii.eqb last "034"
       || Ascii.eqb first "'" && Ascii.eqb last "'"
    then Str.slice 1 (Str.len s - 1) s
    else s
  else s.

(** [splitArgs]: the loop over the bytes of [args]; [prev] is the
    byte before the current one ([None] at index 0), [cur] the
    builder [current].  [depth] moves by one per byte, so it stays
    far inside the range of [int]. *)
Fixpoint splitArgs_loop (args : string) (prev : option ascii)
    (result : list string) (cur : string) (depth : Z) (inString : bool)
    (stringChar : ascii) : list string * string :=
  match args with
  | EmptyString => (result, cur)
  | String ch rest =>
      let quote_here :=
        (Ascii.eqb ch "034" || Ascii.eqb ch "'")
        && match prev with
           | None => true
           | Some b => negb (Ascii.eqb b "\")
           end in
      let '(inString, stringChar) :=
        if quote_here then
          if negb inString then (true, ch)
          else if Ascii.eqb ch stringChar then (false, stringChar)
          else (inString, stringChar)
        else (inString, stringChar) in
      if negb inString && Ascii.eqb ch "," && (depth =? 0) then
        splitArgs_loop rest (Some ch) (result ++ [Str.TrimSpace cur]) EmptyString
          depth inString stringChar
      else
        let depth :=
          if negb inString then
            if Ascii.eqb ch "(" || Ascii.eqb ch "[" || Ascii.eqb ch "{"
            then depth + 1
            else if Ascii.eqb ch ")" || Ascii.eqb ch "]" || Ascii.eqb ch "}"
            then depth - 1
            else depth
          else depth in
        splitArgs_loop rest (Some ch) result (cur +:+ String ch EmptyString)
          depth inString stringChar
  end.

Definition splitArgs (args : string) : list string :=
  let '(result, cur) := splitArgs_loop args None [] EmptyString 0 false zero in
  if (0 <? Str.len cur)%nat then result ++ [Str.TrimSpace cur] else result.

(** [parseEnvList] *)
Definition parseEnvList (args : string) : list string :=
  let args := Str.TrimSpace args in
  if Str.HasPrefix args "[" && Str.HasSuffix args "]" then
    map trimQuotes (splitArgs (Str.slice 1 (Str.len args - 1) args))
  else [trimQuotes args].

(** [parts[i]] for [len(parts) > i], as an option. *)
Definition part (i : nat) (parts : list string) : option string := nth_error parts i.

Definition or_empty (o : option string) : string :=
  match o with Some s => s | None => EmptyString end.

(** The key/value split shared by [parseForeachArgs] and
    [parseForelse]: [(Items, Key, Value)]. *)
Definition foreachArgs (args : string) : string * string * string :=
  let parts := Str.SplitN args " as " 2 in
  let items := or_empty (Str.TrimSpace <$> part 0 parts) in
  match part 1 parts with
  | Some v =>
      let valuePart := Str.TrimSpace v in
      if Str.Contains valuePart "=>" then
        let kv := Str.SplitN valuePart "=>" 2 in
        (items, Str.TrimSpace (or_empty (part 0 kv)), Str.TrimSpace (or_empty (part 1 kv)))
      else (items, EmptyString, valuePart)
  | None => (items, EmptyString, EmptyString)
  end.

(** *** The recursive descent

    No parse function of the source ever builds an error, so the
    outcome is a node and the advanced parser, or [None] when the
    recursion has not returned within [fuel] calls. *)

Definition snoc_opt (acc : list Node) (child : option Node) : list Node :=
  match child with Some c => acc ++ [c] | None => acc end.

(** The block loop
    [for !p.isAtEnd() && !p.isDirective(t1) && ... { child := p.parseNode(); ... }]. *)
Fixpoint children_until (parseNode : t -> option (option Node * t))
    (stops : list string) (n : nat) (p : t) (acc : list Node)
    : option (list Node * t) :=
  match n with
  | O => None
  | S n' =>
      if isAtEnd p || existsb (fun d => isDirective d p) stops then Some (acc, p)
      else
        '(child, p') ← parseNode p;
        children_until parseNode stops n' p' (snoc_opt acc child)
  end.

(** Consume the terminator if it is there. *)
Definition skip_directive (name : string) (p : t) : t :=
  if isDirective name p then advance p else p.

(** The loop of [parseIf]. *)
Fixpoint parseIf_loop (parseNode : t -> option (option Node * t)) (n : nat)
    (p : t) (children : list Node) (elseifs : list ElseIfNode)
    (else_ : option ElseNode)
    : option (list Node * list ElseIfNode * option ElseNode * t) :=
  match n with
  | O => None
  | S n' =>
      if isAtEnd p then Some (children, elseifs, else_, p)
      else if isDirective "elseif" p then
        let elseifToken := current p in
        '(ch, p') ← children_until parseNode ["elseif"; "else"; "endif"] n' (advance p) [];
        parseIf_loop parseNode n' p' children
          (elseifs ++ [MkElseIf (Pos elseifToken) (Args elseifToken) ch]) else_
      else if isDirective "else" p then
        let elseToken := current p in
        '(ch, p') ← children_until parseNode ["endif"] n' (advance p) [];
        parseIf_loop parseNode n' p' children elseifs
          (Some (MkElse (Pos elseToken) ch))
      else if isDirective "endif" p then
        Some (children, elseifs, else_, advance p)
      else
        match elseifs, else_ with
        | [], None =>
            '(child, p') ← parseNode p;
            parseIf_loop parseNode n' p' (snoc_opt children child) elseifs else_
        | _, _ => parseIf_loop parseNode n' p children elseifs else_
        end
  end.

Definition add_case (cases : list CaseNode) (cur : option CaseNode) : list CaseNode :=
  match cur with Some c => cases ++ [c] | None => cases end.

(** The loop of [parseSwitch]. *)
Fixpoint parseSwitch_loop (parseNode : t -> option (option Node * t)) (n : nat)
    (p : t) (cases : list CaseNode) (currentCase : option CaseNode)
    (default : option DefaultNode)
    : option (list CaseNode * option CaseNode * option DefaultNode * t) :=
  match n with
  | O => None
  | S n' =>
      if isAtEnd p || isDirective "endswitch" p then
        Some (cases, currentCase, default, p)
      else if isDirective "case" p then
        let caseToken := current p in
        parseSwitch_loop parseNode n' (advance p) (add_case cases currentCase)
          (Some (MkCase (Pos caseToken) (Args caseToken) [])) default
      else if isDirective "default" p then
        let defaultToken := current p in
        parseSwitch_loop parseNode n' (advance p) (add_case cases currentCase)
          None (Some (MkDefault (Pos defaultToken) []))
      else if isDirective "break" p then
        parseSwitch_loop parseNode n' (advance p) cases currentCase default
      else
        '(child, p') ← parseNode p;
        match child, default, currentCase with
        | Some c, Some (MkDefault dpos dch), _ =>
            parseSwitch_loop parseNode n' p' cases currentCase
              (Some (MkDefault dpos (dch ++ [c])))
        | Some c, None, Some (MkCase cpos cval cch) =>
            parseSwitch_loop parseNode n' p' cases
              (Some (MkCase cpos cval (cch ++ [c]))) default
        | _, _, _ => parseSwitch_loop parseNode n' p' cases currentCase default
        end
  end.

(** The loop of [parseForelse]. *)
Fixpoint parseForelse_loop (parseNode : t -> option (option Node * t)) (n : nat)
    (p : t) (inEmpty : bool) (children empty : list Node)
    : option (list Node * list Node * t) :=
  match n with
  | O => None
  | S n' =>
      if isAtEnd p || isDirective "endforelse" p then Some (children, empty, p)
      else if isDirective "empty" p then
        parseForelse_loop parseNode n' (advance p) true children empty
      else
        '(child, p') ← parseNode p;
        if inEmpty
        then parseForelse_loop parseNode n' p' inEmpty children (snoc_opt empty child)
        else parseForelse_loop parseNode n' p' inEmpty (snoc_opt children child) empty
  end.

(** [node.Slots[name] = slot] *)
Fixpoint slots_insert (name : string) (slot : SlotNode)
    (slots : list (string * SlotNode)) : list (string * SlotNode) :=
  match slots with
  | [] => [(name, slot)]
  | (k, v) :: rest =>
      if String.eqb k name then (k, slot) :: rest
      else (k, v) :: slots_insert name slot rest
  end.

Definition store_slot (slots : list (string * SlotNode)) (cur : option SlotNode)
    : list (string * SlotNode) :=
  match cur with
  | Some (MkSlot spos sname sch) => slots_insert sname (MkSlot spos sname sch) slots
  | None => slots
  end.

(** The loop of [parseComponent]. *)
Fixpoint parseComponent_loop (parseNode : t -> option (option Node * t)) (n : nat)
    (p : t) (children : list Node) (slots : list (string * SlotNode))
    (currentSlot : option SlotNode)
    : option (list Node * list (string * SlotNode) * option SlotNode * t) :=
  match n with
  | O => None
  | S n' =>
      if isAtEnd p || isDirective "endcomponent" p then
        Some (children, slots, currentSlot, p)
      else if isDirective "slot" p then
        let slotToken := current p in
        parseComponent_loop parseNode n' (advance p) children
          (store_slot slots currentSlot)
          (Some (MkSlot (Pos slotToken) (trimQuotes (Args slotToken)) []))
      else if isDirective "endslot" p then
        parseComponent_loop parseNode n' (advance p) children
          (store_slot slots currentSlot) None
      else
        '(child, p') ← parseNode p;
        match child, currentSlot with
        | Some c, Some (MkSlot spos sname sch) =>
            parseComponent_loop parseNode n' p' children slots
              (Some (MkSlot spos sname (sch ++ [c])))
        | Some c, None =>
            parseComponent_loop parseNode n' p' (children ++ [c]) slots currentSlot
        | None, _ => parseComponent_loop parseNode n' p' children slots currentSlot
        end
  end.

(** The loop of [parseVerbatim]. *)
Fixpoint parseVerbatim_loop (n : nat) (p : t) (content : string) : option (string * t) :=
  match n with
  | O => None
  | S n' =>
      if isAtEnd p then Some (content, p)
      else if TokenType_eqb (Type_ (current p)) TOKEN_VERBATIM_END then
        Some (content, advance p)
      else
        let content :=
          if TokenType_eqb (Type_ (current p)) TOKEN_TEXT
          then content +:+ Value (current p) else content in
        parseVerbatim_loop n' (advance p) content
  end.

(** The loop of [parsePhp]. *)
Fixpoint parsePhp_loop (n : nat) (p : t) (code : string) : option (string * t) :=
  match n with
  | O => None
  | S n' =>
      if isAtEnd p || isDirective "endphp" p then Some (code, p)
      else
        let code :=
          if TokenType_eqb (Type_ (current p)) TOKEN_TEXT
          then code +:+ Value (current p) else code in
        parsePhp_loop n' (advance p) code
  end.

(** A block whose body is a plain child list closed by one
    terminator: [unless], [for], [foreach], [while], [push], ... *)
Definition block (parseNode : t -> option (option Node * t)) (n : nat)
    (terminator : string) (p : t) : option (list Node * t) :=
  '(ch, p') ← children_until parseNode [terminator] n p [];
  Some (ch, skip_directive terminator p').

(** [parseInclude] *)
Definition parseInclude (tpos : Position) (variant args : string) : Node :=
  let parts := splitArgs args in
  if String.eqb variant "include" || String.eqb variant "includeIf" then
    IncludeNode tpos variant (or_empty (trimQuotes <$> part 0 parts))
      (or_empty (part 1 parts)) EmptyString
  else if String.eqb variant "includeWhen" || String.eqb variant "includeUnless" then
    IncludeNode tpos variant (or_empty (trimQuotes <$> part 1 parts))
      (or_empty (part 2 parts)) (or_empty (part 0 parts))
  else if String.eqb variant "includeFirst" then
    IncludeNode tpos variant (or_empty (part 0 parts)) (or_empty (part 1 parts))
      EmptyString
  else IncludeNode tpos variant EmptyString EmptyString EmptyString.

(** [parseNode], with [parseDirective] and the block parsers it
    dispatches to written in place. *)
Fixpoint parseNode (fuel : nat) (p : t) : option (option Node * t) :=
  match fuel with
  | O => None
  | S fuel' =>
      let token := current p in
      let tpos := Pos token in
      let rec := parseNode fuel' in
      match Type_ token with
      | TOKEN_TEXT => Some (Some (TextNode tpos (Value token)), advance p)
      | TOKEN_ECHO_ESCAPED => Some (Some (EchoNode tpos (Value token) true), advance p)
      | TOKEN_ECHO_RAW => Some (Some (EchoNode tpos (Value token) false), advance p)
      | TOKEN_COMMENT => Some (Some (CommentNode tpos (Value token)), advance p)
      | TOKEN_VERBATIM_START =>
          (* parseVerbatim *)
          '(content, p') ← parseVerbatim_loop fuel' (advance p) EmptyString;
          Some (Some (VerbatimNode tpos content), p')
      | TOKEN_EOF => Some (None, p)
      | TOKEN_VERBATIM_END => Some (None, advance p)
      | TOKEN_DIRECTIVE | TOKEN_DIRECTIVE_ARGS =>
          (* parseDirective *)
          let name := Value token in
          let args := Args token in
          let p := advance p in
          let is_ (s : string) := String.eqb name s in
          if is_ "if" then
            '(ch, elseifs, else_, p') ← parseIf_loop rec fuel' p [] [] None;
            Some (Some (IfNode tpos args ch elseifs else_), p')
          else if is_ "unless" then
            '(ch, p') ← block rec fuel' "endunless" p;
            Some (Some (UnlessNode tpos args ch), p')
          else if is_ "switch" then
            '(cases, cur, default, p') ← parseSwitch_loop rec fuel' p [] None None;
            Some (Some (SwitchNode tpos args (add_case cases cur) default),
                  skip_directive "endswitch" p')
          else if is_ "for" then
            let parts := Str.SplitN args ";" 3 in
            '(ch, p') ← block rec fuel' "endfor" p;
            Some (Some (ForNode tpos
                          (or_empty (Str.TrimSpace <$> part 0 parts))
                          (or_empty (Str.TrimSpace <$> part 1 parts))
                          (or_empty (Str.TrimSpace <$> part 2 parts)) ch), p')
          else if is_ "foreach" then
            let '(items, key, value) := foreachArgs args in
            '(ch, p') ← block rec fuel' "endforeach" p;
            Some (Some (ForeachNode tpos items key value ch), p')
          else if is_ "forelse" then
            let '(items, key, value) := foreachArgs args in
            '(ch, empty, p') ← parseForelse_loop rec fuel' p false [] [];
            Some (Some (ForelseNode tpos items key value ch empty),
                  skip_directive "endforelse" p')
          else if is_ "while" then
            '(ch, p') ← block rec fuel' "endwhile" p;
            Some (Some (WhileNode tpos args ch), p')
          else if is_ "section" then
            let parts := splitArgs args in
            let name := or_empty (trimQuotes <$> part 0 parts) in
            match part 1 parts with
            | Some content => Some (Some (SectionNode tpos name (trimQuotes content) [] false), p)
            | None =>
                '(ch, p') ← children_until rec ["endsection"; "show"] fuel' p [];
                if isDirective "show" p'
                then Some (Some (SectionNode tpos name EmptyString ch true), advance p')
                else Some (Some (SectionNode tpos name EmptyString ch false),
                           skip_directive "endsection" p')
            end
          else if is_ "yield" then
            let parts := splitArgs args in
            Some (Some (YieldNode tpos (or_empty (trimQuotes <$> part 0 parts))
                          (or_empty (trimQuotes <$> part 1 parts))), p)
          else if is_ "extends" then
            Some (Some (ExtendsNode tpos (trimQuotes args)), p)
          else if is_ "include" || is_ "includeIf" || is_ "includeWhen"
                  || is_ "includeUnless" || is_ "includeFirst" then
            Some (Some (parseInclude tpos name args), p)
          else if is_ "each" then
            let parts := splitArgs args in
            Some (Some (EachNode tpos (or_empty (trimQuotes <$> part 0 parts))
                          (or_empty (part 1 parts))
                          (or_empty (trimQuotes <$> part 2 parts))
                          (or_empty (trimQuotes <$> part 3 parts))), p)
          else if is_ "push" then
            '(ch, p') ← block rec fuel' "endpush" p;
            Some (Some (PushNode tpos (trimQuotes args) ch false), p')
          else if is_ "pushOnce" then
            '(ch, p') ← block rec fuel' "endPushOnce" p;
            Some (Some (PushNode tpos (trimQuotes args) ch true), p')
          else if is_ "prepend" then
            '(ch, p') ← block rec fuel' "endprepend" p;
            Some (Some (PrependNode tpos (trimQuotes args) ch), p')
          else if is_ "stack" then
            Some (Some (StackNode tpos (trimQuotes args)), p)
          else if is_ "component" then
            let parts := splitArgs args in
            '(ch, slots, cur, p') ← parseComponent_loop rec fuel' p [] [] None;
            Some (Some (ComponentNode tpos (or_empty (trimQuotes <$> part 0 parts))
                          (or_empty (part 1 parts)) ch (store_slot slots cur)),
                  skip_directive "endcomponent" p')
          else if is_ "php" then
            '(code, p') ← parsePhp_loop fuel' p EmptyString;
            Some (Some (PhpNode tpos (Str.TrimSpace code)), skip_directive "endphp" p')
          else if is_ "isset" then
            '(ch, p') ← block rec fuel' "endisset" p;
            Some (Some (IssetNode tpos args ch), p')
          else if is_ "empty" then
            '(ch, p') ← block rec fuel' "endempty" p;
            Some (Some (EmptyCheckNode tpos args ch), p')
          else if is_ "auth" then
            '(ch, p') ← block rec fuel' "endauth" p;
            Some (Some (AuthNode tpos (trimQuotes args) ch), p')
          else if is_ "guest" then
            '(ch, p') ← block rec fuel' "endguest" p;
            Some (Some (GuestNode tpos (trimQuotes args) ch), p')
          else if is_ "env" then
            '(ch, p') ← block rec fuel' "endenv" p;
            Some (Some (EnvNode tpos (parseEnvList args) ch), p')
          else if is_ "production" then
            '(ch, p') ← block rec fuel' "endproduction" p;
            Some (Some (ProductionNode tpos ch), p')
          else if is_ "error" then
            '(ch, p') ← block rec fuel' "enderror" p;
            Some (Some (ErrorNode tpos (trimQuotes args) ch), p')
          else if is_ "once" then
            '(ch, p') ← block rec fuel' "endonce" p;
            Some (Some (OnceNode tpos ch), p')
          else if is_ "break" then Some (Some (BreakNode tpos args), p)
          else if is_ "continue" then Some (Some (ContinueNode tpos args), p)
          else if is_ "parent" then Some (Some (ParentNode tpos), p)
          else Some (Some (DirectiveNode tpos name args), p)
      end
  end.

(** The loop of [Parse]. *)
Fixpoint Parse_loop (fuel : nat) (p : t) (acc : list Node) : option (list Node) :=
  match fuel with
  | O => None
  | S fuel' =>
      if isAtEnd p then Some acc
      else
        '(node, p') ← parseNode fuel p;
        Parse_loop fuel' p' (snoc_opt acc node)
  end.

(** [Parse]: every pass of every loop consumes a token, so one more
    than the number of tokens bounds the passes and the nesting. *)
Definition Parse (toks : list Token) : option RootNode :=
  MkRoot <$> Parse_loop (S (length toks)) (New toks) [].

(** The tokens that the parser has not consumed yet. *)
Definition unread (p : t) : nat := length (tokens p) - pos p.

(** [advanced p o]: the call returned, over the same tokens, and has
    consumed at least one of them. *)
Definition advanced {A : Type} (p : t) (o : option (A * t)) : Prop :=
  match o with
  | Some (_, p') => tokens p' = tokens p /\ (pos p < pos p')%nat
  | None => False
  end.

(** The nodes directly below a node: the children of its blocks,
    clauses, cases and slots. *)
Definition subnodes (n : Node) : list Node :=
  match n with
  | IfNode _ _ ch elseifs else_ =>
      ch ++ concat (map (fun e => match e with MkElseIf _ _ c => c end) elseifs)
         ++ match else_ with Some (MkElse _ c) => c | None => [] end
  | SwitchNode _ _ cases default =>
      concat (map (fun e => match e with MkCase _ _ c => c end) cases)
      ++ match default with Some (MkDefault _ c) => c | None => [] end
  | ForelseNode _ _ _ _ ch empty => ch ++ empty
  | ComponentNode _ _ _ ch slots =>
      ch ++ concat (map (fun e => match e with (_, MkSlot _ _ c) => c end) slots)
  | UnlessNode _ _ ch | ForNode _ _ _ _ ch | ForeachNode _ _ _ _ ch
  | WhileNode _ _ ch | SectionNode _ _ _ ch _ | PushNode _ _ ch _
  | PrependNode _ _ ch | IssetNode _ _ ch | EmptyCheckNode _ _ ch
  | AuthNode _ _ ch | GuestNode _ _ ch | EnvNode _ _ ch
  | ProductionNode _ ch | ErrorNode _ _ ch | OnceNode _ ch => ch
  | _ => []
  end.

End Parser.

(** ** Package compiler *)

Module Compiler.

Import Parser.

(** The compiler object. *)
Record t : Type := Mk {
  extends : string;
  sections : gmap string string;
  parentCalls : gmap string bool;
  pushes : gmap string (list string);
  prepends : gmap string (list string);
  loopDepth : Z;
  onceKeys : gmap string bool
}.

Definition New : t :=
  {| extends := EmptyString; sections := ∅; parentCalls := ∅; pushes := ∅;
     prepends := ∅; loopDepth := 0; onceKeys := ∅ |}.

Definition set_extends (v : string) (c : t) : t :=
  {| extends := v; sections := sections c; parentCalls := parentCalls c;
     pushes := pushes c; prepends := prepends c; loopDepth := loopDepth c;
     onceKeys := onceKeys c |}.
Definition set_sections (v : gmap string string) (c : t) : t :=
  {| extends := extends c; sections := v; parentCalls := parentCalls c;
     pushes := pushes c; prepends := prepends c; loopDepth := loopDepth c;
     onceKeys := onceKeys c |}.
Definition set_parentCalls (v : gmap string bool) (c : t) : t :=
  {| extends := extends c; sections := sections c; parentCalls := v;
     pushes := pushes c; prepends := prepends c; loopDepth := loopDepth c;
     onceKeys := onceKeys c |}.
Definition set_pushes (v : gmap string (list string)) (c : t) : t :=
  {| extends := extends c; sections := sections c; parentCalls := parentCalls c;
     pushes := v; prepends := prepends c; loopDepth := loopDepth c;
     onceKeys := onceKeys c |}.
Definition set_prepends (v : gmap string (list string)) (c : t) : t :=
  {| extends := extends c; sections := sections c; parentCalls := parentCalls c;
     pushes := pushes c; prepends := v; loopDepth := loopDepth c;
     onceKeys := onceKeys c |}.
Definition set_loopDepth (v : Z) (c : t) : t :=
  {| extends := extends c; sections := sections c; parentCalls := parentCalls c;
     pushes := pushes c; prepends := prepends c; loopDepth := v;
     onceKeys := onceKeys c |}.
Definition set_onceKeys (v : gmap string bool) (c : t) : t :=
  {| extends := extends c; sections := sections c; parentCalls := parentCalls c;
     pushes := pushes c; prepends := prepends c; loopDepth := loopDepth c;
     onceKeys := v |}.

(** [c.loopDepth++] and the deferred [c.loopDepth--]. *)
Definition enter_loop (c : t) : t := set_loopDepth (GoInt.add (loopDepth c) 1) c.
Definition leave_loop (c : t) : t := set_loopDepth (GoInt.sub (loopDepth c) 1) c.

(** The patterns of [transformExpression] and [extractForRange]. *)
(** A dollar sign, then group 1: an identifier, i.e. one of
    [a-zA-Z_] followed by any number of [a-zA-Z0-9_]. *)
Definition re_variable : Regexp.t :=
  Regexp.Seq (Regexp.Chr (Regexp.only "$"))
    (Regexp.Group (Regexp.Seq (Regexp.Chr Regexp.ident_start)
                              (Regexp.Star Regexp.ident_char))).
(** A dot, group 1: an identifier, an opening bracket, a quote
    (single or double), group 2: one or more bytes that are no quote,
    a quote, a closing bracket. *)
Definition re_array : Regexp.t :=
  Regexp.Seq (Regexp.Chr (Regexp.only "."))
 (Regexp.Seq (Regexp.Group (Regexp.Seq (Regexp.Chr Regexp.ident_start)
                                       (Regexp.Star Regexp.ident_char)))
 (Regexp.Seq (Regexp.Chr (Regexp.only "["))
 (Regexp.Seq (Regexp.Chr Regexp.quote)
 (Regexp.Seq (Regexp.Group (Regexp.Plus (fun c => negb (Regexp.quote c))))
 (Regexp.Seq (Regexp.Chr Regexp.quote)
             (Regexp.Chr (Regexp.only "]"))))))).
(** An exclamation mark, then group 1: one byte other than [=]. *)
Definition re_not : Regexp.t :=
  Regexp.Seq (Regexp.Chr (Regexp.only "!"))
    (Regexp.Group (Regexp.Chr (fun c => negb (Regexp.only "=" c)))).
(** One or more white-space bytes. *)
Definition re_spaces : Regexp.t := Regexp.Plus Regexp.space.
(** [<], optional white space, an optional [=], optional white
    space, then group 1: one or more decimal digits. *)
Definition re_for_end : Regexp.t :=
  Regexp.Seq (Regexp.Chr (Regexp.only "<"))
 (Regexp.Seq (Regexp.Star Regexp.space)
 (Regexp.Seq (Regexp.Opt (Regexp.Chr (Regexp.only "=")))
 (Regexp.Seq (Regexp.Star Regexp.space)
             (Regexp.Group (Regexp.Plus Regexp.digit))))).

(** [transformExpression].  The two complemented classes are read
    byte by byte; Go reads them rune by rune, which yields the same
    output because the replacement copies the bytes it matched and no
    continuation byte of UTF-8 can start a match. *)
Definition transformExpression (expr : string) : string :=
  let expr := Str.TrimSpace expr in
  let expr := Regexp.ReplaceAllString re_variable expr
                [Regexp.Lit "."; Regexp.Ref 1] in
  let expr := Str.ReplaceAll expr "->" "." in
  let expr := Regexp.ReplaceAllString re_array expr
                [Regexp.Lit "(index ."; Regexp.Ref 1; Regexp.Lit (" " +:+ Str.dq);
                 Regexp.Ref 2; Regexp.Lit (Str.dq +:+ ")")] in
  let expr := Str.ReplaceAll expr "!==" " ne " in
  let expr := Str.ReplaceAll expr "!=" " ne " in
  let expr := Str.ReplaceAll expr "===" " eq " in
  let expr := Str.ReplaceAll expr "==" " eq " in
  let expr := Str.ReplaceAll expr "&&" " and " in
  let expr := Str.ReplaceAll expr "||" " or " in
  let expr := Regexp.ReplaceAllString re_not expr
                [Regexp.Lit "not "; Regexp.Ref 1] in
  let expr := Str.ReplaceAll expr ">=" " gte " in
  let expr := Str.ReplaceAll expr "<=" " lte " in
  let expr := Str.ReplaceAll expr ">" " gt " in
  let expr := Str.ReplaceAll expr "<" " lt " in
  let expr := Regexp.ReplaceAllString re_spaces expr [Regexp.Lit " "] in
  Str.TrimSpace expr.

(** [escapeBackticks] *)
Definition escapeBackticks (s : string) : string :=
  Str.ReplaceAll s Str.bq (Str.bq +:+ " + " +:+ Str.dq +:+ Str.bq +:+ Str.dq +:+ " + " +:+ Str.bq).

(** [fmt.Sprintf] with [%s] and [%d] verbs is concatenation. *)
Definition cat (l : list string) : string := Str.Join l EmptyString.

(** [compileEcho] *)
Definition compileEcho (expression : string) (escaped : bool) : string :=
  let expr := transformExpression expression in
  if escaped then cat ["{{ html "; expr; " }}"] else cat ["{{ "; expr; " }}"].

(** [compileClass] and [compileStyle] *)
Definition compileClass (args : string) : string :=
  cat ["class=" +:+ Str.dq +:+ "{{ classArray "; args; " }}" +:+ Str.dq].
Definition compileStyle (args : string) : string :=
  cat ["style=" +:+ Str.dq +:+ "{{ styleArray "; args; " }}" +:+ Str.dq].

(** [compileDirective] *)
Definition compileDirective (name args : string) : string :=
  let is_ (s : string) := String.eqb name s in
  let attr (word : string) :=
    cat ["{{ if "; transformExpression args; " }}"; word; "{{ end }}"] in
  if is_ "csrf" then
    "<input type=" +:+ Str.dq +:+ "hidden" +:+ Str.dq +:+ " name=" +:+ Str.dq
    +:+ "_token" +:+ Str.dq +:+ " value=" +:+ Str.dq +:+ "{{ .csrf_token }}"
    +:+ Str.dq +:+ ">"
  else if is_ "method" then
    "<input type=" +:+ Str.dq +:+ "hidden" +:+ Str.dq +:+ " name=" +:+ Str.dq
    +:+ "_method" +:+ Str.dq +:+ " value=" +:+ Str.dq
    +:+ Str.Trim args ("'" +:+ Str.dq) +:+ Str.dq +:+ ">"
  else if is_ "json" then cat ["{{ json "; transformExpression args; " }}"]
  else if is_ "class" then compileClass args
  else if is_ "style" then compileStyle args
  else if is_ "checked" then attr "checked"
  else if is_ "selected" then attr "selected"
  else if is_ "disabled" then attr "disabled"
  else if is_ "readonly" then attr "readonly"
  else if is_ "required" then attr "required"
  else if is_ "old" then
    cat ["{{ index .old " +:+ Str.dq; Str.Trim args ("'" +:+ Str.dq); Str.dq +:+ " }}"]
  else if negb (String.eqb args EmptyString) then
    cat ["{{ "; name; " "; transformExpression args; " }}"]
  else cat ["{{ "; name; " }}"].

(** The text after the first [=] of the init clause, as
    [extractForRange] computes it. *)
Definition for_init_value (init : string) : string :=
  let init := Str.TrimPrefix init "$" in
  match Str.Index init "=" with
  | Some idx => Str.TrimSpace (Str.drop (idx + 1) init)
  | None => init
  end.

(** [extractForRange] *)
Definition extractForRange (init condition : string) : string :=
  let init := Str.TrimPrefix init "$" in
  let init :=
    match Str.Index init "=" with
    | Some idx => Str.TrimSpace (Str.drop (idx + 1) init)
    | None => init
    end in
  let end_ :=
    match Regexp.FindStringSubmatch re_for_end condition with
    | Some (m :: _) => m
    | _ => "10"
    end in
  cat [init; " "; end_].

(** [c.m[k]] for a Go map of slices: the zero value is the nil slice. *)
Definition get_list (m : gmap string (list string)) (k : string) : list string :=
  default [] (m !! k).
Definition get_bool (m : gmap string bool) (k : string) : bool :=
  default false (m !! k).

(** [compileYield] *)
Definition compileYield (name default : string) : string :=
  if negb (String.eqb default EmptyString) then
    cat ["{{ block " +:+ Str.dq; name; Str.dq +:+ " . }}"; default; "{{ end }}"]
  else cat ["{{ block " +:+ Str.dq; name; Str.dq +:+ " . }}{{ end }}"].

(** [compileInclude] *)
Definition compileInclude (variant template data condition : string) : string :=
  let is_ (s : string) := String.eqb variant s in
  let call :=
    if negb (String.eqb data EmptyString) then
      cat ["{{ template " +:+ Str.dq; template; Str.dq +:+ " (merge . "; data; ") }}"]
    else cat ["{{ template " +:+ Str.dq; template; Str.dq +:+ " . }}"] in
  if is_ "include" then call
  else if is_ "includeIf" then
    cat ["{{ if templateExists " +:+ Str.dq; template; Str.dq +:+ " }}"; call; "{{ end }}"]
  else if is_ "includeWhen" then
    cat ["{{ if "; transformExpression condition; " }}"; call; "{{ end }}"]
  else if is_ "includeUnless" then
    cat ["{{ if not "; transformExpression condition; " }}"; call; "{{ end }}"]
  else if is_ "includeFirst" then cat ["{{ includeFirst "; template; " . }}"]
  else EmptyString.

(** [compileEach] *)
Definition compileEach (template items itemVar emptyView : string) : string :=
  let items := transformExpression items in
  if negb (String.eqb emptyView EmptyString) then
    cat ["{{ each " +:+ Str.dq; template; Str.dq +:+ " "; items; " " +:+ Str.dq;
         itemVar; Str.dq +:+ " " +:+ Str.dq; emptyView; Str.dq +:+ " }}"]
  else
    cat ["{{ each " +:+ Str.dq; template; Str.dq +:+ " "; items; " " +:+ Str.dq;
         itemVar; Str.dq +:+ " " +:+ Str.dq +:+ Str.dq +:+ " }}"].

(** [compileBreak] and [compileContinue] *)
Definition compileBreak (condition : string) : string :=
  if negb (String.eqb condition EmptyString) then
    cat ["{{ if "; transformExpression condition; " }}{{ break }}{{ end }}"]
  else "{{ break }}".
Definition compileContinue (condition : string) : string :=
  if negb (String.eqb condition EmptyString) then
    cat ["{{ if "; transformExpression condition; " }}{{ continue }}{{ end }}"]
  else "{{ continue }}".

(** The two actions that open a [foreach]/[forelse] loop at depth
    [d]: the range header and the loop-record update. *)
Definition foreach_header (d : Z) (items key value : string) : string :=
  let key := if String.eqb key EmptyString then "_" else key in
  let key := Str.TrimPrefix key "$" in
  let value := Str.TrimPrefix value "$" in
  cat ["{{ $__loop"; Str.itoa d; " := newLoop (len "; items; ") "; Str.itoa d; " }}"]
  +:+ (if String.eqb key "_"
       then cat ["{{ range $__idx"; Str.itoa d; ", $"; value; " := "; items; " }}"]
       else cat ["{{ range $"; key; ", $"; value; " := "; items; " }}"])
  +:+ (if String.eqb key "_"
       then cat ["{{ $loop := $__loop"; Str.itoa d; ".Update $__idx"; Str.itoa d; " }}"]
       else cat ["{{ $loop := $__loop"; Str.itoa d; ".Update $"; key; " }}"]).

(** The three actions that open a compiled [while] at depth [d]. *)
Definition while_header (d : Z) (condition : string) : string :=
  cat ["{{ $__loop"; Str.itoa d; " := newLoop -1 "; Str.itoa d; " }}"]
  +:+ cat ["{{ range $__idx"; Str.itoa d; " := until 1000 }}"]
  +:+ cat ["{{ if not "; condition; " }}{{ break }}{{ end }}"]
  +:+ cat ["{{ $loop := $__loop"; Str.itoa d; ".Update $__idx"; Str.itoa d; " }}"].

(** The three actions that open a compiled [for] at depth [d]. *)
Definition for_header (d : Z) (range : string) : string :=
  cat ["{{ $__loop"; Str.itoa d; " := newLoop -1 "; Str.itoa d; " }}"]
  +:+ cat ["{{ range $__idx"; Str.itoa d; " := seq "; range; " }}"]
  +:+ cat ["{{ $loop := $__loop"; Str.itoa d; ".Update $__idx"; Str.itoa d; " }}"].

(** [compileEnv]: the opening action. *)
Definition env_header (envs : list string) : string :=
  match envs with
  | [e] => cat ["{{ if eq .env " +:+ Str.dq; e; Str.dq +:+ " }}"]
  | _ =>
      cat ["{{ if or ";
           Str.Join (map (fun e => cat ["(eq .env " +:+ Str.dq; e; Str.dq +:+ ")"]) envs) " ";
           " }}"]
  end.

(** [compileNode].  The Go functions return [(string, error)] but no
    function of the package ever produces an error, so the result is
    the emitted text and the updated compiler.  [compileChildren] and
    the loops over else-if clauses, cases and slots are local
    recursions. *)
Fixpoint compileNode (n : Node) (c : t) : string * t :=
  let compileChildren :=
    fix go (l : list Node) (c : t) : string * t :=
      match l with
      | [] => (EmptyString, c)
      | x :: l' =>
          let '(s1, c1) := compileNode x c in
          let '(s2, c2) := go l' c1 in
          (s1 +:+ s2, c2)
      end in
  let wrap_if (header : string) (children : list Node) (c : t) : string * t :=
    let '(body, c1) := compileChildren children c in
    (header +:+ body +:+ "{{ end }}", c1) in
  match n with
  | TextNode _ content => (content, c)
  | EchoNode _ expression escaped => (compileEcho expression escaped, c)
  | CommentNode _ _ => (EmptyString, c)
  | DirectiveNode _ name args => (compileDirective name args, c)
  | IfNode _ condition children elseifs else_ =>
      let head := cat ["{{ if "; transformExpression condition; " }}"] in
      let '(body, c1) := compileChildren children c in
      let '(elifs, c2) :=
        (fix goE (l : list ElseIfNode) (c : t) : string * t :=
           match l with
           | [] => (EmptyString, c)
           | MkElseIf _ cond ch :: l' =>
               let h := cat ["{{ else if "; transformExpression cond; " }}"] in
               let '(s1, c1) := compileChildren ch c in
               let '(s2, c2) := goE l' c1 in
               (h +:+ s1 +:+ s2, c2)
           end) elseifs c1 in
      let '(els, c3) :=
        match else_ with
        | Some (MkElse _ ch) =>
            let '(s, c3) := compileChildren ch c2 in ("{{ else }}" +:+ s, c3)
        | None => (EmptyString, c2)
        end in
      (head +:+ body +:+ elifs +:+ els +:+ "{{ end }}", c3)
  | UnlessNode _ condition children =>
      wrap_if (cat ["{{ if not "; transformExpression condition; " }}"]) children c
  | SwitchNode _ expression cases default =>
      let expr := transformExpression expression in
      let '(body, c1) :=
        (fix goC (first : bool) (l : list CaseNode) (c : t) : string * t :=
           match l with
           | [] => (EmptyString, c)
           | MkCase _ value ch :: l' =>
               let caseVal := transformExpression value in
               let h := if first
                        then cat ["{{ if eq "; expr; " "; caseVal; " }}"]
                        else cat ["{{ else if eq "; expr; " "; caseVal; " }}"] in
               let '(s1, c1) := compileChildren ch c in
               let '(s2, c2) := goC false l' c1 in
               (h +:+ s1 +:+ s2, c2)
           end) true cases c in
      let '(dflt, c2) :=
        match default with
        | Some (MkDefault _ ch) =>
            let '(s, c2) := compileChildren ch c1 in ("{{ else }}" +:+ s, c2)
        | None => (EmptyString, c1)
        end in
      let closing :=
        match cases, default with
        | [], None => EmptyString
        | _, _ => "{{ end }}"
        end in
      (body +:+ dflt +:+ closing, c2)
  | ForNode _ init condition _ children =>
      let c := enter_loop c in
      let head := for_header (loopDepth c) (extractForRange init condition) in
      let '(body, c1) := compileChildren children c in
      (head +:+ body +:+ "{{ end }}", leave_loop c1)
  | ForeachNode _ items key value children =>
      let c := enter_loop c in
      let head := foreach_header (loopDepth c) (transformExpression items) key value in
      let '(body, c1) := compileChildren children c in
      (head +:+ body +:+ "{{ end }}", leave_loop c1)
  | ForelseNode _ items key value children empty =>
      let c := enter_loop c in
      let items := transformExpression items in
      let head := cat ["{{ if "; items; " }}"]
                  +:+ foreach_header (loopDepth c) items key value in
      let '(body, c1) := compileChildren children c in
      let '(emp, c2) := compileChildren empty c1 in
      (head +:+ body +:+ "{{ end }}" +:+ "{{ else }}" +:+ emp +:+ "{{ end }}",
       leave_loop c2)
  | WhileNode _ condition children =>
      let c := enter_loop c in
      let head := while_header (loopDepth c) (transformExpression condition) in
      let '(body, c1) := compileChildren children c in
      (head +:+ body +:+ "{{ end }}", leave_loop c1)
  | SectionNode _ name content children show =>
      if negb (String.eqb content EmptyString) then
        (EmptyString, set_sections (<[name := content]> (sections c)) c)
      else
        let '(body, c1) := compileChildren children c in
        let c2 := if Str.Contains body "{{__PARENT__}}"
                  then set_parentCalls (<[name := true]> (parentCalls c1)) c1
                  else c1 in
        let c3 := set_sections (<[name := body]> (sections c2)) c2 in
        if show
        then (cat ["{{ block " +:+ Str.dq; name; Str.dq +:+ " . }}"; body; "{{ end }}"], c3)
        else (EmptyString, c3)
  | YieldNode _ name default => (compileYield name default, c)
  | ExtendsNode _ template => (EmptyString, set_extends template c)
  | IncludeNode _ variant template data condition =>
      (compileInclude variant template data condition, c)
  | EachNode _ template items itemVar emptyView =>
      (compileEach template items itemVar emptyView, c)
  | PushNode _ stack children once =>
      let '(body, c1) := compileChildren children c in
      let key := cat ["push_"; stack; "_"; body] in
      if once && get_bool (onceKeys c1) key then (EmptyString, c1)
      else
        let c2 := if once then set_onceKeys (<[key := true]> (onceKeys c1)) c1 else c1 in
        (EmptyString,
         set_pushes (<[stack := get_list (pushes c2) stack ++ [body]]> (pushes c2)) c2)
  | PrependNode _ stack children =>
      let '(body, c1) := compileChildren children c in
      (EmptyString,
       set_prepends (<[stack := body :: get_list (prepends c1) stack]> (prepends c1)) c1)
  | StackNode _ name => (cat ["{{ stack " +:+ Str.dq; name; Str.dq +:+ " }}"], c)
  | ComponentNode _ name data children slots =>
      let '(defaultSlot, c1) := compileChildren children c in
      let head := cat ["{{ $__slots := dict " +:+ Str.dq +:+ "default" +:+ Str.dq
                       +:+ " " +:+ Str.bq; escapeBackticks defaultSlot; Str.bq] in
      let '(named, c2) :=
        (fix goS (l : list (string * SlotNode)) (c : t) : string * t :=
           match l with
           | [] => (EmptyString, c)
           | (sname, MkSlot _ _ ch) :: l' =>
               let '(s1, c1) := compileChildren ch c in
               let '(s2, c2) := goS l' c1 in
               (cat [" " +:+ Str.dq; sname; Str.dq +:+ " " +:+ Str.bq;
                     escapeBackticks s1; Str.bq] +:+ s2, c2)
           end) slots c1 in
      let call :=
        let common :=
          "{{ template " +:+ Str.dq +:+ "components/" +:+ name +:+ Str.dq
          +:+ " (merge . (dict " +:+ Str.dq +:+ "slot" +:+ Str.dq
          +:+ " (index $__slots " +:+ Str.dq +:+ "default" +:+ Str.dq +:+ ") "
          +:+ Str.dq +:+ "slots" +:+ Str.dq +:+ " $__slots)" in
        if negb (String.eqb data EmptyString)
        then common +:+ " " +:+ data +:+ ") }}"
        else common +:+ ") }}" in
      (head +:+ named +:+ " }}" +:+ call, c2)
  | VerbatimNode _ content => (content, c)
  | PhpNode _ code => (cat ["{{ /* php: "; code; " */ }}"], c)
  | BreakNode _ condition => (compileBreak condition, c)
  | ContinueNode _ condition => (compileContinue condition, c)
  | IssetNode _ variable children =>
      wrap_if (cat ["{{ if isset "; transformExpression variable; " }}"]) children c
  | EmptyCheckNode _ variable children =>
      wrap_if (cat ["{{ if empty "; transformExpression variable; " }}"]) children c
  | AuthNode _ guard children =>
      wrap_if (if negb (String.eqb guard EmptyString)
               then cat ["{{ if auth " +:+ Str.dq; guard; Str.dq +:+ " }}"]
               else "{{ if .auth }}") children c
  | GuestNode _ guard children =>
      wrap_if (if negb (String.eqb guard EmptyString)
               then cat ["{{ if not (auth " +:+ Str.dq; guard; Str.dq +:+ ") }}"]
               else "{{ if not .auth }}") children c
  | EnvNode _ envs children => wrap_if (env_header envs) children c
  | ProductionNode _ children =>
      wrap_if ("{{ if eq .env " +:+ Str.dq +:+ "production" +:+ Str.dq +:+ " }}") children c
  | ErrorNode _ field children =>
      wrap_if (cat ["{{ if hasError .errors " +:+ Str.dq; field; Str.dq +:+ " }}"]
               +:+ cat ["{{ $message := getError .errors " +:+ Str.dq; field; Str.dq +:+ " }}"])
        children c
  | OnceNode _ children =>
      let '(body, c1) := compileChildren children c in
      let key := cat ["once_"; body] in
      if get_bool (onceKeys c1) key then (EmptyString, c1)
      else (body, set_onceKeys (<[key := true]> (onceKeys c1)) c1)
  | ParentNode _ => ("{{__PARENT__}}", c)
  end.

(** [compileChildren], as the other functions of the package call it. *)
Fixpoint compileChildren (l : list Node) (c : t) : string * t :=
  match l with
  | [] => (EmptyString, c)
  | x :: l' =>
      let '(s1, c1) := compileNode x c in
      let '(s2, c2) := compileChildren l' c1 in
      (s1 +:+ s2, c2)
  end.

(** [Compile]: the same loop over the children of the root. *)
Definition Compile (root : RootNode) (c : t) : string * t :=
  compileChildren (RootChildren root) c.

End Compiler.

(** ** Package engine *)

Module Engine.

(** The keys of the map returned by [DefaultFunctions]. *)
Definition DefaultFunctionNames : list string :=
  ["upper"; "lower"; "title"; "trim"; "ltrim"; "rtrim"; "replace"; "contains";
   "hasPrefix"; "hasSuffix"; "split"; "join"; "repeat"; "substr"; "length";
   "nl2br"; "ucfirst"; "lcfirst"; "slug"; "limit"; "wordLimit";
   "html"; "htmlAttr"; "js"; "url"; "safeHTML"; "safeJS"; "safeURL"; "safeCSS";
   "first"; "last"; "reverse"; "sortAsc"; "sortDesc"; "unique"; "pluck"; "where";
   "groupBy"; "chunk"; "flatten"; "slice"; "append"; "prepend"; "merge";
   "dict"; "set"; "unset"; "keys"; "values"; "hasKey";
   "add"; "sub"; "mul"; "div"; "mod"; "round"; "floor"; "ceil"; "abs"; "min";
   "max"; "currency"; "number"; "percent";
   "date"; "now"; "ago"; "diff"; "addDate"; "subDate"; "timestamp";
   "eq"; "ne"; "lt"; "gt"; "lte"; "gte"; "and"; "or"; "not";
   "default"; "isset"; "empty"; "dump"; "json"; "jsonDec"; "seq"; "until";
   "index"; "printf"; "print"; "coalesce"; "ternary"; "typeof"; "toInt";
   "toFloat"; "toString"; "toBool";
   "newLoop"; "hasError"; "getError"; "classArray"; "styleArray"].

(** The functions predefined by Go's [text/template], which a
    [Funcs] map extends. *)
Definition GoBuiltinNames : list string :=
  ["and"; "call"; "html"; "index"; "slice"; "js"; "len"; "not"; "or"; "print";
   "printf"; "println"; "urlquery"; "eq"; "ge"; "gt"; "le"; "lt"; "ne"].

(** A function name is defined for a template of the engine when it
    is a key of [e.functions] or predefined. *)
Definition function_defined (name : string) : bool :=
  existsb (String.eqb name) DefaultFunctionNames
  || existsb (String.eqb name) GoBuiltinNames.

(** [make([]int, n)] as [runtime.makeslice] decides it: the call
    panics when [n] is negative or when the [8 * n] bytes of the
    elements overflow or exceed [maxAlloc], which is [2 ^ 48] bytes on
    the 64-bit platforms with a 48-bit heap address space (amd64 and
    arm64 on Linux among them); below that the slice has [n] elements
    (that the machine has the memory is not modelled).
    [None] is the panic, which [text/template] returns as the error of
    the function call. *)
Definition maxAlloc : Z := 2 ^ 48.

Definition make_ints (n : Z) : option nat :=
  if (n <? 0) || (maxAlloc <? 8 * n) then None else Some (Z.to_nat n).

(** [for i := range result { result[i] = f(i) }] on a slice of [n]
    elements. *)
Definition fill (n : nat) (f : Z -> Z) : list Z := map f (seqZ 0 (Z.of_nat n)).

(** [seq(start, end)] on arguments of dynamic type [int] (the type an
    integer constant of a template has), on which [int(toInt64(v))]
    is [v]. *)
Definition seq (s e : Z) : option (list Z) :=
  if e <? s then
    n ← make_ints (GoInt.add (GoInt.sub s e) 1);
    Some (fill n (fun i => GoInt.sub s i))
  else
    n ← make_ints (GoInt.add (GoInt.sub e s) 1);
    Some (fill n (fun i => GoInt.add s i)).

(** [until(n)] on an argument of dynamic type [int]; the nil slice
    is the empty list. *)
Definition until (count : Z) : option (list Z) :=
  if count <=? 0 then Some []
  else n ← make_ints count; Some (fill n (fun i => i)).

(** Outcome of a compilation: a value, an error message, or
    recursion that has not returned within the given depth. *)
Inductive result (A : Type) : Type :=
| Ok (a : A)
| Error (msg : string)
| OutOfFuel.
Arguments Ok {A} a.
Arguments Error {A} msg.
Arguments OutOfFuel {A}.

(** [compile]: lexer, parser, compiler.  [processStacks] returns its
    argument unchanged. *)
Definition processStacks (compiled : string) (c : Compiler.t) : string := compiled.

Definition compile (content : string)
  : result (string * string * gmap string string) :=
  match Lexer.Tokenize content with
  | Lexer.Fail e => Error ("lexer error: " +:+ Lexer.Message e)
  | Lexer.OutOfFuel => OutOfFuel
  | Lexer.Ok toks =>
      match Parser.Parse toks with
      | None => OutOfFuel
      | Some ast =>
          let '(compiled, c) := Compiler.Compile ast Compiler.New in
          Ok (processStacks compiled c, Compiler.extends c, Compiler.sections c)
      end
  end.

(** [compileString] *)
Definition compileString (content : string) : result string :=
  match compile content with
  | Ok (compiled, _, _) => Ok compiled
  | Error msg => Error msg
  | OutOfFuel => OutOfFuel
  end.

(** [WithExtension]: the extension the option stores ([New] starts
    from [.legit]). *)
Definition WithExtension (ext : string) : string :=
  if negb (Str.HasPrefix ext ".") then "." +:+ ext else ext.

(** *** Template files and inheritance

    The files of the views directory and the library are parameters.
    [ReadFile] is [os.ReadFile] and [Stat] is [os.Stat] followed by
    [ModTime]: each gives its value or, on the right, the text of the
    error it returns; the files are taken not to change while one
    template is compiled.  [Separator] and [Join] stand for
    [filepath.Separator] and [filepath.Join].  [ParseTemplate name text]
    is [template.New(name).Funcs(e.functions).Parse(text)], the template
    or the text of the error.  Go ranges over a map in an order that is
    not specified and may differ from one range statement to the next:
    [range_order k m] is the order in which the [k]-th range statement
    over the merged sections visits the entries of [m], any enumeration
    of [map_to_list m]. *)
Section Files.

Variable viewsPath extension Separator : string.
Variable Join : string -> string -> string.
Variable ReadFile : string -> string + string.
Variable ModTime : Type.
Variable Template : Type.
Variable Stat : string -> ModTime + string.
Variable ParseTemplate : string -> string -> Template + string.
Variable range_order : nat -> gmap string string -> list (string * string).

(** [resolvePath] *)
Definition resolvePath (name : string) : string :=
  let name := Str.ReplaceAll name "." Separator in
  let name := if negb (Str.HasSuffix name extension)
              then name +:+ extension else name in
  Join viewsPath name.

(** The search for the [{{ end }}] that closes a block: the loop
    [for i := searchFrom; i < len(parentCompiled); ...].  Every pass
    moves [i] forward, so [n] bounds the passes. *)
Fixpoint find_block_end (n : nat) (parentCompiled : string) (i : nat) (depth : Z)
    : option nat :=
  match n with
  | O => None
  | S n' =>
      if (i <? Str.len parentCompiled)%nat then
        let rest := Str.drop i parentCompiled in
        if Str.HasPrefix rest "{{ end }}" then
          let depth := depth - 1 in
          if depth =? 0 then Some (i + Str.len "{{ end }}")%nat
          else find_block_end n' parentCompiled (i + Str.len "{{ end }}") depth
        else if Str.HasPrefix rest "{{ if " || Str.HasPrefix rest "{{ range "
                || Str.HasPrefix rest "{{ with " || Str.HasPrefix rest "{{ block "
        then find_block_end n' parentCompiled (i + 1) (depth + 1)
        else find_block_end n' parentCompiled (i + 1) depth
      else None
  end.

(** One pass of the loop over the merged sections. *)
Definition place_section (parentSections : gmap string string)
    (parentCompiled : string) (section : string * string) : string :=
  let '(sectionName, sectionContent) := section in
  let sectionContent :=
    if Str.Contains sectionContent "{{__PARENT__}}" then
      match parentSections !! sectionName with
      | Some parentContent => Str.ReplaceAll sectionContent "{{__PARENT__}}" parentContent
      | None => Str.ReplaceAll sectionContent "{{__PARENT__}}" EmptyString
      end
    else sectionContent in
  let blockStart := "{{ block " +:+ Str.dq +:+ sectionName +:+ Str.dq +:+ " . }}" in
  match Str.Index parentCompiled blockStart with
  | Some startIdx =>
      let searchFrom := (startIdx + Str.len blockStart)%nat in
      match find_block_end (S (Str.len parentCompiled - searchFrom))
              parentCompiled searchFrom 1 with
      | Some endIdx =>
          Str.take startIdx parentCompiled +:+ sectionContent
          +:+ Str.drop endIdx parentCompiled
      | None => parentCompiled
      end
  | None => parentCompiled
  end.

(** [compileWithInheritance], [depth] calls below the one made by
    [compileFile].  The sections of the child win over those of the
    parent (the merge writes into the map of the child; its result does
    not depend on the order of that range).  [fuel] bounds the depth of
    the recursion. *)
Fixpoint compileWithInheritance (fuel depth : nat)
    (name childCompiled parentName : string)
    (childSections : gmap string string) : result (Template * ModTime) :=
  match fuel with
  | O => OutOfFuel
  | S fuel' =>
      let parentPath := resolvePath parentName in
      match ReadFile parentPath with
      | inr err =>
          Error ("failed to read parent template " +:+ parentName +:+ ": " +:+ err)
      | inl parentContent =>
          match Stat parentPath with
          | inr err => Error err
          | inl parentInfo =>
              match compile parentContent with
              | Error msg =>
                  Error ("failed to compile parent template " +:+ parentName
                         +:+ ": " +:+ msg)
              | OutOfFuel => OutOfFuel
              | Ok (parentCompiled, parentExtends, parentSections) =>
                  let childSections := childSections ∪ parentSections in
                  let parentCompiled :=
                    fold_left (place_section parentSections)
                      (range_order depth childSections) parentCompiled in
                  if negb (String.eqb parentExtends EmptyString) then
                    compileWithInheritance fuel' (S depth) name parentCompiled
                      parentExtends childSections
                  else
                    match ParseTemplate name parentCompiled with
                    | inr err =>
                        Error ("failed to parse compiled template " +:+ name
                               +:+ ": " +:+ err)
                    | inl tmpl => Ok (tmpl, parentInfo)
                    end
              end
          end
      end
  end.

(** [compileFile] for the template [name] stored at [filePath]. *)
Definition compileFile (fuel : nat) (name filePath : string)
    : result (Template * ModTime) :=
  match ReadFile filePath with
  | inr err => Error ("failed to read template " +:+ name +:+ ": " +:+ err)
  | inl content =>
      match Stat filePath with
      | inr err => Error err
      | inl info =>
          match compile content with
          | Error msg => Error ("failed to compile template " +:+ name +:+ ": " +:+ msg)
          | OutOfFuel => OutOfFuel
          | Ok (compiled, extendsTemplate, sections) =>
              if negb (String.eqb extendsTemplate EmptyString)
              then compileWithInheritance fuel 0 name compiled extendsTemplate sections
              else
                match ParseTemplate name compiled with
                | inr err =>
                    Error ("failed to parse compiled template " +:+ name
                           +:+ ": " +:+ err)
                | inl tmpl => Ok (tmpl, info)
                end
          end
      end
  end.

(** The template [p] extends [q]: its file can be read and examined,
    it compiles, and it holds [@extends] of [q]. *)
Definition extends_to (p q : string) : Prop :=
  exists content info compiled secs,
    ReadFile (resolvePath p) = inl content
    /\ Stat (resolvePath p) = inl info
    /\ compile content = Ok (compiled, q, secs)
    /\ q <> EmptyString.

(** [n] links of [@extends] lead from [p] to [q]. *)
Inductive links : nat -> string -> string -> Prop :=
| links_here (p : string) : links O p p
| links_step (n : nat) (p q r : string) :
    extends_to p q -> links n q r -> links (S n) p r.

End Files.

(** A views directory with two templates that extend each other:
    [a.legit] holds [@extends('b')] and [b.legit] holds
    [@extends('a')]. *)
Definition cyclic_views (path : string) : string + string :=
  if String.eqb path "views/a.legit" then inl "@extends('b')"
  else if String.eqb path "views/b.legit" then inl "@extends('a')"
  else inr ("open " +:+ path +:+ ": no such file or directory").

(** [os.Stat] on a directory given by its files; the modification
    time is not recorded. *)
Definition stat_views (files : string -> string + string) (path : string)
    : unit + string :=
  match files path with
  | inl _ => inl tt
  | inr _ => inr ("stat " +:+ path +:+ ": no such file or directory")
  end.

(** A views directory with a layout: [page.legit] extends
    [mid.legit], which extends [base.legit]. *)
Definition layout_views (path : string) : string + string :=
  if String.eqb path "views/page.legit"
  then inl "@extends('mid')@section('t')T@endsection"
  else if String.eqb path "views/mid.legit" then inl "@extends('base')"
  else if String.eqb path "views/base.legit" then inl "<h1>@yield('t')</h1>"
  else inr ("open " +:+ path +:+ ": no such file or directory").

(** A views directory in which a section of the child holds a yield
    of its own: [page.legit] extends [base.legit], fills [a] with a
    yield of [b], and fills [b]. *)
Definition nested_views (path : string) : string + string :=
  if String.eqb path "views/page.legit"
  then inl "@extends('base')@section('a')[@yield('b')]@endsection@section('b')B@endsection"
  else if String.eqb path "views/base.legit" then inl "[@yield('a')]"
  else inr ("open " +:+ path +:+ ": no such file or directory").

Definition slash_join (dir name : string) : string := dir +:+ "/" +:+ name.

(** Resolution over a directory given by its files, with a template
    library that accepts every text and keeps it with its name, and
    ranges in the order of [map_to_list]. *)
Definition resolve_views (files : string -> string + string) :=
  compileWithInheritance "views" ".legit" "/" slash_join files unit (string * string)
    (stat_views files) (fun name text => inl (name, text))
    (fun _ m => map_to_list m).

(** *** Rendering a template string

    [RenderTemplate] compiles the template and hands the Go template
    text to [html/template] ([template.New("inline").Funcs(e.functions).Parse]
    and [Execute]).  Of that library only one documented rule is
    written out: [Parse] fails with [function "f" not defined] when an
    action calls an identifier that is neither a keyword nor a defined
    function.  The text before the first [{{] is literal, so the word
    that opens the first action is looked at. *)
Definition action_keywords : list string :=
  ["block"; "break"; "continue"; "define"; "else"; "end"; "if"; "range"; "nil";
   "template"; "with"; "true"; "false"].

Definition action_space (c : ascii) : bool :=
  Ascii.eqb c " " || Ascii.eqb c "009" || Ascii.eqb c "013" || Ascii.eqb c "010".

Fixpoint skip_action_spaces (s : string) : string :=
  match s with
  | String c r => if action_space c then skip_action_spaces r else s
  | EmptyString => EmptyString
  end.

Fixpoint ident_run (s : string) : string :=
  match s with
  | String c r => if Regexp.ident_char c then String c (ident_run r) else EmptyString
  | EmptyString => EmptyString
  end.

(** The identifier that opens the first action of a template text. *)
Definition first_action_word (text : string) : option string :=
  i ← Str.Index text "{{";
  let body := Str.drop (i + 2) text in
  let body :=
    match body with
    | String "-" (String c r) => if action_space c then r else body
    | _ => body
    end in
  let body := skip_action_spaces body in
  match body with
  | String c _ =>
      if Regexp.ident_start c then Some (ident_run body) else None
  | EmptyString => None
  end.

Definition undefined_call (text : string) : option string :=
  w ← first_action_word text;
  if existsb (String.eqb w) action_keywords || function_defined w then None
  else Some w.

Inductive rendering : Type :=
| CompileFails (msg : string)     (* compileString returned an error *)
| ParseFails (function : string)  (* Parse: this function is not defined *)
| HandedOver (compiled : string)  (* the library goes on with this text *)
| NoResult.                       (* recursion depth exhausted *)

Definition RenderTemplate (templateStr : string) : rendering :=
  match compileString templateStr with
  | Error msg => CompileFails msg
  | OutOfFuel => NoResult
  | Ok compiled =>
      match undefined_call compiled with
      | Some f => ParseFails f
      | None => HandedOver compiled
      end
  end.

(** The compiler as [compile] leaves it, with its side tables. *)
Definition compiler_after (content : string) : option Compiler.t :=
  match Lexer.Tokenize content with
  | Lexer.Ok toks =>
      ast ← Parser.Parse toks;
      Some (Compiler.Compile ast Compiler.New).2
  | _ => None
  end.

End Engine.

(** ** Package runtime: the render context

    [Context] holds Go maps, and two of its tables hold slices.  Maps
    and the backing arrays of slices are objects of a store, so that
    two contexts (or two slices) may share them; a context is an
    address of the store as well, since its methods assign to its
    fields.  The values of the data table are left abstract. *)

Module Context.

Section WithValue.

(** The dynamic values ([interface{}]) of the data table. *)
Variable V : Type.

(** [growslice]: the capacity the runtime picks when [append] has to
    reallocate, from the old capacity and the needed length.  The new
    array is never shorter than needed. *)
Variable growcap : nat -> nat -> nat.

Abbreviation addr := positive.

(** A [[]string] value: backing array ([None] for the nil slice),
    length and capacity. *)
Record slice : Type := MkSlice { base : option addr; len : nat; cap : nat }.

Definition nil_slice : slice := MkSlice None 0 0.

(** The fields of a [Context].  [errors] and [old] are assigned by
    [SetErrors] and [SetOld] and may be nil. *)
Record fields : Type := MkFields {
  data : addr;
  stacks : addr;
  sections : addr;
  errors : option addr;
  old : option addr
}.

Record store : Type := MkStore {
  ifaceMaps : gmap addr (gmap string V);        (* map[string]interface{} *)
  sliceMaps : gmap addr (gmap string slice);    (* map[string][]string *)
  stringMaps : gmap addr (gmap string string);  (* map[string]string *)
  arrays : gmap addr (list string);             (* backing arrays *)
  contexts : gmap addr fields                   (* Context structs *)
}.

Definition set_ifaceMaps (m : gmap addr (gmap string V)) (st : store) : store :=
  MkStore m (sliceMaps st) (stringMaps st) (arrays st) (contexts st).
Definition set_sliceMaps (m : gmap addr (gmap string slice)) (st : store) : store :=
  MkStore (ifaceMaps st) m (stringMaps st) (arrays st) (contexts st).
Definition set_stringMaps (m : gmap addr (gmap string string)) (st : store) : store :=
  MkStore (ifaceMaps st) (sliceMaps st) m (arrays st) (contexts st).
Definition set_arrays (m : gmap addr (list string)) (st : store) : store :=
  MkStore (ifaceMaps st) (sliceMaps st) (stringMaps st) m (contexts st).
Definition set_contexts (m : gmap addr fields) (st : store) : store :=
  MkStore (ifaceMaps st) (sliceMaps st) (stringMaps st) (arrays st) m.

(** The elements [s[0:len]] of a slice. *)
Definition read (arrs : gmap addr (list string)) (s : slice) : option (list string) :=
  match base s with
  | None => if (len s =? 0)%nat then Some [] else None
  | Some b =>
      arr ← arrs !! b;
      if (len s <=? length arr)%nat then Some (take (len s) arr) else None
  end.

(** A new backing array of capacity at least [need] that starts with
    [xs]. *)
Definition new_array (arrs : gmap addr (list string)) (oldcap : nat) (xs : list string)
  : gmap addr (list string) * slice :=
  let n := Nat.max (length xs) (growcap oldcap (length xs)) in
  let a := fresh (dom arrs) in
  (<[a := xs ++ replicate (n - length xs) EmptyString]> arrs,
   MkSlice (Some a) (length xs) n).

(** [append(s, x)]: in place when the capacity allows, into a new
    array otherwise. *)
Definition append1 (arrs : gmap addr (list string)) (s : slice) (x : string)
  : option (gmap addr (list string) * slice) :=
  if (len s <? cap s)%nat then
    b ← base s;
    arr ← arrs !! b;
    if (len s <? length arr)%nat
    then Some (<[b := <[len s := x]> arr]> arrs, MkSlice (Some b) (S (len s)) (cap s))
    else None
  else
    xs ← read arrs s;
    Some (new_array arrs (cap s) (xs ++ [x])).

(** [append([]string(nil), v...)]: appending nothing to nil gives
    nil. *)
Definition copy_slice (arrs : gmap addr (list string)) (v : slice)
  : option (gmap addr (list string) * slice) :=
  xs ← read arrs v;
  match xs with
  | [] => Some (arrs, nil_slice)
  | _ => Some (new_array arrs 0 xs)
  end.

(** [append([]string{content}, v...)] *)
Definition prepend1 (arrs : gmap addr (list string)) (content : string) (v : slice)
  : option (gmap addr (list string) * slice) :=
  xs ← read arrs v;
  let a0 := fresh (dom arrs) in
  let arrs := <[a0 := [content]]> arrs in
  match xs with
  | [] => Some (arrs, MkSlice (Some a0) 1 1)
  | _ => Some (new_array arrs 1 (content :: xs))
  end.

(** [NewContext]: five fresh empty maps and a fresh struct. *)
Definition NewContext (st : store) : store * addr :=
  let d := fresh (dom (ifaceMaps st)) in
  let s := fresh (dom (sliceMaps st)) in
  let e := fresh (dom (<[s := (∅ : gmap string slice)]> (sliceMaps st))) in
  let sec := fresh (dom (stringMaps st)) in
  let o := fresh (dom (<[sec := (∅ : gmap string string)]> (stringMaps st))) in
  let c := fresh (dom (contexts st)) in
  (MkStore (<[d := ∅]> (ifaceMaps st))
           (<[e := ∅]> (<[s := ∅]> (sliceMaps st)))
           (<[o := ∅]> (<[sec := ∅]> (stringMaps st)))
           (arrays st)
           (<[c := MkFields d s sec (Some e) (Some o)]> (contexts st)),
   c).

(** The methods that write.  [None] is a run-time panic (a nil or
    dangling reference). *)
Definition Set_ (c : addr) (key : string) (value : V) (st : store) : option store :=
  x ← contexts st !! c;
  m ← ifaceMaps st !! data x;
  Some (set_ifaceMaps (<[data x := <[key := value]> m]> (ifaceMaps st)) st).

(** [Merge(data)]: [data] is a map of the caller, nil allowed; its
    entries overwrite those of the table. *)
Definition Merge (c : addr) (arg : option addr) (st : store) : option store :=
  x ← contexts st !! c;
  m ← ifaceMaps st !! data x;
  src ← match arg with
        | None => Some ∅
        | Some a => ifaceMaps st !! a
        end;
  Some (set_ifaceMaps (<[data x := src ∪ m]> (ifaceMaps st)) st).

(** [c.stacks[name]], the nil slice when the key is absent. *)
Definition stack_entry (m : gmap string slice) (name : string) : slice :=
  default nil_slice (m !! name).

Definition PushStack (c : addr) (name content : string) (st : store) : option store :=
  x ← contexts st !! c;
  m ← sliceMaps st !! stacks x;
  '(arrs, s) ← append1 (arrays st) (stack_entry m name) content;
  Some (set_sliceMaps (<[stacks x := <[name := s]> m]> (sliceMaps st))
          (set_arrays arrs st)).

Definition PrependStack (c : addr) (name content : string) (st : store) : option store :=
  x ← contexts st !! c;
  m ← sliceMaps st !! stacks x;
  '(arrs, s) ← prepend1 (arrays st) content (stack_entry m name);
  Some (set_sliceMaps (<[stacks x := <[name := s]> m]> (sliceMaps st))
          (set_arrays arrs st)).

Definition SetSection (c : addr) (name content : string) (st : store) : option store :=
  x ← contexts st !! c;
  m ← stringMaps st !! sections x;
  Some (set_stringMaps (<[sections x := <[name := content]> m]> (stringMaps st)) st).

(** [SetErrors] and [SetOld] store the caller's map itself. *)
Definition SetErrors (c : addr) (arg : option addr) (st : store) : option store :=
  x ← contexts st !! c;
  Some (set_contexts
          (<[c := MkFields (data x) (stacks x) (sections x) arg (old x)]> (contexts st)) st).

Definition SetOld (c : addr) (arg : option addr) (st : store) : option store :=
  x ← contexts st !! c;
  Some (set_contexts
          (<[c := MkFields (data x) (stacks x) (sections x) (errors x) arg]> (contexts st)) st).

(** The loop [for k, v := range m { out[k] = append([]string(nil), v...) }]
    of [Clone]; every pass allocates the copy of one slice.  Go visits
    the entries in an unspecified order, [map_fold] fixes one. *)
Definition copy_slices (arrs : gmap addr (list string)) (m : gmap string slice)
  : option (gmap addr (list string) * gmap string slice) :=
  map_fold
    (fun k v acc =>
       '(arrs, out) ← acc;
       '(arrs', v') ← copy_slice arrs v;
       Some (arrs', <[k := v']> out))
    (Some (arrs, ∅)) m.

(** A map field that may be nil ranges like the empty map. *)
Definition deref {A : Type} (heap : gmap addr (gmap string A)) (p : option addr)
  : option (gmap string A) :=
  match p with
  | None => Some ∅
  | Some a => heap !! a
  end.

(** [Clone]: a new context whose five tables receive the entries of
    the tables of [c]; the loops over [data], [sections] and [old] copy
    every entry into the new, empty map. *)
Definition Clone (c : addr) (st : store) : option (store * addr) :=
  x ← contexts st !! c;
  d ← ifaceMaps st !! data x;
  s ← sliceMaps st !! stacks x;
  sec ← stringMaps st !! sections x;
  e ← deref (sliceMaps st) (errors x);
  o ← deref (stringMaps st) (old x);
  let '(st1, c') := NewContext st in
  x' ← contexts st1 !! c';
  e' ← errors x';
  o' ← old x';
  '(arrs1, s1) ← copy_slices (arrays st1) s;
  '(arrs2, e1) ← copy_slices arrs1 e;
  Some (MkStore (<[data x' := d]> (ifaceMaps st1))
                (<[e' := e1]> (<[stacks x' := s1]> (sliceMaps st1)))
                (<[o' := o]> (<[sections x' := sec]> (stringMaps st1)))
                arrs2
                (contexts st1),
        c').

(** The calls that write to a context. *)
Inductive write : Type :=
| WSet (key : string) (value : V)
| WMerge (arg : option addr)
| WPushStack (name content : string)
| WPrependStack (name content : string)
| WSetSection (name content : string)
| WSetErrors (arg : option addr)
| WSetOld (arg : option addr).

Definition apply_write (c : addr) (w : write) (st : store) : option store :=
  match w with
  | WSet key value => Set_ c key value st
  | WMerge arg => Merge c arg st
  | WPushStack name content => PushStack c name content st
  | WPrependStack name content => PrependStack c name content st
  | WSetSection name content => SetSection c name content st
  | WSetErrors arg => SetErrors c arg st
  | WSetOld arg => SetOld c arg st
  end.

(** A sequence of writes to one context. *)
Fixpoint apply_writes (c : addr) (ws : list write) (st : store) : option store :=
  match ws with
  | [] => Some st
  | w :: ws' => st' ← apply_write c w st; apply_writes c ws' st'
  end.

(** The five tables of a context as the accessors show them: the
    entries of each map, a slice standing for its elements. *)
Record tables : Type := MkTables {
  t_data : gmap string V;
  t_stacks : gmap string (list string);
  t_sections : gmap string string;
  t_errors : gmap string (list string);
  t_old : gmap string string
}.

(** The elements of every slice of a map; [None] when a slice is
    dangling. *)
Definition read_all (arrs : gmap addr (list string)) (m : gmap string slice)
  : option (gmap string (list string)) :=
  if decide (map_Forall (fun _ s => is_Some (read arrs s)) m)
  then Some (omap (read arrs) m)
  else None.

Definition view (c : addr) (st : store) : option tables :=
  x ← contexts st !! c;
  d ← ifaceMaps st !! data x;
  s ← sliceMaps st !! stacks x;
  sec ← stringMaps st !! sections x;
  e ← deref (sliceMaps st) (errors x);
  o ← deref (stringMaps st) (old x);
  s' ← read_all (arrays st) s;
  e' ← read_all (arrays st) e;
  Some (MkTables d s' sec e' o).

(** *** Sharing between two contexts

    [refs m b]: some slice of the map [m] has the backing array [b]. *)
Definition refs (m : gmap string slice) (b : addr) : Prop :=
  exists k s, m !! k = Some s /\ base s = Some b.

(** The backing arrays that the tables of a context with fields [f]
    show: those of its [stacks] map and of its [errors] map. *)
Definition observed (st : store) (f : fields) (b : addr) : Prop :=
  (exists m, sliceMaps st !! stacks f = Some m /\ refs m b)
  \/ (exists a m, errors f = Some a /\ sliceMaps st !! a = Some m /\ refs m b).

(** [extends arrs arrs']: every array of [arrs] is in [arrs'], with
    the same cells. *)
Definition extends (arrs arrs' : gmap addr (list string)) : Prop :=
  forall b, b ∈ dom arrs -> arrs' !! b = arrs !! b.

(** The copy of a slice map made by [Clone]: every slice is copied
    into an array that did not exist before, with the same elements. *)
Definition copied (arrs0 arrs' : gmap addr (list string))
    (m out : gmap string slice) : Prop :=
  extends arrs0 arrs'
  /\ (forall k, out !! k = None <-> m !! k = None)
  /\ (forall k s', out !! k = Some s' ->
        exists s, m !! k = Some s
                  /\ read arrs' s' = read arrs0 s
                  /\ forall b, base s' = Some b ->
                               (b ∉ dom arrs0) /\ (b ∈ dom arrs')).

(** [separate st x y]: no write through the context [x] can reach what
    the tables of the context [y] show.  The maps that [x] writes to
    are not maps that [y] reads, and the arrays under the stacks of
    [x] are not arrays that [y] shows. *)
Definition separate (st : store) (x y : addr) : Prop :=
  exists fx fy,
    x <> y
    /\ contexts st !! x = Some fx
    /\ contexts st !! y = Some fy
    /\ data fx <> data fy
    /\ stacks fx <> stacks fy
    /\ errors fy <> Some (stacks fx)
    /\ sections fx <> sections fy
    /\ old fy <> Some (sections fx)
    /\ (forall mx b, sliceMaps st !! stacks fx = Some mx -> refs mx b ->
          ~ observed st fy b)
    /\ (forall b, observed st fy b -> b ∈ dom (arrays st)).

(** *** The methods that read

    The outer [None] is a run-time panic (a dangling reference), as for
    the writers. *)

(** [Get]: the value under [key], Go's nil ([None]) for an absent
    key. *)
Definition Get (c : addr) (key : string) (st : store) : option (option V) :=
  x ← contexts st !! c;
  m ← ifaceMaps st !! data x;
  Some (m !! key).

Definition Has (c : addr) (key : string) (st : store) : option bool :=
  x ← contexts st !! c;
  m ← ifaceMaps st !! data x;
  Some (bool_decide (is_Some (m !! key))).

(** [GetStack] returns the slice itself, not a copy. *)
Definition GetStack (c : addr) (name : string) (st : store) : option slice :=
  x ← contexts st !! c;
  m ← sliceMaps st !! stacks x;
  Some (stack_entry m name).

(** The elements of the slice that [GetStack] returns. *)
Definition stack_content (c : addr) (name : string) (st : store) : option (list string) :=
  s ← GetStack c name st; read (arrays st) s.

(** [GetSection]: the empty string for an absent section. *)
Definition GetSection (c : addr) (name : string) (st : store) : option string :=
  x ← contexts st !! c;
  m ← stringMaps st !! sections x;
  Some (default EmptyString (m !! name)).

Definition HasSection (c : addr) (name : string) (st : store) : option bool :=
  x ← contexts st !! c;
  m ← stringMaps st !! sections x;
  Some (bool_decide (is_Some (m !! name))).

(** [HasError] and [GetError]; reading a nil map finds nothing. *)
Definition HasError (c : addr) (field : string) (st : store) : option bool :=
  x ← contexts st !! c;
  m ← deref (sliceMaps st) (errors x);
  Some (match m !! field with
        | Some s => (0 <? len s)%nat
        | None => false
        end).

Definition GetError (c : addr) (field : string) (st : store) : option string :=
  x ← contexts st !! c;
  m ← deref (sliceMaps st) (errors x);
  match m !! field with
  | Some s =>
      if (0 <? len s)%nat then xs ← read (arrays st) s; head xs
      else Some EmptyString
  | None => Some EmptyString
  end.

Definition GetOld (c : addr) (field : string) (st : store) : option string :=
  x ← contexts st !! c;
  m ← deref (stringMaps st) (old x);
  Some (default EmptyString (m !! field)).

(** [Data]: a new map with the entries of the data table. *)
Definition Data (c : addr) (st : store) : option (store * addr) :=
  x ← contexts st !! c;
  m ← ifaceMaps st !! data x;
  let a := fresh (dom (ifaceMaps st)) in
  Some (set_ifaceMaps (<[a := m]> (ifaceMaps st)) st, a).

(** *** The tables as plain maps and lists

    What a sequence of writes to a new context adds up to, entry by
    entry: the data table after [Set] and [Merge] ([maps] holds the
    maps of the callers that [Merge] receives), one stack after
    [PushStack] and [PrependStack], the sections after [SetSection]. *)
Fixpoint data_after (maps : gmap addr (gmap string V)) (acc : gmap string V)
    (ws : list write) : gmap string V :=
  match ws with
  | [] => acc
  | WSet key value :: ws' => data_after maps (<[key := value]> acc) ws'
  | WMerge (Some a) :: ws' => data_after maps (default ∅ (maps !! a) ∪ acc) ws'
  | _ :: ws' => data_after maps acc ws'
  end.

Fixpoint stack_after (name : string) (acc : list string) (ws : list write)
    : list string :=
  match ws with
  | [] => acc
  | WPushStack n content :: ws' =>
      stack_after name (if String.eqb n name then acc ++ [content] else acc) ws'
  | WPrependStack n content :: ws' =>
      stack_after name (if String.eqb n name then content :: acc else acc) ws'
  | _ :: ws' => stack_after name acc ws'
  end.

Fixpoint sections_after (acc : gmap string string) (ws : list write)
    : gmap string string :=
  match ws with
  | [] => acc
  | WSetSection name content :: ws' => sections_after (<[name := content]> acc) ws'
  | _ :: ws' => sections_after acc ws'
  end.

(** The [Merge] calls of [ws] pass nil or a map of the store. *)
Definition merges_live (maps : gmap addr (gmap string V)) (ws : list write) : Prop :=
  forall a, In (WMerge (Some a)) ws -> is_Some (maps !! a).

(** A slice value of the runtime: nil, or a window on a live array
    whose capacity does not exceed the array. *)
Definition wf_slice (arrs : gmap addr (list string)) (s : slice) : Prop :=
  match base s with
  | None => len s = 0%nat /\ cap s = 0%nat
  | Some b =>
      exists arr, arrs !! b = Some arr
                  /\ (len s <= cap s)%nat /\ (cap s <= length arr)%nat
  end.

(** [tracks maps c st d stk sec]: the context [c] of the store [st]
    holds the data [d], the stacks [stk] and the sections [sec]; its
    stacks are slices on arrays of their own, and the maps [maps] of
    the callers are in the store, apart from the data table. *)
Definition tracks (maps : gmap addr (gmap string V)) (c : addr) (st : store)
    (d : gmap string V) (stk : string -> list string) (sec : gmap string string)
    : Prop :=
  exists x m,
    contexts st !! c = Some x
    /\ ifaceMaps st !! data x = Some d
    /\ sliceMaps st !! stacks x = Some m
    /\ stringMaps st !! sections x = Some sec
    /\ (forall a, a ∈ dom maps -> a <> data x /\ ifaceMaps st !! a = maps !! a)
    /\ (forall n, wf_slice (arrays st) (stack_entry m n)
                  /\ read (arrays st) (stack_entry m n) = Some (stk n))
    /\ (forall n1 n2 b, base (stack_entry m n1) = Some b ->
                        base (stack_entry m n2) = Some b -> n1 = n2).

End WithValue.

Arguments ifaceMaps {V} _.
Arguments sliceMaps {V} _.
Arguments stringMaps {V} _.
Arguments arrays {V} _.
Arguments contexts {V} _.
Arguments observed {V} _ _ _.
Arguments separate {V} _ _ _.
Arguments view {V} _ _.
Arguments NewContext {V} _.
Arguments Set_ {V} _ _ _ _.
Arguments Merge {V} _ _ _.
Arguments PushStack {V} _ _ _ _ _.
Arguments PrependStack {V} _ _ _ _ _.
Arguments SetSection {V} _ _ _ _.
Arguments SetErrors {V} _ _ _.
Arguments SetOld {V} _ _ _.
Arguments Clone {V} _ _ _.
Arguments apply_write {V} _ _ _ _.
Arguments apply_writes {V} _ _ _ _.
Arguments WSet {V} _ _.
Arguments WMerge {V} _.
Arguments WPushStack {V} _ _.
Arguments WPrependStack {V} _ _.
Arguments WSetSection {V} _ _.
Arguments WSetErrors {V} _.
Arguments WSetOld {V} _.
Arguments t_data {V} _.
Arguments t_stacks {V} _.
Arguments t_sections {V} _.
Arguments t_errors {V} _.
Arguments t_old {V} _.
Arguments Get {V} _ _ _.
Arguments Has {V} _ _ _.
Arguments GetStack {V} _ _ _.
Arguments stack_content {V} _ _ _.
Arguments GetSection {V} _ _ _.
Arguments HasSection {V} _ _ _.
Arguments HasError {V} _ _ _.
Arguments GetError {V} _ _ _.
Arguments GetOld {V} _ _ _.
Arguments Data {V} _ _.
Arguments data_after {V} _ _ _.
Arguments stack_after {V} _ _ _.
Arguments sections_after {V} _ _.
Arguments merges_live {V} _ _.
Arguments tracks {V} _ _ _ _ _ _.

(** A small store to run the model on: one context with a data entry,
    a stack and a section, for values that are numbers and a runtime
    that doubles the needed capacity. *)
Definition example_growcap (oldcap need : nat) : nat := 2 * need.

Definition example_ctx : positive := (NewContext (MkStore nat ∅ ∅ ∅ ∅ ∅)).2.

Definition example_store : store nat :=
  default (MkStore nat ∅ ∅ ∅ ∅ ∅)
    (apply_writes example_growcap example_ctx
       [WSet "k" 1%nat; WPushStack "s" "A"; WSetSection "t" "x"]
       (NewContext (MkStore nat ∅ ∅ ∅ ∅ ∅)).1).

Definition example_tables : tables nat :=
  MkTables nat {["k" := 1%nat]} {["s" := ["A"]]} {["t" := "x"]} ∅ ∅.

Definition example_writes : list (write nat) :=
  [WPushStack "s" "B"; WPushStack "s" "C"; WSet "k" 2%nat; WSetErrors None].

End Context.

(** ** The template language of the compiled text

    The engine hands the compiled text to Go's [html/template], which
    parses it with the parser of [text/template] and, once it has put
    the escaping into the pipelines, runs it with the interpreter of
    [text/template].  The part of that language in which the compiler
    writes its loops is set down here from the documentation of the
    library: text, pipeline actions,
    [if] with [else] and [else if], [range] with [else], [break],
    [continue] and [end].  A pipeline is kept as the text it is
    written in: whether the library accepts it and what it evaluates
    to is left to a machine.  A text that uses another construct
    ([with], [block], [define], [template], a comment, a trim marker)
    has no tree here. *)

Module Template.

(** *** Items: text and actions

    Text runs up to the next left delimiter; an action runs up to the
    first right delimiter that is not inside a quoted string, a
    character constant or a raw string.  A quoted string or character
    constant may not hold a newline; a backslash takes the next
    character with it. *)
Inductive item : Type :=
| IText (s : string)
| IAction (body : string).

Inductive mode : Type :=
| InText                (* outside the delimiters *)
| InAction              (* between the delimiters *)
| InQuote (q : ascii)    (* in a constant that [q] closes *)
| InEscape (q : ascii)   (* behind a backslash in such a constant *)
| InRaw.                (* in a raw string *)

Definition text_item (t : string) : list item :=
  match t with
  | EmptyString => []
  | _ => [IText t]
  end.

Definition quote_mode (c : ascii) : mode :=
  if Ascii.eqb c "034" then InQuote "034"
  else if Ascii.eqb c "'" then InQuote "'"
  else if Ascii.eqb c "096" then InRaw
  else InAction.

(** [scan m s]: the rest of the piece (text or action body) that [s]
    starts in, and the items behind it. *)
Fixpoint scan (m : mode) (s : string) : option (string * list item) :=
  match s with
  | EmptyString =>
      match m with
      | InText => Some (EmptyString, [])
      | _ => None
      end
  | String c r =>
      match m with
      | InText =>
          let go_on := '(t, items) ← scan InText r; Some (String c t, items) in
          match r with
          | String c' r' =>
              if Ascii.eqb c "{" && Ascii.eqb c' "{" then
                '(body, items) ← scan InAction r';
                Some (EmptyString, IAction body :: items)
              else go_on
          | EmptyString => go_on
          end
      | InAction =>
          let go_on := '(b, items) ← scan (quote_mode c) r; Some (String c b, items) in
          match r with
          | String c' r' =>
              if Ascii.eqb c "}" && Ascii.eqb c' "}" then
                '(t, items) ← scan InText r';
                Some (EmptyString, text_item t ++ items)
              else go_on
          | EmptyString => go_on
          end
      | InQuote q =>
          if Ascii.eqb c "010" then None
          else
            let m' := if Ascii.eqb c "\" then InEscape q
                      else if Ascii.eqb c q then InAction else InQuote q in
            '(b, items) ← scan m' r; Some (String c b, items)
      | InEscape q =>
          if Ascii.eqb c "010" then None
          else '(b, items) ← scan (InQuote q) r; Some (String c b, items)
      | InRaw =>
          let m' := if Ascii.eqb c "096" then InAction else InRaw in
          '(b, items) ← scan m' r; Some (String c b, items)
      end
  end.

Definition items_of (text : string) : option (list item) :=
  '(t, items) ← scan InText text; Some (text_item t ++ items).

(** A pipeline text without a quote and without a closing brace: it
    opens no constant and cannot close its action. *)
Definition plain_char (c : ascii) : bool :=
  negb (Ascii.eqb c "}" || Ascii.eqb c "034" || Ascii.eqb c "'" || Ascii.eqb c "096").

Fixpoint plain (s : string) : bool :=
  match s with
  | String c r => plain_char c && plain r
  | EmptyString => true
  end.

(** *** The word that opens an action *)
Inductive word : Type :=
| WEnd
| WElse
| WElseIf (pipe : string)
| WIf (pipe : string)
| WRange (pipe : string)
| WBreak
| WContinue
| WPipe (body : string).

(** The space characters of the library: blank, tab, carriage return
    and newline. *)
Definition is_space (c : ascii) : bool :=
  Ascii.eqb c " " || Ascii.eqb c "009" || Ascii.eqb c "013" || Ascii.eqb c "010".

(** The characters of an identifier: the underscore, letters and
    digits; every byte of a character outside ASCII counts as a
    letter. *)
Definition is_alnum (c : ascii) : bool :=
  Regexp.ident_char c || (128 <=? nat_of_ascii c)%nat.

Fixpoint skip_spaces (s : string) : string :=
  match s with
  | String c r => if is_space c then skip_spaces r else s
  | EmptyString => EmptyString
  end.

Fixpoint blank (s : string) : bool :=
  match s with
  | String c r => is_space c && blank r
  | EmptyString => true
  end.

(** The longest run of identifier characters that opens [s], and
    what follows it. *)
Fixpoint span_word (s : string) : string * string :=
  match s with
  | String c r =>
      if is_alnum c then let '(w, rest) := span_word r in (String c w, rest)
      else (EmptyString, s)
  | EmptyString => (EmptyString, EmptyString)
  end.

(** The trim markers: a minus sign and a space behind the left
    delimiter, a space and a minus sign before the right one. *)
Definition left_trim (body : string) : bool :=
  match body with
  | String c (String c' _) => Ascii.eqb c "-" && is_space c'
  | _ => false
  end.

Fixpoint right_trim (body : string) : bool :=
  match body with
  | String c r =>
      match r with
      | String c' EmptyString => is_space c && Ascii.eqb c' "-"
      | _ => right_trim r
      end
  | EmptyString => false
  end.

Definition unmodelled_words : list string := ["with"; "block"; "define"; "template"].

Definition classify (body : string) : option word :=
  if left_trim body || right_trim body || Str.HasPrefix body "/*" then None
  else
    let '(w, rest) := span_word (skip_spaces body) in
    if String.eqb w "end" then (if blank rest then Some WEnd else None)
    else if String.eqb w "else" then
      if blank rest then Some WElse
      else
        let '(w2, rest2) := span_word (skip_spaces rest) in
        if String.eqb w2 "if" && negb (blank rest2) then Some (WElseIf rest2) else None
    else if String.eqb w "if" then (if blank rest then None else Some (WIf rest))
    else if String.eqb w "range" then (if blank rest then None else Some (WRange rest))
    else if String.eqb w "break" then (if blank rest then Some WBreak else None)
    else if String.eqb w "continue" then (if blank rest then Some WContinue else None)
    else if existsb (String.eqb w) unmodelled_words then None
    else if blank body then None
    else Some (WPipe body).

(** *** Trees *)
Inductive node : Type :=
| Text (s : string)
| Action (pipe : string)
| If (pipe : string) (body els : list node)
| Range (pipe : string) (body els : list node)
| Break
| Continue.

(** A block that is still open: its kind and pipeline, the nodes of
    its list so far, the nodes of its [else] list once [else] was
    read, and whether it was opened by [else if], in which case the
    [end] that closes it closes the enclosing [if] as well. *)
Inductive kind : Type := KIf | KRange.

Record frame : Type := Frame {
  f_kind : kind;
  f_pipe : string;
  f_body : list node;
  f_else : option (list node);
  f_chained : bool
}.

(** The open blocks, innermost first, and the nodes of the top level. *)
Definition stack : Type := list frame * list node.

Definition add_to (f : frame) (n : node) : frame :=
  match f_else f with
  | None => Frame (f_kind f) (f_pipe f) (f_body f ++ [n]) None (f_chained f)
  | Some l => Frame (f_kind f) (f_pipe f) (f_body f) (Some (l ++ [n])) (f_chained f)
  end.

Definition add (n : node) (st : stack) : stack :=
  match st with
  | ([], root) => ([], root ++ [n])
  | (f :: fs, root) => (add_to f n :: fs, root)
  end.

Definition close (f : frame) : node :=
  match f_kind f with
  | KIf => If (f_pipe f) (f_body f) (default [] (f_else f))
  | KRange => Range (f_pipe f) (f_body f) (default [] (f_else f))
  end.

(** The node [n] of a block just closed goes to the enclosing list;
    when the block was opened by [else if], the enclosing [if] is
    closed with it. *)
Fixpoint close_chain (n : node) (chained : bool) (fs : list frame) (root : list node)
    : option stack :=
  if chained then
    match fs with
    | g :: fs' => close_chain (close (add_to g n)) (f_chained g) fs' root
    | [] => None
    end
  else Some (add n (fs, root)).

Definition end_block (st : stack) : option stack :=
  match st with
  | (f :: fs, root) => close_chain (close f) (f_chained f) fs root
  | ([], _) => None
  end.

(** [break] and [continue] are accepted inside the list of a [range]
    (not inside its [else] list). *)
Definition in_range (fs : list frame) : bool :=
  existsb (fun f => match f_kind f, f_else f with
                    | KRange, None => true
                    | _, _ => false
                    end) fs.

Definition step (st : stack) (it : item) : option stack :=
  match it with
  | IText t => Some (add (Text t) st)
  | IAction body =>
      w ← classify body;
      match w with
      | WPipe p => Some (add (Action p) st)
      | WIf p => Some (Frame KIf p [] None false :: st.1, st.2)
      | WRange p => Some (Frame KRange p [] None false :: st.1, st.2)
      | WElse =>
          match st.1 with
          | f :: fs =>
              match f_else f with
              | None =>
                  Some (Frame (f_kind f) (f_pipe f) (f_body f) (Some []) (f_chained f) :: fs,
                        st.2)
              | Some _ => None
              end
          | [] => None
          end
      | WElseIf p =>
          match st.1 with
          | f :: fs =>
              match f_kind f, f_else f with
              | KIf, None =>
                  Some (Frame KIf p [] None true
                        :: Frame KIf (f_pipe f) (f_body f) (Some []) (f_chained f) :: fs,
                        st.2)
              | _, _ => None
              end
          | [] => None
          end
      | WEnd => end_block st
      | WBreak => if in_range st.1 then Some (add Break st) else None
      | WContinue => if in_range st.1 then Some (add Continue st) else None
      end
  end.

(** [grafted] relates the stacks of two runs over the same items:
    one that began in an empty range under an empty top level, and
    one that began in a range over [pipe] holding [pre] under the top
    level [top]. *)
Inductive grafted (pipe : string) (pre top : list node) : stack -> stack -> Prop :=
| grafted_open (up : list frame) (pa : string) (ba : list node)
    (ea : option (list node)) :
    grafted pipe pre top
      (up ++ [Frame KRange pa ba ea false], [])
      (up ++ [Frame KRange pipe (pre ++ ba) ea false], top)
| grafted_closed (fs : list frame) (pa : string) (ba ea more : list node) :
    grafted pipe pre top
      (fs, Range pa ba ea :: more)
      (fs, top ++ Range pipe (pre ++ ba) ea :: more).

Fixpoint steps (items : list item) (st : stack) : option stack :=
  match items with
  | [] => Some st
  | it :: items' => st' ← step st it; steps items' st'
  end.

(** The tree of a template text; every block has to be closed. *)
Definition parse (text : string) : option (list node) :=
  items ← items_of text;
  st ← steps items ([], []);
  match st with
  | ([], root) => Some root
  | _ => None
  end.

(** *** Execution

    What the pipelines do is given by a machine over states of some
    type: [text] writes a text node; [action] evaluates the pipeline
    of an action (a value is printed, a variable is set), [test] the
    pipeline of an [if], giving the truth of its value, [elements] the
    pipeline of a [range], giving the elements in the order of the
    passes; each of them may fail.  [pass] starts a pass: it sets the
    variables of the range and the dot to the index and element.
    [restore] ends a block or a pass: the variables and the dot of the
    first state are put back into the second. *)
Record machine (St V : Type) : Type := Machine {
  text : string -> St -> St;
  action : string -> St -> option St;
  test : string -> St -> option (bool * St);
  elements : string -> St -> option (list V * St);
  pass : string -> nat -> V -> St -> St;
  restore : St -> St -> St
}.
Arguments Machine {St V}.
Arguments text {St V}.
Arguments action {St V}.
Arguments test {St V}.
Arguments elements {St V}.
Arguments pass {St V}.
Arguments restore {St V}.

(** How the execution of a list went on: to its end, into a [break]
    or a [continue], or into an error. *)
Inductive flow : Type := Normal | Breaking | Continuing | Failing.

Section Exec.

Context {St V : Type} (m : machine St V).

(** The passes of a range over [vs], the first of them with index
    [i]; [mark] is the state behind the pipeline of the range.  A
    [break] ends the range, a [continue] the pass. *)
Fixpoint passes (run : St -> St * flow) (pipe : string) (mark : St)
    (i : nat) (vs : list V) (s : St) : St * flow :=
  match vs with
  | [] => (s, Normal)
  | v :: vs' =>
      let '(s1, f) := run (pass m pipe i v s) in
      let s2 := restore m mark s1 in
      match f with
      | Normal | Continuing => passes run pipe mark (S i) vs' s2
      | Breaking => (s2, Normal)
      | Failing => (s2, Failing)
      end
  end.

Fixpoint exec (n : node) (s : St) : St * flow :=
  let exec_list :=
    fix go (l : list node) (s : St) : St * flow :=
      match l with
      | [] => (s, Normal)
      | x :: l' =>
          let '(s1, f) := exec x s in
          match f with
          | Normal => go l' s1
          | _ => (s1, f)
          end
      end in
  match n with
  | Text t => (text m t s, Normal)
  | Action p =>
      match action m p s with
      | Some s1 => (s1, Normal)
      | None => (s, Failing)
      end
  | If p body els =>
      match test m p s with
      | Some (b, s1) =>
          let '(s2, f) := exec_list (if b then body else els) s1 in
          (restore m s s2, f)
      | None => (s, Failing)
      end
  | Range p body els =>
      match elements m p s with
      | Some (vs, s1) =>
          let '(s2, f) :=
            match vs with
            | [] => exec_list els s1
            | _ => passes (exec_list body) p s1 O vs s1
            end in
          (restore m s s2, f)
      | None => (s, Failing)
      end
  | Break => (s, Breaking)
  | Continue => (s, Continuing)
  end.

Fixpoint exec_list (l : list node) (s : St) : St * flow :=
  match l with
  | [] => (s, Normal)
  | x :: l' =>
      let '(s1, f) := exec x s in
      match f with
      | Normal => exec_list l' s1
      | _ => (s1, f)
      end
  end.

(** The loop of the specification: a bounded counting loop, one pass
    for each counter of [vs] in turn, that checks the condition at the
    start of each pass and is over as soon as the condition is false
    (or cannot be evaluated); otherwise the pass runs the body, and a
    body that breaks or fails ends the loop as well.  [finish] ends a
    pass.  The number is that of the passes that ran the body. *)
Fixpoint checked_loop (check : nat -> V -> St -> St * option bool)
    (body : St -> St * flow) (finish : St -> St)
    (i : nat) (vs : list V) (s : St) : St * flow * nat :=
  match vs with
  | [] => (s, Normal, O)
  | v :: vs' =>
      match check i v s with
      | (s1, None) => (finish s1, Failing, O)
      | (s1, Some false) => (finish s1, Normal, O)
      | (s1, Some true) =>
          let '(s2, f) := body s1 in
          match f with
          | Normal | Continuing =>
              let '(s3, f', k) := checked_loop check body finish (S i) vs' (finish s2) in
              (s3, f', S k)
          | Breaking => (finish s2, Normal, 1%nat)
          | Failing => (finish s2, Failing, 1%nat)
          end
      end
  end.

(** The check of the loop whose passes start with the guard
    [{{ if GUARD }}{{ break }}{{ end }}]: the pass is entered, the guard
    is evaluated and its block is left; the condition holds when the
    guard is false. *)
Definition guard_check (pipe guard : string) (i : nat) (v : V) (s : St)
    : St * option bool :=
  let sb := pass m pipe i v s in
  match test m guard sb with
  | Some (b, s') => (restore m sb s', Some (negb b))
  | None => (sb, None)
  end.

End Exec.

(** Running a template text from a state. *)
Definition run {St V : Type} (m : machine St V) (template : string) (s : St)
    : option (St * flow) :=
  tree ← parse template; Some (exec_list m tree s).

(** *** A machine for constant conditions

    A machine that keeps the list of the text nodes written.  It
    knows the pipelines that set a variable (nothing is written), the
    conditions [true], [false], [not true] and [not false], and the
    ranges over [until N], with or without a variable. *)
Fixpoint words_from (cur : string) (s : string) : list string :=
  let flush := match cur with EmptyString => [] | _ => [cur] end in
  match s with
  | EmptyString => flush
  | String c r =>
      if is_space c then flush ++ words_from EmptyString r
      else words_from (cur +:+ String c EmptyString) r
  end.

Definition words (s : string) : list string := words_from EmptyString s.

Definition decimal (s : string) : option Z :=
  Z.of_int <$> DecimalString.NilEmpty.int_of_string s.

Definition writer : machine (list string) Z :=
  Machine
    (fun t s => s ++ [t])
    (fun p s =>
       match words p with
       | v :: ":=" :: _ :: _ => if Str.HasPrefix v "$" then Some s else None
       | _ => None
       end)
    (fun p s =>
       match words p with
       | ["true"] | ["not"; "false"] => Some (true, s)
       | ["false"] | ["not"; "true"] => Some (false, s)
       | _ => None
       end)
    (fun p s =>
       match words p with
       | ["until"; n] | [_; ":="; "until"; n] =>
           z ← decimal n; xs ← Engine.until z; Some (xs, s)
       | _ => None
       end)
    (fun _ _ _ s => s)
    (fun _ s => s).

End Template.

(** ** Facts about loop records *)

Lemma wrap_id z : GoInt.in_int z -> GoInt.wrap z = z.
Proof.
  unfold GoInt.in_int, GoInt.wrap, GoInt.min_int, GoInt.max_int. intros H.
  rewrite Z.mod_small; lia.
Qed.

Lemma alloc_fresh (h : Loop.heap) r :
  h !! (Loop.alloc h r).2 = None.
Proof.
  unfold Loop.alloc. simpl. apply (not_elem_of_dom (D := gset positive)).
  apply is_fresh.
Qed.

Lemma alloc_lookup_new (h : Loop.heap) r :
  (Loop.alloc h r).1 !! (Loop.alloc h r).2 = Some r.
Proof. unfold Loop.alloc. simpl. apply lookup_insert_eq. Qed.

Lemma alloc_lookup_old (h : Loop.heap) r a x :
  h !! a = Some x -> (Loop.alloc h r).1 !! a = Some x.
Proof.
  intros Ha. unfold Loop.alloc. simpl. rewrite lookup_insert_ne; [done|].
  intros Heq. pose proof (alloc_fresh h r) as Hf. unfold Loop.alloc in Hf.
  simpl in Hf. congruence.
Qed.

(** C3. For every loop record [l] and index [i >= 0], [l.Update(i)]
    returns a new record whose Iteration is [i+1] (Go addition), whose
    Remaining is [-1] when the count is negative and [Count - i - 1]
    otherwise, Last is [Count >= 0 && i == Count-1], First is [i == 0],
    Even is [(i+1) mod 2 == 0], Odd is the negation of Even, and whose
    Count, Depth and Parent are those of [l]; the record [l] itself is
    left as it was in the store. *)
Theorem Update_derives_new_record (h : Loop.heap) (a : positive) (l : Loop.t) (i : Z) :
  h !! a = Some l ->
  0 <= i <= GoInt.max_int ->
  GoInt.in_int (Loop.Count l) ->
  exists h' a' l',
    Loop.Update h a i = Some (h', a') /\
    h' !! a' = Some l' /\
    a' <> a /\
    h' !! a = Some l /\
    (forall b x, h !! b = Some x -> h' !! b = Some x) /\
    Loop.Index l' = i /\
    Loop.Iteration l' = GoInt.add i 1 /\
    (i < GoInt.max_int -> Loop.Iteration l' = i + 1) /\
    Loop.Remaining l' = (if Loop.Count l <? 0 then -1 else Loop.Count l - i - 1) /\
    Loop.Last l' = (0 <=? Loop.Count l) && (i =? Loop.Count l - 1) /\
    Loop.First l' = (i =? 0) /\
    Loop.Even l' = ((i + 1) mod 2 =? 0) /\
    Loop.Odd l' = negb (Loop.Even l') /\
    Loop.Count l' = Loop.Count l /\
    Loop.Depth l' = Loop.Depth l /\
    Loop.Parent l' = Loop.Parent l.
Proof.
  intros Ha Hi Hc.
  exists (Loop.alloc h (Loop.Update_rec l i)).1,
         (Loop.alloc h (Loop.Update_rec l i)).2, (Loop.Update_rec l i).
  assert (Hlt : i < GoInt.max_int -> GoInt.add i 1 = i + 1).
  { intros Hlt. unfold GoInt.add. apply wrap_id.
    unfold GoInt.in_int, GoInt.min_int, GoInt.max_int in *. lia. }
  assert (Hpar : GoInt.rem (GoInt.add i 1) 2 = (i + 1) mod 2).
  { unfold GoInt.rem. destruct (Z.eq_dec i GoInt.max_int) as [->|Hne].
    - reflexivity.
    - rewrite Hlt by lia. apply Z.rem_mod_nonneg; lia. }
  repeat split.
  - unfold Loop.Update. rewrite Ha. reflexivity.
  - apply alloc_lookup_new.
  - intros Heq. pose proof (alloc_fresh h (Loop.Update_rec l i)) as Hf.
    rewrite Heq in Hf. congruence.
  - by apply alloc_lookup_old.
  - intros b x Hb. by apply alloc_lookup_old.
  - exact Hlt.
  - unfold Loop.Update_rec. simpl.
    unfold GoInt.in_int, GoInt.min_int, GoInt.max_int in *.
    destruct (Z.leb_spec 0 (Loop.Count l)), (Z.ltb_spec (Loop.Count l) 0);
      simpl; try lia.
    unfold GoInt.sub. rewrite (wrap_id (Loop.Count l - i)).
    + apply wrap_id. unfold GoInt.in_int, GoInt.min_int, GoInt.max_int. lia.
    + unfold GoInt.in_int, GoInt.min_int, GoInt.max_int. lia.
  - unfold Loop.Update_rec. simpl.
    unfold GoInt.in_int, GoInt.min_int, GoInt.max_int in *.
    destruct (Z.leb_spec 0 (Loop.Count l)); simpl; [|done].
    unfold GoInt.sub. rewrite wrap_id; [done|].
    unfold GoInt.in_int, GoInt.min_int, GoInt.max_int. lia.
  - unfold Loop.Update_rec. simpl. by rewrite Hpar.
  - unfold Loop.Update_rec. simpl. rewrite Hpar.
    assert (0 <= (i + 1) mod 2 < 2) by (apply Z.mod_pos_bound; lia).
    destruct (Z.eqb_spec ((i + 1) mod 2) 0), (Z.eqb_spec ((i + 1) mod 2) 1);
      simpl; try done; lia.
Qed.

Lemma Update_derives_new_record_witness :
  exists h' a' l',
    Loop.Update (Loop.NewLoop ∅ 3 1).1 (Loop.NewLoop ∅ 3 1).2 2 = Some (h', a') /\
    h' !! a' = Some l' /\
    Loop.Iteration l' = 3 /\ Loop.Remaining l' = 0 /\ Loop.Last l' = true.
Proof.
  destruct (Update_derives_new_record (Loop.NewLoop ∅ 3 1).1 (Loop.NewLoop ∅ 3 1).2
              (Loop.NewLoop_rec 3 1) 2) as (h' & a' & l' & H1 & H2 & _ & _ & _ & _ & _ & H3 & H4 & H5 & _).
  - apply alloc_lookup_new.
  - unfold GoInt.max_int. lia.
  - unfold GoInt.in_int, GoInt.min_int, GoInt.max_int. simpl. lia.
  - exists h', a', l'. split; [exact H1|]. split; [exact H2|].
    split; [apply H3; unfold GoInt.max_int; lia|].
    split; [rewrite H4; reflexivity|rewrite H5; reflexivity].
Defined.

(** ** Facts about strings *)

Lemma len_drop n s : Str.len (Str.drop n s) = (Str.len s - n)%nat.
Proof.
  revert s. induction n as [|n IH]; intros s; simpl.
  - unfold Str.len. lia.
  - destruct s as [|c s]; simpl; [done|]. apply IH.
Qed.

Lemma drop_drop n m s : Str.drop n (Str.drop m s) = Str.drop (m + n) s.
Proof.
  revert s. induction m as [|m IH]; intros s; simpl; [done|].
  destruct s as [|c s]; simpl; [destruct n; reflexivity|]. apply IH.
Qed.

Lemma drop_S_at n s :
  (n < Str.len s)%nat ->
  Str.drop n s = String (Str.at_ n s) (Str.drop (S n) s).
Proof.
  revert s. induction n as [|n IH]; intros s Hn.
  - destruct s; simpl in *; [unfold Str.len in Hn; simpl in Hn; lia|done].
  - destruct s as [|c s]; simpl in *; [unfold Str.len in Hn; simpl in Hn; lia|].
    unfold Str.at_. simpl. fold (Str.at_ n s). apply IH.
    unfold Str.len in *. simpl in Hn. lia.
Qed.

Lemma take_eqb_prefix s p :
  (if (Str.len s <? Str.len p)%nat then false
   else String.eqb (Str.take (Str.len p) s) p) = Str.HasPrefix s p.
Proof.
  revert s. induction p as [|a p IH]; intros s; simpl.
  - by destruct s.
  - destruct s as [|b s]; simpl; [done|].
    specialize (IH s). unfold Str.len in *. simpl.
    rewrite (Ascii.eqb_sym b a).
    destruct (Ascii.eqb a b); [|by destruct (_ <? _)%nat].
    exact IH.
Qed.

Lemma app_assoc_s (a b c : string) : (a +:+ b) +:+ c = a +:+ (b +:+ c).
Proof.
  induction a as [|x a IH]; [done|].
  change (String x ((a +:+ b) +:+ c) = String x (a +:+ (b +:+ c))).
  by rewrite IH.
Qed.

Lemma app_nil_r_s (a : string) : a +:+ EmptyString = a.
Proof.
  induction a as [|x a IH]; [done|].
  change (String x (a +:+ EmptyString) = String x a). by rewrite IH.
Qed.

Lemma len_app (a b : string) : Str.len (a +:+ b) = (Str.len a + Str.len b)%nat.
Proof.
  unfold Str.len. induction a as [|x a IH]; [done|].
  change (S (String.length (a +:+ b)) = S (String.length a + String.length b)).
  by rewrite IH.
Qed.

Lemma Index_cons c s sub :
  Str.Index (String c s) sub =
    if Str.HasPrefix (String c s) sub then Some O else S <$> Str.Index s sub.
Proof. reflexivity. Qed.

(** ** Facts about the lexer *)

Lemma advance_input l : Lexer.input (Lexer.advance l) = Lexer.input l.
Proof.
  unfold Lexer.advance. destruct (_ <? _)%nat; [|done].
  by destruct (Ascii.eqb _ _).
Qed.

Lemma advance_inVerbatim l : Lexer.inVerbatim (Lexer.advance l) = Lexer.inVerbatim l.
Proof.
  unfold Lexer.advance. destruct (_ <? _)%nat; [|done].
  by destruct (Ascii.eqb _ _).
Qed.

Lemma advance_pos l :
  (Lexer.pos l < Str.len (Lexer.input l))%nat ->
  Lexer.pos (Lexer.advance l) = S (Lexer.pos l).
Proof.
  intros H. unfold Lexer.advance.
  destruct (Nat.ltb_spec (Lexer.pos l) (Str.len (Lexer.input l))); [|lia].
  by destruct (Ascii.eqb _ _).
Qed.

Lemma advanceN_input n l : Lexer.input (Lexer.advanceN n l) = Lexer.input l.
Proof.
  revert l. induction n as [|n IH]; intros l; simpl; [done|].
  by rewrite IH, advance_input.
Qed.

Lemma advanceN_inVerbatim n l :
  Lexer.inVerbatim (Lexer.advanceN n l) = Lexer.inVerbatim l.
Proof.
  revert l. induction n as [|n IH]; intros l; simpl; [done|].
  by rewrite IH, advance_inVerbatim.
Qed.

Lemma advanceN_pos n l :
  (Lexer.pos l + n <= Str.len (Lexer.input l))%nat ->
  Lexer.pos (Lexer.advanceN n l) = (Lexer.pos l + n)%nat.
Proof.
  revert l. induction n as [|n IH]; intros l H; simpl; [lia|].
  rewrite IH; rewrite ?advance_input, ?advance_pos; lia.
Qed.

Lemma advanceN_add n m l :
  Lexer.advanceN (n + m) l = Lexer.advanceN m (Lexer.advanceN n l).
Proof. revert l. induction n as [|n IH]; intros l; simpl; [done|]. apply IH. Qed.

Lemma matchString_prefix s l :
  (Lexer.pos l <= Str.len (Lexer.input l))%nat ->
  Lexer.matchString s l = Str.HasPrefix (Str.drop (Lexer.pos l) (Lexer.input l)) s.
Proof.
  intros Hle. unfold Lexer.matchString, Str.slice.
  rewrite <- take_eqb_prefix, len_drop.
  replace (Lexer.pos l + Str.len s - Lexer.pos l)%nat with (Str.len s) by lia.
  destruct (Nat.ltb_spec (Str.len (Lexer.input l)) (Lexer.pos l + Str.len s)),
           (Nat.ltb_spec (Str.len (Lexer.input l) - Lexer.pos l) (Str.len s));
    try done; lia.
Qed.

Lemma matchString_bound s l :
  Lexer.matchString s l = true ->
  (Lexer.pos l + Str.len s <= Str.len (Lexer.input l))%nat.
Proof.
  unfold Lexer.matchString.
  destruct (Nat.ltb_spec (Str.len (Lexer.input l)) (Lexer.pos l + Str.len s)); [done|lia].
Qed.

(** The search loop stops at the first occurrence of the closing
    marker, and fails exactly when there is none. *)
Lemma seek_Index close n l :
  close <> EmptyString ->
  (Lexer.pos l <= Str.len (Lexer.input l))%nat ->
  (Lexer.remaining l <= n)%nat ->
  Lexer.seek close n l =
    match Str.Index (Str.drop (Lexer.pos l) (Lexer.input l)) close with
    | Some j => Some (Lexer.advanceN j l)
    | None => None
    end.
Proof.
  intros Hne. revert l. induction n as [|n IH]; intros l Hle Hn.
  - unfold Lexer.remaining in Hn.
    assert (Hd : Str.drop (Lexer.pos l) (Lexer.input l) = EmptyString).
    { pose proof (len_drop (Lexer.pos l) (Lexer.input l)) as Hl.
      destruct (Str.drop _ _); [done|]. unfold Str.len in *. simpl in Hl. lia. }
    rewrite Hd. simpl. destruct close; [done|]. reflexivity.
  - simpl. destruct (Nat.ltb_spec (Lexer.pos l) (Str.len (Lexer.input l))) as [Hlt|Hge].
    + rewrite matchString_prefix by lia.
      rewrite (drop_S_at _ _ Hlt), Index_cons.
      destruct (Str.HasPrefix _ close) eqn:Hp; [done|].
      rewrite IH.
      * rewrite advance_input, advance_pos by lia.
        destruct (Str.Index _ close); reflexivity.
      * rewrite advance_input, advance_pos; lia.
      * unfold Lexer.remaining in *. rewrite advance_input, advance_pos; lia.
    + assert (Hd : Str.drop (Lexer.pos l) (Lexer.input l) = EmptyString).
      { pose proof (len_drop (Lexer.pos l) (Lexer.input l)) as Hl.
        destruct (Str.drop _ _); [done|]. unfold Str.len in *. simpl in Hl. lia. }
      rewrite Hd. simpl. destruct close; [done|]. reflexivity.
Qed.

Lemma Index_bound s sub j :
  Str.Index s sub = Some j -> (j + Str.len sub <= Str.len s)%nat.
Proof.
  revert j. induction s as [|c s IH]; intros j.
  - destruct sub; simpl; [|done]. intros [= <-]. unfold Str.len. simpl. lia.
  - rewrite Index_cons. destruct (Str.HasPrefix (String c s) sub) eqn:Hp.
    + intros [= <-]. rewrite <- take_eqb_prefix in Hp.
      destruct (Nat.ltb_spec (Str.len (String c s)) (Str.len sub)); [done|lia].
    + destruct (Str.Index s sub) as [i|]; simpl; [|done].
      intros [= <-]. specialize (IH i eq_refl). unfold Str.len in *. simpl. lia.
Qed.

(** C7 (as amended).  When the lexer, outside verbatim mode, stands at
    a position where the input reads [{{--], then: if [--}}] occurs at
    or after the fourth byte past that position, [nextToken] returns a
    Comment token whose value is the text between the opener and the
    first such [--}}] with the surrounding white space trimmed, and
    leaves the lexer just behind that [--}}]; if it does not occur,
    [nextToken] and [Tokenize] (continued from that state) return the
    "Unclosed comment" error and no token list. *)
Theorem comment_scanned_at_opener (l : Lexer.t) (fuel : nat) :
  Lexer.inVerbatim l = false ->
  Lexer.matchString "{{--" l = true ->
  let start := (Lexer.pos l + 4)%nat in
  match Str.Index (Str.drop start (Lexer.input l)) "--}}" with
  | Some j =>
      let l' := Lexer.advanceN 4 (Lexer.advanceN j (Lexer.advanceN 4 l)) in
      Lexer.nextToken (S fuel) l =
        Lexer.Ok (Lexer.MkToken Lexer.TOKEN_COMMENT
                    (Str.TrimSpace (Str.slice start (start + j) (Lexer.input l)))
                    EmptyString (Lexer.here l), l')
      /\ Lexer.pos l' = (start + j + 4)%nat
  | None =>
      Lexer.nextToken (S fuel) l =
        Lexer.Fail (Lexer.MkErr "Unclosed comment" (Lexer.here l))
      /\ Lexer.Tokenize_from l =
        Lexer.Fail (Lexer.MkErr "Unclosed comment" (Lexer.here l))
  end.
Proof.
  intros Hv Hm start.
  pose proof (matchString_bound _ _ Hm) as Hb.
  change (Str.len "{{--") with 4%nat in Hb.
  assert (Hpos4 : Lexer.pos (Lexer.advanceN 4 l) = start)
    by (apply advanceN_pos; lia).
  assert (Hnext : Lexer.nextToken (S fuel) l = Lexer.scanComment (Lexer.here l) l).
  { simpl. destruct (Nat.leb_spec (Str.len (Lexer.input l)) (Lexer.pos l)); [lia|].
    by rewrite Hv, Hm. }
  assert (Hseek : Lexer.seek "--}}" (Lexer.remaining (Lexer.advanceN 4 l)) (Lexer.advanceN 4 l) =
                  match Str.Index (Str.drop start (Lexer.input l)) "--}}" with
                  | Some j => Some (Lexer.advanceN j (Lexer.advanceN 4 l))
                  | None => None
                  end).
  { rewrite seek_Index; rewrite ?advanceN_input, ?Hpos4; try done;
      unfold start; lia. }
  destruct (Str.Index (Str.drop start (Lexer.input l)) "--}}") as [j|] eqn:Hi.
  - pose proof (Index_bound _ _ _ Hi) as Hj. rewrite len_drop in Hj.
    change (Str.len "--}}") with 4%nat in Hj.
    assert (Hposj : Lexer.pos (Lexer.advanceN j (Lexer.advanceN 4 l)) = (start + j)%nat).
    { rewrite advanceN_pos; rewrite ?advanceN_input, ?Hpos4; unfold start in *; lia. }
    split.
    + rewrite Hnext. unfold Lexer.scanComment. rewrite Hseek.
      by rewrite Hpos4, Hposj, !advanceN_input.
    + rewrite advanceN_pos; rewrite ?advanceN_input, ?Hposj; unfold start in *; lia.
  - assert (Hfail : Lexer.nextToken (S fuel) l =
                    Lexer.Fail (Lexer.MkErr "Unclosed comment" (Lexer.here l))).
    { rewrite Hnext. unfold Lexer.scanComment. by rewrite Hseek. }
    split; [exact Hfail|].
    unfold Lexer.Tokenize_from. simpl Lexer.Tokenize_loop.
    destruct (Nat.ltb_spec (Lexer.pos l) (Str.len (Lexer.input l))); [|lia].
    change (Lexer.nextToken (S (Lexer.remaining l)) l) with
      (Lexer.nextToken (S (Lexer.remaining l)) l).
    assert (Hfail' : Lexer.nextToken (S (Lexer.remaining l)) l =
                     Lexer.Fail (Lexer.MkErr "Unclosed comment" (Lexer.here l))).
    { simpl. destruct (Nat.leb_spec (Str.len (Lexer.input l)) (Lexer.pos l)); [lia|].
      rewrite Hv, Hm. unfold Lexer.scanComment. by rewrite Hseek. }
    simpl in Hfail'. by rewrite Hfail'.
Qed.

Lemma comment_scanned_at_opener_witness :
  Lexer.nextToken 1 (Lexer.New "{{-- a --}}b") =
    Lexer.Ok (Lexer.MkToken Lexer.TOKEN_COMMENT "a" EmptyString (Lexer.MkPos 1 1 0),
              Lexer.advanceN 11 (Lexer.New "{{-- a --}}b"))
  /\ Lexer.Tokenize_from (Lexer.New "{{-- a") =
    Lexer.Fail (Lexer.MkErr "Unclosed comment" (Lexer.MkPos 1 1 0)).
Proof.
  split.
  - exact (proj1 (comment_scanned_at_opener (Lexer.New "{{-- a --}}b") 0 eq_refl eq_refl)).
  - exact (proj2 (comment_scanned_at_opener (Lexer.New "{{-- a") 0 eq_refl eq_refl)).
Defined.

(** C7 as stated fails: an input can contain [{{--] with no later
    [--}}] and still lex without error, because inside a verbatim block
    (or a directive argument list, or an echo) the opener is not
    scanned as a comment. *)
Lemma comment_opener_in_verbatim_is_text :
  ~ (forall (inp : string) (i : nat),
        Str.HasPrefix (Str.drop i inp) "{{--" = true ->
        Str.Index (Str.drop (i + 4) inp) "--}}" = None ->
        exists e, Lexer.Tokenize inp = Lexer.Fail e).
Proof.
  intros H.
  destruct (H "@verbatim{{--@endverbatim" 9%nat eq_refl eq_refl) as [e He].
  vm_compute in He. discriminate He.
Qed.

(** ** Facts about the compiler *)

Lemma compileNode_For pos init condition post children c :
  Compiler.compileNode (Parser.ForNode pos init condition post children) c =
    let c0 := Compiler.enter_loop c in
    let '(body, c1) := Compiler.compileChildren children c0 in
    (Compiler.for_header (Compiler.loopDepth c0)
       (Compiler.extractForRange init condition) +:+ body +:+ "{{ end }}",
     Compiler.leave_loop c1).
Proof. reflexivity. Qed.

Lemma compileNode_While pos condition children c :
  Compiler.compileNode (Parser.WhileNode pos condition children) c =
    let c0 := Compiler.enter_loop c in
    let '(body, c1) := Compiler.compileChildren children c0 in
    (Compiler.while_header (Compiler.loopDepth c0)
       (Compiler.transformExpression condition) +:+ body +:+ "{{ end }}",
     Compiler.leave_loop c1).
Proof. reflexivity. Qed.

Lemma compileNode_Foreach pos items key value children c :
  Compiler.compileNode (Parser.ForeachNode pos items key value children) c =
    let c0 := Compiler.enter_loop c in
    let '(body, c1) := Compiler.compileChildren children c0 in
    (Compiler.foreach_header (Compiler.loopDepth c0)
       (Compiler.transformExpression items) key value +:+ body +:+ "{{ end }}",
     Compiler.leave_loop c1).
Proof. reflexivity. Qed.

(** C10. For every [@for] node whose condition holds no decimal
    literal after a [<] or [<=] (the pattern of [extractForRange] finds
    no match), the compiler falls back to the end bound 10: the range
    of the lowered loop is [seq INIT 10], INIT being the text after the
    [=] of the init clause, whatever the condition compares with. *)
Theorem for_without_literal_bound_ranges_to_10
    (pos : Lexer.Position) (init condition post : string)
    (children : list Parser.Node) (c : Compiler.t) :
  Regexp.FindStringSubmatch Compiler.re_for_end condition = None ->
  Compiler.extractForRange init condition = Compiler.for_init_value init +:+ " 10"
  /\ exists body c',
       let d := Str.itoa (GoInt.add (Compiler.loopDepth c) 1) in
       Compiler.compileNode (Parser.ForNode pos init condition post children) c =
         ("{{ $__loop" +:+ d +:+ " := newLoop -1 " +:+ d +:+ " }}"
          +:+ "{{ range $__idx" +:+ d +:+ " := seq " +:+ Compiler.for_init_value init +:+ " 10 }}"
          +:+ "{{ $loop := $__loop" +:+ d +:+ ".Update $__idx" +:+ d +:+ " }}"
          +:+ body +:+ "{{ end }}", c').
Proof.
  intros Hno.
  assert (Hr : Compiler.extractForRange init condition = Compiler.for_init_value init +:+ " 10").
  { unfold Compiler.extractForRange, Compiler.for_init_value. rewrite Hno.
    unfold Compiler.cat. simpl Str.Join. reflexivity. }
  split; [exact Hr|].
  rewrite compileNode_For. cbv zeta.
  destruct (Compiler.compileChildren children (Compiler.enter_loop c)) as [body c1].
  exists body, (Compiler.leave_loop c1).
  rewrite Hr. unfold Compiler.for_header, Compiler.cat.
  cbn [Str.Join Compiler.enter_loop Compiler.loopDepth Compiler.set_loopDepth].
  rewrite !app_assoc_s. reflexivity.
Qed.

Lemma for_without_literal_bound_ranges_to_10_witness :
  Compiler.extractForRange "$i = 0" "$i < $n" = "0 10"
  /\ Engine.compileString "@for($i = 0; $i < $n; $i++)x@endfor" =
       Engine.Ok ("{{ $__loop1 := newLoop -1 1 }}{{ range $__idx1 := seq 0 10 }}"
                  +:+ "{{ $loop := $__loop1.Update $__idx1 }}x{{ end }}")
  /\ Engine.seq 0 10 = Some [0; 1; 2; 3; 4; 5; 6; 7; 8; 9; 10].
Proof.
  split; [|split].
  - exact (proj1 (for_without_literal_bound_ranges_to_10
                    Lexer.zeroPos "$i = 0" "$i < $n" "$i++" [] Compiler.New eq_refl)).
  - vm_compute. reflexivity.
  - vm_compute. reflexivity.
Defined.

(** ** Facts about the render context *)

Section ContextFacts.

Context (V : Type) (growcap : nat -> nat -> nat).

Implicit Types (arrs : gmap positive (list string)) (s : Context.slice)
  (m : gmap string Context.slice) (st : Context.store V).

Lemma extends_refl arrs : Context.extends arrs arrs.
Proof. by intros b _. Qed.

Lemma extends_dom arrs arrs' b :
  Context.extends arrs arrs' -> b ∈ dom arrs -> b ∈ dom arrs'.
Proof.
  intros He Hb. apply elem_of_dom. rewrite (He b Hb). by apply elem_of_dom.
Qed.

Lemma extends_trans arrs1 arrs2 arrs3 :
  Context.extends arrs1 arrs2 -> Context.extends arrs2 arrs3 ->
  Context.extends arrs1 arrs3.
Proof.
  intros H12 H23 b Hb. rewrite (H23 b); [by apply H12|by eapply extends_dom].
Qed.

Lemma extends_alloc arrs xs :
  Context.extends arrs (<[fresh (dom arrs) := xs]> arrs).
Proof.
  intros b Hb. rewrite lookup_insert_ne; [done|].
  intros <-. by apply (is_fresh (dom arrs)).
Qed.

(** Reading a slice depends only on its own backing array. *)
Lemma read_frame arrs arrs' s :
  (forall b, Context.base s = Some b -> arrs' !! b = arrs !! b) ->
  Context.read arrs' s = Context.read arrs s.
Proof.
  intros H. unfold Context.read. destruct (Context.base s) as [b|]; [|done].
  by rewrite (H b eq_refl).
Qed.

Lemma read_base_dom arrs s b :
  is_Some (Context.read arrs s) -> Context.base s = Some b -> b ∈ dom arrs.
Proof.
  unfold Context.read. intros [xs Hx] Hb. rewrite Hb in Hx. simpl in Hx.
  apply elem_of_dom. destruct (arrs !! b); [done|]. discriminate Hx.
Qed.

Lemma read_extends arrs arrs' s :
  Context.extends arrs arrs' -> is_Some (Context.read arrs s) ->
  Context.read arrs' s = Context.read arrs s.
Proof.
  intros He Hs. apply read_frame. intros b Hb. apply He.
  by eapply read_base_dom.
Qed.

Lemma read_nil arrs : Context.read arrs Context.nil_slice = Some [].
Proof. reflexivity. Qed.

(** A newly allocated array holds the given elements and lies outside
    the old store. *)
Lemma new_array_spec arrs oldcap xs arrs' s' :
  Context.new_array growcap arrs oldcap xs = (arrs', s') ->
  Context.extends arrs arrs'
  /\ Context.read arrs' s' = Some xs
  /\ exists a, Context.base s' = Some a /\ (a ∉ dom arrs) /\ (a ∈ dom arrs').
Proof.
  unfold Context.new_array. intros [= <- <-]. split; [apply extends_alloc|]. split.
  - unfold Context.read. simpl. rewrite lookup_insert_eq. simpl.
    rewrite (proj2 (Nat.leb_le _ _)); [by rewrite take_app_length|].
    rewrite length_app. lia.
  - eexists. split; [reflexivity|]. split; [apply is_fresh|].
    apply elem_of_dom. rewrite lookup_insert_eq. by eexists.
Qed.

(** [append]: the arrays other than the one under the slice keep
    their cells; the result lives in the same array or in a new one. *)
Lemma append1_spec arrs s x arrs' s' :
  Context.append1 growcap arrs s x = Some (arrs', s') ->
  (forall b, b ∈ dom arrs -> Context.base s <> Some b -> arrs' !! b = arrs !! b)
  /\ (forall b, b ∈ dom arrs -> b ∈ dom arrs')
  /\ (Context.base s' = Context.base s
      \/ exists a, Context.base s' = Some a /\ a ∉ dom arrs).
Proof.
  unfold Context.append1. destruct (_ <? _)%nat.
  - destruct (Context.base s) as [b0|] eqn:Hb; [|done]. simpl.
    destruct (arrs !! b0) as [arr|] eqn:Ha; [|done]. simpl.
    destruct (_ <? _)%nat; [|done]. intros [= <- <-]. split; [|split].
    + intros b _ Hne. rewrite lookup_insert_ne; [done|]. congruence.
    + intros b Hb'. apply elem_of_dom. destruct (decide (b0 = b)) as [->|].
      * rewrite lookup_insert_eq. by eexists.
      * rewrite lookup_insert_ne by done. by apply elem_of_dom.
    + by left.
  - destruct (Context.read arrs s) as [xs|]; [|done]. simpl. intros H.
    apply (inj Some) in H.
    destruct (new_array_spec _ _ _ _ _ H) as (He & _ & a & Ha & Hf & _).
    split; [|split].
    + intros b Hb _. by apply He.
    + intros b Hb. by eapply extends_dom.
    + right. by exists a.
Qed.

(** [append([]string{content}, v...)] always builds new arrays. *)
Lemma prepend1_spec arrs content v arrs' s' :
  Context.prepend1 growcap arrs content v = Some (arrs', s') ->
  Context.extends arrs arrs'
  /\ exists a, Context.base s' = Some a /\ a ∉ dom arrs.
Proof.
  unfold Context.prepend1. destruct (Context.read arrs v) as [xs|]; [|done]. simpl.
  destruct xs as [|x0 xs].
  - intros [= <- <-]. split; [apply extends_alloc|].
    eexists. split; [reflexivity|apply is_fresh].
  - intros H. apply (inj Some) in H.
    destruct (new_array_spec _ _ _ _ _ H) as (He & _ & a & Ha & Hf & _).
    split.
    + eapply extends_trans; [apply extends_alloc|exact He].
    + exists a. split; [done|]. intros Hin. apply Hf.
      eapply extends_dom; [apply extends_alloc|done].
Qed.

Lemma read_all_frame arrs arrs' m :
  (forall b, Context.refs m b -> arrs' !! b = arrs !! b) ->
  Context.read_all arrs' m = Context.read_all arrs m.
Proof.
  intros H.
  assert (Hr : forall k s, m !! k = Some s -> Context.read arrs' s = Context.read arrs s).
  { intros k s Hk. apply read_frame. intros b Hb. apply H. by exists k, s. }
  assert (Ho : omap (Context.read arrs') m = omap (Context.read arrs) m).
  { apply map_eq. intros k. rewrite !lookup_omap.
    destruct (m !! k) as [s|] eqn:Hk; simpl; [by eapply Hr|done]. }
  unfold Context.read_all. rewrite Ho.
  destruct (decide (map_Forall (fun _ s => is_Some (Context.read arrs' s)) m)) as [H1|H1],
           (decide (map_Forall (fun _ s => is_Some (Context.read arrs s)) m)) as [H2|H2];
    try done.
  - exfalso. apply H2. intros k s Hk. rewrite <- (Hr k s Hk). by eapply H1.
  - exfalso. apply H1. intros k s Hk. rewrite (Hr k s Hk). by eapply H2.
Qed.

Lemma read_all_lookup arrs m t k :
  Context.read_all arrs m = Some t ->
  t !! k = m !! k ≫= Context.read arrs.
Proof.
  unfold Context.read_all. destruct (decide _); [|done]. intros [= <-].
  apply lookup_omap.
Qed.

Lemma read_all_is_Some arrs m t k s :
  Context.read_all arrs m = Some t -> m !! k = Some s ->
  is_Some (Context.read arrs s).
Proof.
  unfold Context.read_all. destruct (decide _) as [H|]; [|done]. intros _ Hk.
  by eapply H.
Qed.

Lemma read_all_intro arrs m :
  (forall k s, m !! k = Some s -> is_Some (Context.read arrs s)) ->
  Context.read_all arrs m = Some (omap (Context.read arrs) m).
Proof.
  intros H. unfold Context.read_all. destruct (decide _) as [|Hn]; [done|].
  exfalso. apply Hn. intros k s Hk. by eapply H.
Qed.

Lemma refs_empty b : ~ Context.refs ∅ b.
Proof. intros (k & s & Hk & _). by rewrite lookup_empty in Hk. Qed.

(** The tables of [y] are the same in two stores that agree on the
    objects [y] reads. *)
Lemma view_frame st st' y fy :
  Context.contexts st !! y = Some fy ->
  Context.contexts st' !! y = Some fy ->
  Context.ifaceMaps st' !! Context.data fy = Context.ifaceMaps st !! Context.data fy ->
  Context.sliceMaps st' !! Context.stacks fy = Context.sliceMaps st !! Context.stacks fy ->
  Context.stringMaps st' !! Context.sections fy
    = Context.stringMaps st !! Context.sections fy ->
  Context.deref (Context.sliceMaps st') (Context.errors fy)
    = Context.deref (Context.sliceMaps st) (Context.errors fy) ->
  Context.deref (Context.stringMaps st') (Context.old fy)
    = Context.deref (Context.stringMaps st) (Context.old fy) ->
  (forall b, Context.observed st fy b ->
     Context.arrays st' !! b = Context.arrays st !! b) ->
  Context.view y st' = Context.view y st.
Proof.
  intros Hy Hy' Hd Hs Hsec He Ho Ha. unfold Context.view.
  rewrite Hy, Hy'. simpl. rewrite Hd, Hs, Hsec, He, Ho.
  destruct (Context.ifaceMaps st !! Context.data fy) as [d|]; [|done]. simpl.
  destruct (Context.sliceMaps st !! Context.stacks fy) as [s|] eqn:Hst; [|done]. simpl.
  destruct (Context.stringMaps st !! Context.sections fy) as [sec|]; [|done]. simpl.
  destruct (Context.deref (Context.sliceMaps st) (Context.errors fy)) as [e|] eqn:Hde;
    [|done]. simpl.
  destruct (Context.deref (Context.stringMaps st) (Context.old fy)) as [o|]; [|done].
  simpl.
  rewrite (read_all_frame (Context.arrays st) (Context.arrays st') s).
  2:{ intros b Hb. apply Ha. left. by exists s. }
  rewrite (read_all_frame (Context.arrays st) (Context.arrays st') e); [done|].
  intros b Hb. apply Ha. unfold Context.deref in Hde.
  destruct (Context.errors fy) as [a|] eqn:Hef.
  - right. by exists a, e.
  - injection Hde as <-. by apply refs_empty in Hb.
Qed.

(** What [y] shows is the same in two stores whose slice maps agree
    away from the stacks of [x]. *)
Lemma observed_frame st st' fx fy b :
  Context.stacks fx <> Context.stacks fy ->
  Context.errors fy <> Some (Context.stacks fx) ->
  (forall a, a <> Context.stacks fx ->
     Context.sliceMaps st' !! a = Context.sliceMaps st !! a) ->
  Context.observed st' fy b <-> Context.observed st fy b.
Proof.
  intros Hs He Hm. unfold Context.observed.
  rewrite (Hm (Context.stacks fy)) by congruence.
  split; (intros [H|(a & m & Ha & Hl & Hr)]; [by left|right; exists a, m]);
    (split; [done|]); (split; [|done]).
  - rewrite <- Hm; [done|]. congruence.
  - rewrite Hm; [done|]. congruence.
Qed.

(** A store change made through [x] that touches only the maps [x]
    writes to, and only arrays under the stacks of [x] or new ones,
    keeps [x] separate from [y]. *)
Lemma separate_step st st' x y fx fy fx' :
  x <> y ->
  Context.contexts st !! x = Some fx ->
  Context.contexts st !! y = Some fy ->
  Context.data fx <> Context.data fy ->
  Context.stacks fx <> Context.stacks fy ->
  Context.errors fy <> Some (Context.stacks fx) ->
  Context.sections fx <> Context.sections fy ->
  Context.old fy <> Some (Context.sections fx) ->
  (forall mx b, Context.sliceMaps st !! Context.stacks fx = Some mx ->
     Context.refs mx b -> ~ Context.observed st fy b) ->
  (forall b, Context.observed st fy b -> b ∈ dom (Context.arrays st)) ->
  Context.contexts st' !! x = Some fx' ->
  Context.data fx' = Context.data fx ->
  Context.stacks fx' = Context.stacks fx ->
  Context.sections fx' = Context.sections fx ->
  Context.contexts st' !! y = Some fy ->
  (forall a, a <> Context.stacks fx ->
     Context.sliceMaps st' !! a = Context.sliceMaps st !! a) ->
  (forall mx' b, Context.sliceMaps st' !! Context.stacks fx = Some mx' ->
     Context.refs mx' b ->
     (exists mx, Context.sliceMaps st !! Context.stacks fx = Some mx /\ Context.refs mx b)
     \/ b ∉ dom (Context.arrays st)) ->
  (forall b, b ∈ dom (Context.arrays st) -> b ∈ dom (Context.arrays st')) ->
  Context.separate st' x y.
Proof.
  intros Hne Hx Hy Hd Hs He Hsec Ho Hrefs Hdom Hx' Hd' Hs' Hsec' Hy' Hm Hnew Hgrow.
  exists fx', fy. rewrite Hd', Hs', Hsec'.
  repeat (split; [done|]). split.
  - intros mx' b Hmx' Hr Hobs.
    apply (observed_frame st st' fx fy b Hs He Hm) in Hobs.
    destruct (Hnew mx' b Hmx' Hr) as [(mx & Hmx & Hrb)|Hfresh].
    + by eapply Hrefs.
    + apply Hfresh. by apply Hdom.
  - intros b Hobs. apply (observed_frame st st' fx fy b Hs He Hm) in Hobs.
    by apply Hgrow, Hdom.
Qed.

Lemma deref_frame {A : Type} (heap heap' : gmap positive (gmap string A))
    (p : option positive) (a0 : positive) :
  p <> Some a0 ->
  (forall a, a <> a0 -> heap' !! a = heap !! a) ->
  Context.deref heap' p = Context.deref heap p.
Proof.
  intros Hp H. destruct p as [a|]; [|done]. simpl. apply H. congruence.
Qed.

Lemma refs_insert m name s b :
  Context.refs (<[name := s]> m) b ->
  Context.base s = Some b \/ Context.refs m b.
Proof.
  intros (k & s0 & Hk & Hb). destruct (decide (name = k)) as [->|Hne].
  - rewrite lookup_insert_eq in Hk. injection Hk as <-. by left.
  - rewrite lookup_insert_ne in Hk by done. right. by exists k, s0.
Qed.

Lemma stack_entry_refs m name b :
  Context.base (Context.stack_entry m name) = Some b -> Context.refs m b.
Proof.
  unfold Context.stack_entry. destruct (m !! name) as [s|] eqn:Hk; simpl; [|done].
  intros Hb. by exists name, s.
Qed.

(** Closes the side conditions of [separate_step] for a write that
    leaves the slice maps and the arrays alone. *)
Ltac sep_same :=
  simpl; try done;
  try (let mx' := fresh "mx" in let b := fresh "b" in
       intros mx' b ? ?; left; by exists mx').

(** One write through [x] keeps [x] separate from [y] and leaves the
    tables of [y] as they were. *)
Lemma write_step st x y w st' :
  Context.separate st x y ->
  Context.apply_write growcap x w st = Some st' ->
  Context.separate st' x y /\ Context.view y st' = Context.view y st.
Proof.
  intros (fx & fy & Hne & Hx & Hy & Hd & Hs & He & Hsec & Ho & Hrefs & Hdom) Hw.
  assert (Hy_ne : forall f, <[x := f]> (Context.contexts st) !! y = Some fy)
    by (intros f; by rewrite lookup_insert_ne).
  pose proof (separate_step st st' x y fx fy) as Hstep.
  specialize (fun fx' => Hstep fx' Hne Hx Hy Hd Hs He Hsec Ho Hrefs Hdom).
  destruct w as [key value|arg|name content|name content|name content|arg|arg];
    simpl in Hw.
  - (* Set *)
    unfold Context.Set_ in Hw. rewrite Hx in Hw. simpl in Hw.
    destruct (Context.ifaceMaps st !! Context.data fx) as [m|]; [|done].
    injection Hw as <-. split.
    + apply (Hstep fx); sep_same.
    + apply (view_frame _ _ y fy); simpl; try done.
      by rewrite lookup_insert_ne.
  - (* Merge *)
    unfold Context.Merge in Hw. rewrite Hx in Hw. simpl in Hw.
    destruct (Context.ifaceMaps st !! Context.data fx) as [m|]; [|done]. simpl in Hw.
    destruct (match arg with Some a => _ | None => _ end) as [src|]; [|done].
    injection Hw as <-. split.
    + apply (Hstep fx); sep_same.
    + apply (view_frame _ _ y fy); simpl; try done.
      by rewrite lookup_insert_ne.
  - (* PushStack *)
    unfold Context.PushStack in Hw. rewrite Hx in Hw. simpl in Hw.
    destruct (Context.sliceMaps st !! Context.stacks fx) as [m|] eqn:Hm; [|done].
    simpl in Hw.
    destruct (Context.append1 growcap (Context.arrays st) (Context.stack_entry m name) content)
      as [[arrs s]|] eqn:Happ; [|done].
    injection Hw as <-.
    destruct (append1_spec _ _ _ _ _ Happ) as (Hkeep & Hgrow & Hbase).
    assert (Hothers : forall a, a <> Context.stacks fx ->
              <[Context.stacks fx := <[name := s]> m]> (Context.sliceMaps st) !! a
              = Context.sliceMaps st !! a)
      by (intros a Ha; by rewrite lookup_insert_ne).
    split.
    + apply (Hstep fx); simpl; try done.
      intros mx' b Hmx' Hr. rewrite lookup_insert_eq in Hmx'. injection Hmx' as <-.
      destruct (refs_insert _ _ _ _ Hr) as [Hb|Hb].
      * destruct Hbase as [Heq|(a & Ha & Hfresh)].
        -- left. exists m. split; [done|]. apply (stack_entry_refs m name).
           congruence.
        -- right. congruence.
      * left. by exists m.
    + apply (view_frame _ _ y fy); simpl; try done.
      * apply Hothers. congruence.
      * apply deref_frame with (a0 := Context.stacks fx); done.
      * intros b Hobs. apply Hkeep; [by apply Hdom|].
        intros Hb. apply (Hrefs m b eq_refl); [|done].
        by apply (stack_entry_refs m name).
  - (* PrependStack *)
    unfold Context.PrependStack in Hw. rewrite Hx in Hw. simpl in Hw.
    destruct (Context.sliceMaps st !! Context.stacks fx) as [m|] eqn:Hm; [|done].
    simpl in Hw.
    destruct (Context.prepend1 growcap (Context.arrays st) content (Context.stack_entry m name))
      as [[arrs s]|] eqn:Happ; [|done].
    injection Hw as <-.
    destruct (prepend1_spec _ _ _ _ _ Happ) as (Hext & a & Ha & Hfresh).
    assert (Hothers : forall a, a <> Context.stacks fx ->
              <[Context.stacks fx := <[name := s]> m]> (Context.sliceMaps st) !! a
              = Context.sliceMaps st !! a)
      by (intros a' Ha'; by rewrite lookup_insert_ne).
    split.
    + apply (Hstep fx); simpl; try done.
      * intros mx' b Hmx' Hr. rewrite lookup_insert_eq in Hmx'. injection Hmx' as <-.
        destruct (refs_insert _ _ _ _ Hr) as [Hb|Hb].
        -- right. congruence.
        -- left. by exists m.
      * intros b Hb. by eapply extends_dom.
    + apply (view_frame _ _ y fy); simpl; try done.
      * apply Hothers. congruence.
      * apply deref_frame with (a0 := Context.stacks fx); done.
      * intros b Hobs. by apply Hext, Hdom.
  - (* SetSection *)
    unfold Context.SetSection in Hw. rewrite Hx in Hw. simpl in Hw.
    destruct (Context.stringMaps st !! Context.sections fx) as [m|]; [|done].
    injection Hw as <-. split.
    + apply (Hstep fx); sep_same.
    + apply (view_frame _ _ y fy); simpl; try done.
      * by rewrite lookup_insert_ne.
      * apply deref_frame with (a0 := Context.sections fx); [done|].
        intros a Ha. by rewrite lookup_insert_ne.
  - (* SetErrors *)
    unfold Context.SetErrors in Hw. rewrite Hx in Hw. simpl in Hw.
    injection Hw as <-. split.
    + apply (Hstep (Context.MkFields (Context.data fx) (Context.stacks fx)
                      (Context.sections fx) arg (Context.old fx))); sep_same.
      apply lookup_insert_eq.
    + apply (view_frame _ _ y fy); simpl; done.
  - (* SetOld *)
    unfold Context.SetOld in Hw. rewrite Hx in Hw. simpl in Hw.
    injection Hw as <-. split.
    + apply (Hstep (Context.MkFields (Context.data fx) (Context.stacks fx)
                      (Context.sections fx) (Context.errors fx) arg)); sep_same.
      apply lookup_insert_eq.
    + apply (view_frame _ _ y fy); simpl; done.
Qed.

(** Any sequence of writes through [x] leaves the tables of [y] as
    they were. *)
Lemma writes_keep_view st x y ws st' :
  Context.separate st x y ->
  Context.apply_writes growcap x ws st = Some st' ->
  Context.view y st' = Context.view y st.
Proof.
  revert st. induction ws as [|w ws IH]; intros st Hsep Hrun; simpl in Hrun.
  - by injection Hrun as <-.
  - destruct (Context.apply_write growcap x w st) as [st1|] eqn:Hw; [|done].
    simpl in Hrun. destruct (write_step _ _ _ _ _ Hsep Hw) as [Hsep1 Hv1].
    rewrite (IH st1 Hsep1 Hrun). exact Hv1.
Qed.

Lemma copy_slices_spec arrs0 m :
  (forall k s, m !! k = Some s -> is_Some (Context.read arrs0 s)) ->
  exists arrs' out,
    Context.copy_slices growcap arrs0 m = Some (arrs', out)
    /\ Context.copied arrs0 arrs' m out.
Proof.
  unfold Context.copy_slices.
  apply (map_fold_weak_ind
           (fun r m =>
              (forall k s, m !! k = Some s -> is_Some (Context.read arrs0 s)) ->
              exists arrs' out, r = Some (arrs', out) /\ Context.copied arrs0 arrs' m out)).
  - intros _. exists arrs0, ∅. split; [done|]. split; [apply extends_refl|].
    split; [done|]. intros k s'. by rewrite lookup_empty.
  - clear m. intros i x m r Hi IH Hall.
    destruct IH as (arrs1 & out & -> & Hext & Hnone & Hsome).
    { intros k s Hk. apply (Hall k s). rewrite lookup_insert_ne; [done|].
      intros <-. congruence. }
    simpl.
    assert (Hx : is_Some (Context.read arrs0 x))
      by (apply (Hall i x); apply lookup_insert_eq).
    assert (Hrx : Context.read arrs1 x = Context.read arrs0 x)
      by (by apply read_extends).
    destruct Hx as [xs Hxs].
    unfold Context.copy_slice. rewrite Hrx, Hxs. simpl.
    assert (Hold : forall arrs2, Context.extends arrs1 arrs2 ->
              forall k s', k <> i -> out !! k = Some s' ->
              exists s, <[i := x]> m !! k = Some s
                        /\ Context.read arrs2 s' = Context.read arrs0 s
                        /\ forall b, Context.base s' = Some b ->
                                     (b ∉ dom arrs0) /\ (b ∈ dom arrs2)).
    { intros arrs2 He2 k s' Hk Hout.
      destruct (Hsome k s' Hout) as (s & Hm & Hr & Hb).
      exists s. rewrite lookup_insert_ne by done. split; [done|]. split.
      - rewrite <- Hr. apply read_frame. intros b Hbs. apply He2.
        by apply (Hb b).
      - intros b Hbs. destruct (Hb b Hbs) as [Hb0 Hb1]. split; [done|].
        by eapply extends_dom. }
    assert (Hkeys : forall (v : Context.slice) k,
              <[i := v]> out !! k = None <-> <[i := x]> m !! k = None).
    { intros v k. destruct (decide (i = k)) as [->|Hne].
      - by rewrite !lookup_insert_eq.
      - rewrite !lookup_insert_ne by done. apply Hnone. }
    destruct xs as [|x0 xs].
    + exists arrs1, (<[i := Context.nil_slice]> out). split; [done|].
      split; [done|]. split; [apply Hkeys|].
      intros k s'. destruct (decide (i = k)) as [->|Hne].
      * rewrite lookup_insert_eq. intros [= <-]. exists x.
        rewrite lookup_insert_eq. split; [done|]. split; [by rewrite Hxs|].
        intros b Hb. discriminate Hb.
      * rewrite lookup_insert_ne by done. intros Hout.
        apply (Hold arrs1 (extends_refl _) k s'); [congruence|done].
    + destruct (Context.new_array growcap arrs1 0 (x0 :: xs)) as [arrs2 s2] eqn:Hnew.
      destruct (new_array_spec _ _ _ _ _ Hnew) as (He2 & Hr2 & a & Ha & Hf & Hin).
      exists arrs2, (<[i := s2]> out). split; [done|].
      split; [by eapply extends_trans|]. split; [apply Hkeys|].
      intros k s'. destruct (decide (i = k)) as [->|Hne].
      * rewrite lookup_insert_eq. intros [= <-]. exists x.
        rewrite lookup_insert_eq. split; [done|]. split; [by rewrite Hr2, Hxs|].
        intros b Hb. assert (b = a) as -> by congruence. split; [|done].
        intros Hb0. apply Hf. by eapply extends_dom.
      * rewrite lookup_insert_ne by done. intros Hout.
        apply (Hold arrs2 He2 k s'); [congruence|done].
Qed.

(** The copies show the same elements as the originals. *)
Lemma copied_read_all arrs0 arrs' arrs'' m out t :
  Context.copied arrs0 arrs' m out ->
  Context.extends arrs' arrs'' ->
  Context.read_all arrs0 m = Some t ->
  Context.read_all arrs'' out = Some t.
Proof.
  intros (Hext & Hnone & Hsome) He2 Ht.
  assert (Hrd : forall k s', out !! k = Some s' ->
            exists s, m !! k = Some s /\ Context.read arrs'' s' = Context.read arrs0 s).
  { intros k s' Hout. destruct (Hsome k s' Hout) as (s & Hm & Hr & Hb).
    exists s. split; [done|]. rewrite <- Hr. apply read_frame.
    intros b Hbs. apply He2. by apply (Hb b). }
  rewrite read_all_intro.
  - f_equal. apply map_eq. intros k. rewrite (read_all_lookup _ _ _ k Ht).
    rewrite lookup_omap. destruct (out !! k) as [s'|] eqn:Hout; simpl.
    + destruct (Hrd k s' Hout) as (s & Hm & Hr). by rewrite Hm, Hr.
    + apply Hnone in Hout. by rewrite Hout.
  - intros k s' Hout. destruct (Hrd k s' Hout) as (s & Hm & Hr). rewrite Hr.
    by eapply read_all_is_Some.
Qed.

Lemma fresh_insert_ne {A : Type} (heap : gmap positive A) (a : positive) (v : A) :
  fresh (dom (<[a := v]> heap)) <> a
  /\ fresh (dom (<[a := v]> heap)) ∉ dom heap.
Proof.
  pose proof (is_fresh (dom (<[a := v]> heap))) as Hf.
  split.
  - intros Heq. apply Hf. rewrite Heq. apply elem_of_dom.
    rewrite lookup_insert_eq. by eexists.
  - intros Hin. apply Hf. apply elem_of_dom. apply elem_of_dom in Hin.
    destruct (decide (a = fresh (dom (<[a := v]> heap)))) as [Heq|Hne].
    + rewrite <- Heq. rewrite lookup_insert_eq. by eexists.
    + by rewrite lookup_insert_ne.
Qed.

(** The store that [Clone] builds. *)
Lemma Clone_shape st c x d sm sec em o ts te :
  Context.contexts st !! c = Some x ->
  Context.ifaceMaps st !! Context.data x = Some d ->
  Context.sliceMaps st !! Context.stacks x = Some sm ->
  Context.stringMaps st !! Context.sections x = Some sec ->
  Context.deref (Context.sliceMaps st) (Context.errors x) = Some em ->
  Context.deref (Context.stringMaps st) (Context.old x) = Some o ->
  Context.read_all (Context.arrays st) sm = Some ts ->
  Context.read_all (Context.arrays st) em = Some te ->
  exists c' d' sa' e' sec' o' sm1 e1 arrs1 arrs2,
    Context.Clone growcap c st =
      Some (Context.MkStore V
              (<[d' := d]> (<[d' := ∅]> (Context.ifaceMaps st)))
              (<[e' := e1]> (<[sa' := sm1]> (<[e' := ∅]> (<[sa' := ∅]> (Context.sliceMaps st)))))
              (<[o' := o]> (<[sec' := sec]> (<[o' := ∅]> (<[sec' := ∅]> (Context.stringMaps st)))))
              arrs2
              (<[c' := Context.MkFields d' sa' sec' (Some e') (Some o')]> (Context.contexts st)),
            c')
    /\ (c' ∉ dom (Context.contexts st))
    /\ (d' ∉ dom (Context.ifaceMaps st))
    /\ (sa' ∉ dom (Context.sliceMaps st))
    /\ (e' ∉ dom (Context.sliceMaps st))
    /\ e' <> sa'
    /\ (sec' ∉ dom (Context.stringMaps st))
    /\ (o' ∉ dom (Context.stringMaps st))
    /\ o' <> sec'
    /\ Context.copied (Context.arrays st) arrs1 sm sm1
    /\ Context.copied arrs1 arrs2 em e1.
Proof.
  intros Hx Hd Hs Hsec He Ho Hts Hte.
  destruct (copy_slices_spec (Context.arrays st) sm) as (arrs1 & sm1 & Hc1 & Hcop1).
  { intros k v Hk. exact (read_all_is_Some _ _ _ _ _ Hts Hk). }
  destruct (copy_slices_spec arrs1 em) as (arrs2 & e1 & Hc2 & Hcop2).
  { intros k v Hk. pose proof (read_all_is_Some _ _ _ _ _ Hte Hk) as Hv.
    rewrite (read_extends (Context.arrays st) arrs1); [exact Hv|apply Hcop1|exact Hv]. }
  set (d' := fresh (dom (Context.ifaceMaps st))).
  set (sa' := fresh (dom (Context.sliceMaps st))).
  set (e' := fresh (dom (<[sa' := (∅ : gmap string Context.slice)]> (Context.sliceMaps st)))).
  set (sec' := fresh (dom (Context.stringMaps st))).
  set (o' := fresh (dom (<[sec' := (∅ : gmap string string)]> (Context.stringMaps st)))).
  set (c' := fresh (dom (Context.contexts st))).
  exists c', d', sa', e', sec', o', sm1, e1, arrs1, arrs2.
  split.
  - unfold Context.Clone. rewrite Hx. simpl. rewrite Hd, Hs, Hsec. simpl.
    rewrite He, Ho. simpl.
    fold d' sa' sec' c'. fold e' o'.
    rewrite lookup_insert_eq. simpl. rewrite Hc1. simpl. rewrite Hc2. reflexivity.
  - split; [apply is_fresh|]. split; [apply is_fresh|]. split; [apply is_fresh|].
    destruct (fresh_insert_ne (Context.sliceMaps st) sa' ∅) as [H1 H2].
    destruct (fresh_insert_ne (Context.stringMaps st) sec' ∅) as [H3 H4].
    split; [exact H2|]. split; [exact H1|]. split; [apply is_fresh|].
    split; [exact H4|]. split; [exact H3|]. split; [exact Hcop1|exact Hcop2].
Qed.

Lemma copied_refs arrs0 arrs' m out b :
  Context.copied arrs0 arrs' m out -> Context.refs out b ->
  (b ∉ dom arrs0) /\ (b ∈ dom arrs').
Proof.
  intros (_ & _ & Hsome) (k & v & Hk & Hb).
  destruct (Hsome k v Hk) as (_ & _ & _ & H). by apply H.
Qed.

Lemma read_all_refs_dom arrs m t b :
  Context.read_all arrs m = Some t -> Context.refs m b -> b ∈ dom arrs.
Proof.
  intros Ht (k & v & Hk & Hb).
  exact (read_base_dom _ _ _ (read_all_is_Some _ _ _ _ _ Ht Hk) Hb).
Qed.

Lemma not_in_dom_ne {A : Type} (heap : gmap positive A) (a b : positive) :
  a ∉ dom heap -> is_Some (heap !! b) -> a <> b.
Proof. intros Ha Hb ->. apply Ha. by apply elem_of_dom. Qed.

(** [Clone] succeeds on a live context; the clone shows the same
    tables, and each of the two contexts is separate from the other. *)
Lemma Clone_separates st c T :
  Context.view c st = Some T ->
  exists st1 c',
    Context.Clone growcap c st = Some (st1, c')
    /\ c' <> c
    /\ Context.view c st1 = Some T
    /\ Context.view c' st1 = Some T
    /\ Context.separate st1 c' c
    /\ Context.separate st1 c c'.
Proof.
  intros Hview. pose proof Hview as Hv. unfold Context.view in Hv.
  destruct (Context.contexts st !! c) as [x|] eqn:Hx; [|done]. simpl in Hv.
  destruct (Context.ifaceMaps st !! Context.data x) as [d|] eqn:Hd; [|done]. simpl in Hv.
  destruct (Context.sliceMaps st !! Context.stacks x) as [sm|] eqn:Hs; [|done]. simpl in Hv.
  destruct (Context.stringMaps st !! Context.sections x) as [sec|] eqn:Hsec; [|done].
  simpl in Hv.
  destruct (Context.deref (Context.sliceMaps st) (Context.errors x)) as [em|] eqn:He;
    [|done]. simpl in Hv.
  destruct (Context.deref (Context.stringMaps st) (Context.old x)) as [o|] eqn:Ho;
    [|done]. simpl in Hv.
  destruct (Context.read_all (Context.arrays st) sm) as [ts|] eqn:Hts; [|done]. simpl in Hv.
  destruct (Context.read_all (Context.arrays st) em) as [te|] eqn:Hte; [|done]. simpl in Hv.
  injection Hv as <-.
  destruct (Clone_shape st c x d sm sec em o ts te Hx Hd Hs Hsec He Ho Hts Hte)
    as (c' & d' & sa' & e' & sec' & o' & sm1 & e1 & arrs1 & arrs2 & Hclone
        & Hc' & Hd' & Hsa' & He' & Hes & Hsec' & Ho' & Hos & Hcop1 & Hcop2).
  (* the new addresses differ from everything the original reaches *)
  assert (Hc_ne : c' <> c) by (eapply not_in_dom_ne; [exact Hc'|by eexists]).
  assert (Hd_ne : d' <> Context.data x) by (eapply not_in_dom_ne; [exact Hd'|by eexists]).
  assert (Hs_ne : sa' <> Context.stacks x) by (eapply not_in_dom_ne; [exact Hsa'|by eexists]).
  assert (He_ne : e' <> Context.stacks x) by (eapply not_in_dom_ne; [exact He'|by eexists]).
  assert (Hsec_ne : sec' <> Context.sections x)
    by (eapply not_in_dom_ne; [exact Hsec'|by eexists]).
  assert (Ho_ne : o' <> Context.sections x)
    by (eapply not_in_dom_ne; [exact Ho'|by eexists]).
  assert (Herr_ne : forall a, Context.errors x = Some a -> sa' <> a /\ e' <> a).
  { intros a Ha. rewrite Ha in He. simpl in He.
    split; (eapply not_in_dom_ne; [eassumption|by eexists]). }
  assert (Hold_ne : forall a, Context.old x = Some a -> sec' <> a /\ o' <> a).
  { intros a Ha. rewrite Ha in Ho. simpl in Ho.
    split; (eapply not_in_dom_ne; [eassumption|by eexists]). }
  assert (Hext12 : Context.extends arrs1 arrs2) by apply Hcop2.
  assert (Hext01 : Context.extends (Context.arrays st) arrs1) by apply Hcop1.
  assert (Hext02 : Context.extends (Context.arrays st) arrs2)
    by (by eapply extends_trans).
  assert (Hobs_dom : forall b, Context.observed st x b -> b ∈ dom (Context.arrays st)).
  { intros b [(m & Hm & Hr)|(a & m & Ha & Hm & Hr)].
    - rewrite Hs in Hm. injection Hm as <-.
      exact (read_all_refs_dom _ _ _ _ Hts Hr).
    - rewrite Ha in He. simpl in He. rewrite He in Hm. injection Hm as <-.
      exact (read_all_refs_dom _ _ _ _ Hte Hr). }
  set (x' := Context.MkFields d' sa' sec' (Some e') (Some o')) in *.
  match type of Hclone with _ = Some (?S, _) => set (st1 := S) in * end.
  assert (Hx1 : Context.contexts st1 !! c = Some x)
    by (simpl; by rewrite lookup_insert_ne).
  assert (Hx1' : Context.contexts st1 !! c' = Some x')
    by (simpl; by rewrite lookup_insert_eq).
  assert (Hslice_old : forall a, a <> sa' -> a <> e' ->
            Context.sliceMaps st1 !! a = Context.sliceMaps st !! a).
  { intros a H1 H2. simpl. by rewrite !lookup_insert_ne. }
  assert (Hstr_old : forall a, a <> sec' -> a <> o' ->
            Context.stringMaps st1 !! a = Context.stringMaps st !! a).
  { intros a H1 H2. simpl. by rewrite !lookup_insert_ne. }
  assert (Hs1 : Context.sliceMaps st1 !! sa' = Some sm1)
    by (simpl; rewrite lookup_insert_ne by done; by rewrite lookup_insert_eq).
  assert (He1 : Context.sliceMaps st1 !! e' = Some e1)
    by (simpl; by rewrite lookup_insert_eq).
  assert (Hde : Context.deref (Context.sliceMaps st1) (Context.errors x)
                = Context.deref (Context.sliceMaps st) (Context.errors x)).
  { destruct (Context.errors x) as [a|] eqn:Ha; [|done]. simpl.
    destruct (Herr_ne a eq_refl). by apply Hslice_old. }
  assert (Hdo : Context.deref (Context.stringMaps st1) (Context.old x)
                = Context.deref (Context.stringMaps st) (Context.old x)).
  { destruct (Context.old x) as [a|] eqn:Ha; [|done]. simpl.
    destruct (Hold_ne a eq_refl). by apply Hstr_old. }
  assert (Hobs1 : forall b, Context.observed st1 x b -> Context.observed st x b).
  { intros b [(m & Hm & Hr)|(a & m & Ha & Hm & Hr)].
    - left. exists m. split; [|done]. rewrite <- Hm. symmetry. by apply Hslice_old.
    - right. exists a, m. split; [done|]. split; [|done].
      destruct (Herr_ne a Ha). rewrite <- Hm. symmetry. by apply Hslice_old. }
  assert (Hobs1' : forall b, Context.observed st1 x' b ->
                     Context.refs sm1 b \/ Context.refs e1 b).
  { intros b [(m & Hm & Hr)|(a & m & Ha & Hm & Hr)].
    - left. change (Context.stacks x') with sa' in Hm. rewrite Hs1 in Hm.
      by injection Hm as <-.
    - right. simpl in Ha. injection Ha as <-. rewrite He1 in Hm. by injection Hm as <-. }
  assert (Hd1 : Context.ifaceMaps st1 !! d' = Some d)
    by (simpl; by rewrite lookup_insert_eq).
  assert (Hd1o : Context.ifaceMaps st1 !! Context.data x
                 = Context.ifaceMaps st !! Context.data x)
    by (simpl; by rewrite !lookup_insert_ne).
  assert (Hsec1 : Context.stringMaps st1 !! sec' = Some sec)
    by (simpl; rewrite lookup_insert_ne by done; by rewrite lookup_insert_eq).
  assert (Ho1 : Context.stringMaps st1 !! o' = Some o)
    by (simpl; by rewrite lookup_insert_eq).
  assert (Ha1 : Context.arrays st1 = arrs2) by reflexivity.
  clearbody st1.
  exists st1, c'. split; [exact Hclone|]. split; [exact Hc_ne|]. split; [|split; [|split]].
  - (* the original shows the same tables *)
    rewrite <- Hview. apply (view_frame st st1 c x); try done.
    + by apply Hslice_old.
    + by apply Hstr_old.
    + intros b Hb. rewrite Ha1. apply Hext02. by apply Hobs_dom.
  - (* the clone shows them too *)
    unfold Context.view. rewrite Hx1'. simpl.
    rewrite Hd1, Hs1, Hsec1, He1, Ho1, Ha1. simpl.
    rewrite (copied_read_all _ _ arrs2 _ _ ts Hcop1 Hext12 Hts). simpl.
    rewrite (copied_read_all arrs1 arrs2 arrs2 em e1 te Hcop2 (extends_refl _)); [done|].
    rewrite (read_all_frame (Context.arrays st) arrs1 em); [done|].
    intros b Hb. apply Hext01. exact (read_all_refs_dom _ _ _ _ Hte Hb).
  - (* writes through the clone cannot reach the original *)
    exists x', x. split; [exact Hc_ne|]. split; [exact Hx1'|]. split; [exact Hx1|].
    split; [exact Hd_ne|]. split; [exact Hs_ne|].
    split; [intros Ha; by destruct (Herr_ne sa' Ha)|].
    split; [exact Hsec_ne|].
    split; [intros Ha; by destruct (Hold_ne sec' Ha)|].
    split.
    + intros mx b Hmx Hr Hobs. simpl in Hmx. rewrite Hs1 in Hmx. injection Hmx as <-.
      destruct (copied_refs _ _ _ _ _ Hcop1 Hr) as [Hnew _].
      by apply Hnew, Hobs_dom, Hobs1.
    + intros b Hobs. rewrite Ha1. eapply extends_dom; [exact Hext02|].
      by apply Hobs_dom, Hobs1.
  - (* writes through the original cannot reach the clone *)
    exists x, x'. split; [congruence|]. split; [exact Hx1|]. split; [exact Hx1'|].
    split; [simpl; congruence|]. split; [simpl; congruence|].
    split; [simpl; congruence|]. split; [simpl; congruence|].
    split; [simpl; congruence|].
    split.
    + intros mx b Hmx Hr Hobs.
      rewrite Hslice_old in Hmx by congruence. rewrite Hs in Hmx. injection Hmx as <-.
      assert (Hb : b ∈ dom (Context.arrays st))
        by exact (read_all_refs_dom _ _ _ _ Hts Hr).
      destruct (Hobs1' b Hobs) as [Hr1|Hr1].
      * destruct (copied_refs _ _ _ _ _ Hcop1 Hr1) as [Hnew _]. by apply Hnew.
      * destruct (copied_refs _ _ _ _ _ Hcop2 Hr1) as [Hnew _]. apply Hnew.
        exact (extends_dom _ _ _ Hext01 Hb).
    + intros b Hobs. rewrite Ha1. destruct (Hobs1' b Hobs) as [Hr1|Hr1].
      * destruct (copied_refs _ _ _ _ _ Hcop1 Hr1) as [_ Hin].
        exact (extends_dom _ _ _ Hext12 Hin).
      * by destruct (copied_refs _ _ _ _ _ Hcop2 Hr1) as [_ Hin].
Qed.


End ContextFacts.


(** ** The compiled text of the documented examples *)

(** C8. The template [@push('s')A@endpush @push('s')B@endpush@stack('s')]
    is compiled to the single action [{{ stack "s" }}] (after the blank
    between the two pushes); the pushed fragments stay in the tables of
    the compiler, [processStacks] returns the text unchanged, and no
    function [stack] is defined, so [RenderTemplate] ends in a parse
    failure instead of the text [AB] (and likewise with the prepended
    [Z]). *)
Theorem stack_action_calls_undefined_function :
  Engine.compileString "@push('s')A@endpush @push('s')B@endpush@stack('s')"
    = Engine.Ok (" {{ stack " +:+ Str.dq +:+ "s" +:+ Str.dq +:+ " }}")
  /\ (Compiler.pushes <$>
        Engine.compiler_after "@push('s')A@endpush @push('s')B@endpush@stack('s')")
     = Some {["s" := ["A"; "B"]]}
  /\ Engine.function_defined "stack" = false
  /\ Engine.RenderTemplate "@push('s')A@endpush @push('s')B@endpush@stack('s')"
     = Engine.ParseFails "stack"
  /\ Engine.RenderTemplate
       "@prepend('s')Z@endprepend@push('s')A@endpush @push('s')B@endpush@stack('s')"
     = Engine.ParseFails "stack".
Proof. repeat split; vm_compute; reflexivity. Qed.

(** C2. [{{ $x }}] is compiled to [{{ html .x }}] and [{!! $x !!}] to
    [{{ .x }}], the plain output action of the template library, with
    nothing that marks the value as safe HTML. *)
Theorem raw_echo_compiles_to_plain_action :
  Engine.compileString "{{ $x }}" = Engine.Ok "{{ html .x }}"
  /\ Engine.compileString "{!! $x !!}" = Engine.Ok "{{ .x }}"
  /\ Engine.RenderTemplate "{!! $x !!}" = Engine.HandedOver "{{ .x }}".
Proof. repeat split; vm_compute; reflexivity. Qed.

(** C4. In the body of a compiled [@foreach] the loop record is bound
    to the template variable [$loop], but [$loop.iteration] is
    rewritten to [.loop.iteration], a field chain on the current
    element. *)
Theorem foreach_reads_loop_from_dot :
  Compiler.transformExpression "$loop.iteration" = ".loop.iteration"
  /\ Engine.compileString "@foreach($items as $item){{ $loop.iteration }}@endforeach"
     = Engine.Ok ("{{ $__loop1 := newLoop (len .items) 1 }}"
                  +:+ "{{ range $__idx1, $item := .items }}"
                  +:+ "{{ $loop := $__loop1.Update $__idx1 }}"
                  +:+ "{{ html .loop.iteration }}{{ end }}").
Proof. split; vm_compute; reflexivity. Qed.

Lemma NewLoop_lookup h count depth :
  (Loop.NewLoop h count depth).1 !! (Loop.NewLoop h count depth).2
  = Some (Loop.NewLoop_rec count depth).
Proof. apply alloc_lookup_new. Qed.

(** The one place of the runtime that writes a parent link:
    [LoopStack.Push] on a stack that is not empty sets [Parent] to the
    record on top. *)
Lemma Push_links_parent (h : Loop.heap) (s : Loop.LoopStack) (top loop : positive)
    (r : Loop.t) :
  Loop.Current s = Some top ->
  h !! loop = Some r ->
  exists h',
    Loop.Push h s loop = Some (h', s ++ [loop])
    /\ (Loop.Parent <$> h' !! loop) = Some (Some top).
Proof.
  unfold Loop.Current, Loop.Push. intros Htop Hr. rewrite Hr. simpl.
  destruct (List.rev s) as [|t rest]; [discriminate|].
  injection Htop as ->.
  eexists. split; [reflexivity|].
  rewrite lookup_insert_eq. reflexivity.
Qed.

(** C5. Nested [@foreach] loops are compiled to two [newLoop] records
    that are never pushed on a [LoopStack]; a record made by [NewLoop]
    has no parent and [Update] copies the parent link, so the loop
    record of the inner body has a nil [Parent]; and
    [$loop.parent.iteration] is rewritten to a field chain on the
    current element. *)
Theorem nested_loop_record_has_no_parent :
  Engine.compileString
    "@foreach($a as $x)@foreach($b as $y){{ $loop.parent.iteration }}@endforeach@endforeach"
  = Engine.Ok ("{{ $__loop1 := newLoop (len .a) 1 }}{{ range $__idx1, $x := .a }}"
               +:+ "{{ $loop := $__loop1.Update $__idx1 }}"
               +:+ "{{ $__loop2 := newLoop (len .b) 2 }}{{ range $__idx2, $y := .b }}"
               +:+ "{{ $loop := $__loop2.Update $__idx2 }}"
               +:+ "{{ html .loop.parent.iteration }}{{ end }}{{ end }}")
  /\ forall (h : Loop.heap) (count depth i : Z),
       exists h' a' r,
         Loop.Update (Loop.NewLoop h count depth).1 (Loop.NewLoop h count depth).2 i
           = Some (h', a')
         /\ h' !! a' = Some r
         /\ Loop.Parent r = None.
Proof.
  split; [vm_compute; reflexivity|].
  intros h count depth i. unfold Loop.Update. rewrite NewLoop_lookup. simpl.
  eexists _, _, _. split; [reflexivity|]. split; [apply lookup_insert_eq|reflexivity].
Qed.

(** ** The loop stack *)

Lemma rev_snoc_cons {A} (s : list A) (x : A) : List.rev (s ++ [x]) = x :: List.rev s.
Proof. by rewrite List.rev_app_distr. Qed.

(** X1. [Push] followed by [Pop] gives back the pushed record and the
    stack as it was; after [Push] the record is the current one, the
    depth of the stack is one more, the record's [Depth] is the new
    stack depth and its [Parent] the previous top (unchanged on an
    empty stack); no other record of the store is written.  On the
    empty stack [Pop] and [Current] return nil. *)
Theorem Push_then_Pop (h : Loop.heap) (s : Loop.LoopStack) (loop : positive)
    (r : Loop.t) :
  h !! loop = Some r ->
  Loop.StackDepth s < GoInt.max_int ->
  Loop.Pop Loop.NewLoopStack = (None, Loop.NewLoopStack)
  /\ Loop.Current Loop.NewLoopStack = None
  /\ exists h' r',
       Loop.Push h s loop = Some (h', s ++ [loop])
       /\ Loop.Pop (s ++ [loop]) = (Some loop, s)
       /\ Loop.Current (s ++ [loop]) = Some loop
       /\ Loop.StackDepth (s ++ [loop]) = Loop.StackDepth s + 1
       /\ h' !! loop = Some r'
       /\ Loop.Depth r' = Loop.StackDepth (s ++ [loop])
       /\ Loop.Parent r' = match Loop.Current s with
                           | Some top => Some top
                           | None => Loop.Parent r
                           end
       /\ Loop.Index r' = Loop.Index r
       /\ Loop.Iteration r' = Loop.Iteration r
       /\ Loop.Count r' = Loop.Count r
       /\ (forall a, a <> loop -> h' !! a = h !! a).
Proof.
  intros Hr Hd. split; [reflexivity|]. split; [reflexivity|].
  assert (Hlen : Loop.StackDepth (s ++ [loop]) = Loop.StackDepth s + 1).
  { unfold Loop.StackDepth. rewrite length_app. simpl. lia. }
  unfold Loop.Push. rewrite Hr. simpl.
  eexists _, _. split; [reflexivity|].
  split; [unfold Loop.Pop; by rewrite rev_snoc_cons, List.rev_involutive|].
  split; [unfold Loop.Current; by rewrite rev_snoc_cons|].
  split; [exact Hlen|].
  split; [apply lookup_insert_eq|].
  split.
  { simpl. rewrite Hlen. unfold GoInt.add. apply wrap_id.
    unfold Loop.StackDepth, GoInt.in_int, GoInt.min_int, GoInt.max_int in *. lia. }
  split; [unfold Loop.Current; by destruct (List.rev s)|].
  repeat split; try reflexivity.
  intros a Ha. by rewrite lookup_insert_ne.
Qed.

Lemma Push_then_Pop_witness :
  exists h' r',
    Loop.Push (Loop.NewLoop ∅ 3 1).1 [] (Loop.NewLoop ∅ 3 1).2 = Some (h', [(Loop.NewLoop ∅ 3 1).2])
    /\ Loop.Pop [(Loop.NewLoop ∅ 3 1).2] = (Some (Loop.NewLoop ∅ 3 1).2, [])
    /\ h' !! (Loop.NewLoop ∅ 3 1).2 = Some r'
    /\ Loop.Depth r' = 1.
Proof.
  destruct (Push_then_Pop (Loop.NewLoop ∅ 3 1).1 [] (Loop.NewLoop ∅ 3 1).2
              (Loop.NewLoop_rec 3 1))
    as (_ & _ & h' & r' & H1 & H2 & _ & _ & H3 & H4 & _).
  - apply alloc_lookup_new.
  - unfold Loop.StackDepth, GoInt.max_int. simpl. lia.
  - exists h', r'. split; [exact H1|]. split; [exact H2|]. split; [exact H3|exact H4].
Defined.

(** X2. In a loop of known length [Count l], the record that [Update]
    builds for the pass with index [i] counts consistently: iteration
    number and remaining passes add up to the count, [First] holds
    exactly in iteration 1, [Last] exactly when nothing remains, and
    [Even] tells the parity of the iteration number, [Odd] being its
    negation. *)
Theorem Update_counts_passes (l : Loop.t) (i : Z) :
  GoInt.in_int (Loop.Count l) ->
  0 <= i < Loop.Count l ->
  let l' := Loop.Update_rec l i in
  Loop.Iteration l' + Loop.Remaining l' = Loop.Count l
  /\ 1 <= Loop.Iteration l' <= Loop.Count l
  /\ 0 <= Loop.Remaining l'
  /\ (Loop.First l' = true <-> Loop.Iteration l' = 1)
  /\ (Loop.Last l' = true <-> Loop.Remaining l' = 0)
  /\ Loop.Even l' = Z.even (Loop.Iteration l')
  /\ Loop.Odd l' = Z.odd (Loop.Iteration l').
Proof.
  intros Hc Hi l'. subst l'. unfold Loop.Update_rec. simpl.
  unfold GoInt.in_int, GoInt.min_int, GoInt.max_int in Hc.
  assert (Hadd : GoInt.add i 1 = i + 1).
  { apply wrap_id. unfold GoInt.in_int, GoInt.min_int, GoInt.max_int. lia. }
  assert (Hs1 : GoInt.sub (Loop.Count l) i = Loop.Count l - i).
  { apply wrap_id. unfold GoInt.in_int, GoInt.min_int, GoInt.max_int. lia. }
  assert (Hs2 : GoInt.sub (Loop.Count l - i) 1 = Loop.Count l - i - 1).
  { apply wrap_id. unfold GoInt.in_int, GoInt.min_int, GoInt.max_int. lia. }
  assert (Hs3 : GoInt.sub (Loop.Count l) 1 = Loop.Count l - 1).
  { apply wrap_id. unfold GoInt.in_int, GoInt.min_int, GoInt.max_int. lia. }
  destruct (Z.leb_spec 0 (Loop.Count l)); [|lia]. simpl.
  rewrite Hadd, Hs1, Hs2, Hs3. unfold GoInt.rem.
  rewrite Z.rem_mod_nonneg by lia.
  repeat split; try lia.
  - rewrite Zeven_mod. reflexivity.
  - rewrite Zodd_mod. reflexivity.
Qed.

Lemma Update_counts_passes_witness :
  Loop.Iteration (Loop.Update_rec (Loop.NewLoop_rec 3 1) 2)
  + Loop.Remaining (Loop.Update_rec (Loop.NewLoop_rec 3 1) 2) = 3.
Proof.
  refine (proj1 (Update_counts_passes (Loop.NewLoop_rec 3 1) 2 _ _)).
  - unfold GoInt.in_int, GoInt.min_int, GoInt.max_int. simpl. lia.
  - simpl. lia.
Defined.

(** ** The built-in functions [seq] and [until] *)

Lemma fill_up (s : Z) (n : nat) :
  GoInt.min_int <= s ->
  s + Z.of_nat n <= GoInt.max_int + 1 ->
  Engine.fill n (fun i => GoInt.add s i) = seqZ s (Z.of_nat n).
Proof.
  intros Hlo Hhi. unfold Engine.fill.
  apply list_eq. intros i. rewrite list_lookup_fmap.
  destruct (decide (i < n)%nat) as [Hi|Hi].
  - rewrite !lookup_seqZ_lt by lia. simpl. f_equal.
    unfold GoInt.add. apply wrap_id. unfold GoInt.in_int. lia.
  - rewrite !lookup_seqZ_ge by lia. reflexivity.
Qed.

Lemma fill_down (s : Z) (n : nat) :
  s <= GoInt.max_int ->
  GoInt.min_int - 1 <= s - Z.of_nat n ->
  Engine.fill n (fun i => GoInt.sub s i) = reverse (seqZ (s - Z.of_nat n + 1) (Z.of_nat n)).
Proof.
  intros Hhi Hlo. unfold Engine.fill.
  apply list_eq. intros i. rewrite list_lookup_fmap.
  destruct (decide (i < n)%nat) as [Hi|Hi].
  - rewrite lookup_seqZ_lt by lia. simpl.
    rewrite reverse_lookup by (rewrite length_seqZ; lia).
    rewrite length_seqZ. rewrite lookup_seqZ_lt by lia. f_equal.
    unfold GoInt.sub. rewrite wrap_id by (unfold GoInt.in_int; lia). lia.
  - rewrite lookup_seqZ_ge by lia. simpl. symmetry.
    apply lookup_ge_None_2. rewrite length_reverse, length_seqZ. lia.
Qed.

Lemma fill_id (n : nat) : Engine.fill n (fun i => i) = seqZ 0 (Z.of_nat n).
Proof. unfold Engine.fill. apply list_fmap_id. Qed.

Lemma make_ints_some (n : Z) :
  0 <= n -> 8 * n <= Engine.maxAlloc -> Engine.make_ints n = Some (Z.to_nat n).
Proof.
  intros H0 H1. unfold Engine.make_ints.
  destruct (Z.ltb_spec n 0); [lia|]. destruct (Z.ltb_spec Engine.maxAlloc (8 * n)); [lia|].
  reflexivity.
Qed.

Lemma make_ints_none (n : Z) :
  n < 0 \/ Engine.maxAlloc < 8 * n -> Engine.make_ints n = None.
Proof.
  intros H. unfold Engine.make_ints.
  destruct (Z.ltb_spec n 0); [reflexivity|].
  destruct (Z.ltb_spec Engine.maxAlloc (8 * n)); [reflexivity|lia].
Qed.

(** The length that [seq] hands to [make]: [|e - s| + 1] in 64-bit
    arithmetic. *)
Lemma seq_length_wraps (a b : Z) :
  GoInt.in_int a -> GoInt.in_int b -> b <= a ->
  let n := a - b + 1 in
  GoInt.add (GoInt.sub a b) 1 =
    if n <? 2 ^ 63 then n else n - 2 ^ 64.
Proof.
  unfold GoInt.in_int, GoInt.min_int, GoInt.max_int, GoInt.add, GoInt.sub, GoInt.wrap.
  intros Ha Hb Hle. cbv zeta.
  destruct (Z.ltb_spec (a - b + 1) (2 ^ 63)) as [Hn|Hn].
  - rewrite (Z.mod_small (a - b + 2 ^ 63)) by lia.
    replace (a - b + 2 ^ 63 - 2 ^ 63 + 1 + 2 ^ 63) with (a - b + 1 + 2 ^ 63) by lia.
    rewrite Z.mod_small by lia. lia.
  - destruct (Z.eq_dec (a - b + 1) (2 ^ 63)) as [He|Hne].
    + rewrite (Z.mod_small (a - b + 2 ^ 63)) by lia.
      replace (a - b + 2 ^ 63 - 2 ^ 63 + 1 + 2 ^ 63) with (0 + 1 * 2 ^ 64) by lia.
      rewrite Z.mod_add by lia. rewrite Z.mod_small by lia. lia.
    + replace (a - b + 2 ^ 63) with ((a - b - 2 ^ 63) + 1 * 2 ^ 64) by lia.
      rewrite Z.mod_add by lia. rewrite (Z.mod_small (a - b - 2 ^ 63)) by lia.
      replace (a - b - 2 ^ 63 - 2 ^ 63 + 1 + 2 ^ 63) with (a - b + 1 - 2 ^ 63) by lia.
      rewrite Z.mod_small by lia. lia.
Qed.

(** X3. [seq s e] counts from [s] to [e] with both ends included,
    upwards when [s <= e] and downwards otherwise, as long as [make]
    allots the [|e - s| + 1] elements (at most [maxAlloc / 8]); for a
    greater distance the call panics, except that at the greatest
    distance of all, [2 ^ 64] elements between the least and the
    greatest [int], the length wraps to 0 and the result is empty.
    [until n] counts from 0 to [n - 1] (nothing for [n <= 0]) and
    panics beyond [maxAlloc / 8] elements. *)
Theorem seq_counts_inclusive (s e : Z) :
  GoInt.in_int s -> GoInt.in_int e ->
  let n := Z.abs (e - s) + 1 in
  (8 * n <= Engine.maxAlloc ->
     Engine.seq s e = Some (if e <? s then reverse (seqZ e n) else seqZ s n))
  /\ (Engine.maxAlloc < 8 * n -> n < 2 ^ 64 -> Engine.seq s e = None)
  /\ (n = 2 ^ 64 -> Engine.seq s e = Some [])
  /\ (forall c, GoInt.in_int c ->
        (8 * c <= Engine.maxAlloc -> Engine.until c = Some (seqZ 0 c))
        /\ (Engine.maxAlloc < 8 * c -> Engine.until c = None)).
Proof.
  intros Hs He. cbv zeta.
  assert (Hm : Engine.maxAlloc = 2 ^ 48) by reflexivity.
  assert (Hlen : forall a b, GoInt.in_int a -> GoInt.in_int b -> b <= a ->
            (8 * (a - b + 1) <= Engine.maxAlloc ->
               Engine.make_ints (GoInt.add (GoInt.sub a b) 1) = Some (Z.to_nat (a - b + 1)))
            /\ (Engine.maxAlloc < 8 * (a - b + 1) -> a - b + 1 < 2 ^ 64 ->
               Engine.make_ints (GoInt.add (GoInt.sub a b) 1) = None)
            /\ (a - b + 1 = 2 ^ 64 ->
               Engine.make_ints (GoInt.add (GoInt.sub a b) 1) = Some O)).
  { intros a b Ha Hb Hle. pose proof (seq_length_wraps a b Ha Hb Hle) as Hw.
    cbv zeta in Hw. rewrite Hw. clear Hw.
    destruct (Z.ltb_spec (a - b + 1) (2 ^ 63)) as [Hn|Hn]; repeat split.
    - intros. apply make_ints_some; lia.
    - intros. apply make_ints_none. lia.
    - intros. lia.
    - intros. lia.
    - intros. apply make_ints_none. lia.
    - intros Heq. rewrite Heq. reflexivity. }
  assert (Hu : forall c, GoInt.in_int c ->
        (8 * c <= Engine.maxAlloc -> Engine.until c = Some (seqZ 0 c))
        /\ (Engine.maxAlloc < 8 * c -> Engine.until c = None)).
  { intros c Hc. unfold Engine.until. split; intros Hn.
    - destruct (Z.leb_spec c 0) as [Hle|Hgt].
      + unfold seqZ. by replace (Z.to_nat c) with O by lia.
      + rewrite make_ints_some by lia. cbn [mbind option_bind].
        rewrite fill_id. by rewrite Z2Nat.id by lia.
    - destruct (Z.leb_spec c 0) as [Hle|Hgt]; [lia|].
      by rewrite make_ints_none by lia. }
  unfold Engine.seq.
  destruct (Z.ltb_spec e s) as [Hlt|Hge].
  - replace (Z.abs (e - s) + 1) with (s - e + 1) by lia.
    destruct (Hlen s e Hs He ltac:(lia)) as (H1 & H2 & H3).
    split; [|split; [|split]]; [| | |exact Hu].
    + intros Hn. rewrite (H1 Hn). cbn [mbind option_bind].
      rewrite fill_down by (unfold GoInt.in_int, GoInt.min_int in *; lia).
      rewrite Z2Nat.id by lia. do 3 f_equal. lia.
    + intros Hn Hn'. by rewrite (H2 Hn Hn').
    + intros Hn. by rewrite (H3 Hn).
  - replace (Z.abs (e - s) + 1) with (e - s + 1) by lia.
    destruct (Hlen e s He Hs ltac:(lia)) as (H1 & H2 & H3).
    split; [|split; [|split]]; [| | |exact Hu].
    + intros Hn. rewrite (H1 Hn). cbn [mbind option_bind].
      rewrite fill_up by (unfold GoInt.in_int, GoInt.min_int in *; lia).
      by rewrite Z2Nat.id by lia.
    + intros Hn Hn'. by rewrite (H2 Hn Hn').
    + intros Hn. by rewrite (H3 Hn).
Qed.

Lemma seq_counts_inclusive_witness :
  Engine.seq 0 3 = Some [0; 1; 2; 3]
  /\ Engine.seq 5 3 = Some [5; 4; 3]
  /\ Engine.until 3 = Some [0; 1; 2]
  /\ Engine.seq 0 (2 ^ 62) = None
  /\ Engine.until (2 ^ 62) = None
  /\ Engine.seq GoInt.min_int GoInt.max_int = Some [].
Proof.
  assert (Hin : forall z, - 2 ^ 63 <= z <= 2 ^ 63 - 1 -> GoInt.in_int z)
    by (intros z Hz; exact Hz).
  assert (Hm : Engine.maxAlloc = 2 ^ 48) by reflexivity.
  split; [|split; [|split; [|split; [|split]]]].
  - refine (proj1 (seq_counts_inclusive 0 3 _ _) _); [apply Hin; lia|apply Hin; lia|].
    rewrite Hm. simpl. lia.
  - refine (proj1 (seq_counts_inclusive 5 3 _ _) _); [apply Hin; lia|apply Hin; lia|].
    rewrite Hm. simpl. lia.
  - refine (proj1 (proj2 (proj2 (proj2 (seq_counts_inclusive 0 3 _ _))) 3 _) _);
      [apply Hin; lia|apply Hin; lia|apply Hin; lia|]. rewrite Hm. lia.
  - refine (proj1 (proj2 (seq_counts_inclusive 0 (2 ^ 62) _ _)) _ _);
      [apply Hin; lia|apply Hin; lia| |]; [rewrite Hm|]; simpl; lia.
  - refine (proj2 (proj2 (proj2 (proj2 (seq_counts_inclusive 0 3 _ _))) (2 ^ 62) _) _);
      [apply Hin; lia|apply Hin; lia|apply Hin; lia|]. rewrite Hm. lia.
  - refine (proj1 (proj2 (proj2 (seq_counts_inclusive GoInt.min_int GoInt.max_int _ _))) _);
      [apply Hin; unfold GoInt.min_int; lia|apply Hin; unfold GoInt.max_int; lia|].
    unfold GoInt.min_int, GoInt.max_int. simpl. lia.
Defined.

(** ** Facts about template paths *)

Lemma HasPrefix_cons b s a p :
  Str.HasPrefix (String b s) (String a p) =
    if Ascii.eqb a b then Str.HasPrefix s p else false.
Proof. reflexivity. Qed.

Lemma HasPrefix_nil s : Str.HasPrefix s EmptyString = true.
Proof. by destruct s. Qed.

Lemma Contains_dot_cons c s :
  Str.Contains (String c s) "." = Ascii.eqb "." c || Str.Contains s ".".
Proof.
  unfold Str.Contains. rewrite Index_cons, HasPrefix_cons, HasPrefix_nil.
  destruct (Ascii.eqb "." c); [reflexivity|].
  by destruct (Str.Index s ".").
Qed.

Lemma Contains_dot_app a b :
  Str.Contains a "." = false -> Str.Contains b "." = false ->
  Str.Contains (a +:+ b) "." = false.
Proof.
  intros Ha Hb. induction a as [|c a IH]; [exact Hb|].
  change (String c a +:+ b) with (String c (a +:+ b)).
  rewrite Contains_dot_cons in *. apply orb_false_iff in Ha as [Hc Ha].
  by rewrite Hc, IH.
Qed.

Lemma Contains_dot_drop n s :
  Str.Contains s "." = false -> Str.Contains (Str.drop n s) "." = false.
Proof.
  revert s. induction n as [|n IH]; intros s Hs; [exact Hs|].
  destruct s as [|c s]; [exact Hs|]. simpl. apply IH.
  rewrite Contains_dot_cons in Hs. by apply orb_false_iff in Hs as [_ Hs].
Qed.

(** Replacing every dot by a text without dots leaves no dot. *)
Lemma ReplaceAll_no_dot s sep :
  Str.Contains sep "." = false ->
  Str.Contains (Str.ReplaceAll s "." sep) "." = false.
Proof.
  intros Hsep. unfold Str.ReplaceAll. induction s as [|c s IH]; [reflexivity|].
  change (Str.replace_from "." sep 0 (String c s)) with
    (if Str.HasPrefix (String c s) "."
     then sep +:+ Str.replace_from "." sep 0 s
     else String c (Str.replace_from "." sep 0 s)).
  rewrite HasPrefix_cons, HasPrefix_nil. destruct (Ascii.eqb "." c) eqn:Hc.
  - by apply Contains_dot_app.
  - rewrite Contains_dot_cons, Hc. exact IH.
Qed.

Lemma HasSuffix_dot x e :
  Str.Contains x "." = false -> Str.HasSuffix x (String "." e) = false.
Proof.
  intros Hx. unfold Str.HasSuffix. apply andb_false_iff. right.
  apply String.eqb_neq. intros He.
  pose proof (Contains_dot_drop (Str.len x - Str.len (String "." e)) x Hx) as Hd.
  rewrite He, Contains_dot_cons in Hd. discriminate Hd.
Qed.

Lemma WithExtension_dot ext : exists e, Engine.WithExtension ext = String "." e.
Proof.
  unfold Engine.WithExtension. destruct (Str.HasPrefix ext ".") eqn:Hp; simpl.
  - destruct ext as [|c r]; [discriminate Hp|].
    rewrite HasPrefix_cons in Hp. destruct (Ascii.eqb_spec "." c) as [<-|]; [|discriminate Hp].
    by exists r.
  - by exists ext.
Qed.

(** X4. The engine's extension always starts with a dot ([New] sets
    [.legit], [WithExtension] puts a dot in front of an extension
    without one).  With a path separator without dots, [resolvePath]
    turns every dot of the template name into a separator and then
    always appends the extension: the test for a name that already
    ends in the extension comes after the replacement and can no
    longer succeed, so the name [home.legit] resolves to
    [home/legit.legit]. *)
Theorem resolvePath_always_appends_extension
    (viewsPath ext Separator : string) (Join : string -> string -> string)
    (name : string) :
  Str.Contains Separator "." = false ->
  Engine.resolvePath viewsPath (Engine.WithExtension ext) Separator Join name =
    Join viewsPath (Str.ReplaceAll name "." Separator +:+ Engine.WithExtension ext)
  /\ Str.Contains (Str.ReplaceAll name "." Separator) "." = false.
Proof.
  intros Hsep. pose proof (ReplaceAll_no_dot name Separator Hsep) as Hno.
  split; [|exact Hno].
  destruct (WithExtension_dot ext) as [e ->].
  unfold Engine.resolvePath. by rewrite (HasSuffix_dot _ e Hno).
Qed.

Lemma resolvePath_always_appends_extension_witness :
  Engine.resolvePath "views" ".legit" "/" Engine.slash_join "home.legit"
  = "views/home/legit.legit".
Proof.
  exact (proj1 (resolvePath_always_appends_extension "views" "legit" "/"
                  Engine.slash_join "home.legit" eq_refl)).
Defined.

(** ** The render context as maps and lists *)

Section ContextModel.

Context (V : Type) (growcap : nat -> nat -> nat).

Implicit Types (arrs : gmap positive (list string)) (s : Context.slice)
  (m : gmap string Context.slice) (st : Context.store V).

Lemma wf_nil arrs : Context.wf_slice arrs Context.nil_slice.
Proof. by split. Qed.

Lemma wf_frame arrs arrs' s :
  (forall b, Context.base s = Some b -> arrs' !! b = arrs !! b) ->
  Context.wf_slice arrs s -> Context.wf_slice arrs' s.
Proof.
  unfold Context.wf_slice. intros H. destruct (Context.base s) as [b|]; [|done].
  by rewrite (H b eq_refl).
Qed.

Lemma wf_base_dom arrs s b :
  Context.wf_slice arrs s -> Context.base s = Some b -> b ∈ dom arrs.
Proof.
  unfold Context.wf_slice. intros Hwf Hb. rewrite Hb in Hwf.
  destruct Hwf as (arr & Ha & _). apply elem_of_dom. by eexists.
Qed.

Lemma new_array_wf arrs oldcap xs arrs' s' :
  Context.new_array growcap arrs oldcap xs = (arrs', s') ->
  Context.wf_slice arrs' s'.
Proof.
  unfold Context.new_array. intros [= <- <-]. unfold Context.wf_slice. simpl.
  eexists. split; [apply lookup_insert_eq|].
  rewrite length_app, length_replicate. lia.
Qed.

(** [append] on a well-formed slice: the elements, then the new one. *)
Lemma append1_tracked arrs s x xs :
  Context.wf_slice arrs s -> Context.read arrs s = Some xs ->
  exists arrs' s',
    Context.append1 growcap arrs s x = Some (arrs', s')
    /\ Context.wf_slice arrs' s'
    /\ Context.read arrs' s' = Some (xs ++ [x]).
Proof.
  intros Hwf Hr. unfold Context.append1.
  destruct (Nat.ltb_spec (Context.len s) (Context.cap s)) as [Hlt|Hge].
  - unfold Context.wf_slice in Hwf. unfold Context.read in Hr.
    destruct (Context.base s) as [b|] eqn:Hb; [|lia].
    destruct Hwf as (arr & Ha & Hlc & Hca). simpl. rewrite Ha in *. simpl in *.
    destruct (Nat.leb_spec (Context.len s) (length arr)); [|lia].
    injection Hr as <-.
    destruct (Nat.ltb_spec (Context.len s) (length arr)); [|lia].
    eexists _, _. split; [reflexivity|]. split.
    + unfold Context.wf_slice. simpl. eexists. split; [apply lookup_insert_eq|].
      rewrite length_insert. lia.
    + unfold Context.read. simpl. rewrite lookup_insert_eq. simpl.
      rewrite length_insert.
      rewrite (take_S_r _ _ x) by (apply list_lookup_insert_eq; lia).
      rewrite take_insert_ge by lia.
      destruct (length arr) as [|k]; [lia|].
      by rewrite (proj2 (Nat.leb_le _ _)) by lia.
  - rewrite Hr. simpl. destruct (Context.new_array growcap arrs (Context.cap s) (xs ++ [x]))
      as [arrs' s'] eqn:Hn.
    exists arrs', s'. split; [reflexivity|]. split; [by eapply new_array_wf|].
    by destruct (new_array_spec _ _ _ _ _ _ Hn) as (_ & H & _).
Qed.

(** [append([]string{content}, v...)]: the new element, then the old
    ones. *)
Lemma prepend1_tracked arrs content s xs :
  Context.read arrs s = Some xs ->
  exists arrs' s',
    Context.prepend1 growcap arrs content s = Some (arrs', s')
    /\ Context.wf_slice arrs' s'
    /\ Context.read arrs' s' = Some (content :: xs).
Proof.
  intros Hr. unfold Context.prepend1. rewrite Hr. simpl. destruct xs as [|x0 xs].
  - eexists _, _. split; [reflexivity|]. split.
    + unfold Context.wf_slice. simpl. eexists. split; [apply lookup_insert_eq|simpl; lia].
    + unfold Context.read. simpl. by rewrite lookup_insert_eq.
  - destruct (Context.new_array growcap _ 1 (content :: x0 :: xs)) as [arrs' s'] eqn:Hn.
    exists arrs', s'. split; [reflexivity|]. split; [by eapply new_array_wf|].
    by destruct (new_array_spec _ _ _ _ _ _ Hn) as (_ & H & _).
Qed.

Lemma stack_entry_insert m name s' n :
  Context.stack_entry (<[name := s']> m) n =
    if String.eqb name n then s' else Context.stack_entry m n.
Proof.
  unfold Context.stack_entry. destruct (String.eqb_spec name n) as [->|Hne].
  - by rewrite lookup_insert_eq.
  - by rewrite lookup_insert_ne.
Qed.

(** Replacing one stack by a slice that lives in its old array or in a
    new one leaves the other stacks as they are. *)
Lemma stacks_step arrs arrs' m name s' (stk : string -> list string) new :
  (forall n, Context.wf_slice arrs (Context.stack_entry m n)
             /\ Context.read arrs (Context.stack_entry m n) = Some (stk n)) ->
  (forall n1 n2 b, Context.base (Context.stack_entry m n1) = Some b ->
                   Context.base (Context.stack_entry m n2) = Some b -> n1 = n2) ->
  (forall b, b ∈ dom arrs -> Context.base (Context.stack_entry m name) <> Some b ->
             arrs' !! b = arrs !! b) ->
  (Context.base s' = Context.base (Context.stack_entry m name)
   \/ exists a, Context.base s' = Some a /\ a ∉ dom arrs) ->
  Context.wf_slice arrs' s' ->
  Context.read arrs' s' = Some new ->
  (forall n, Context.wf_slice arrs' (Context.stack_entry (<[name := s']> m) n)
             /\ Context.read arrs' (Context.stack_entry (<[name := s']> m) n)
                = Some (if String.eqb name n then new else stk n))
  /\ (forall n1 n2 b,
        Context.base (Context.stack_entry (<[name := s']> m) n1) = Some b ->
        Context.base (Context.stack_entry (<[name := s']> m) n2) = Some b -> n1 = n2).
Proof.
  intros Hall Hdis Hframe Hbase Hwf Hread.
  assert (Hother : forall n b, name <> n ->
            Context.base (Context.stack_entry m n) = Some b ->
            Context.base s' <> Some b /\ arrs' !! b = arrs !! b).
  { intros n b Hne Hb. pose proof (wf_base_dom _ _ _ (proj1 (Hall n)) Hb) as Hdom.
    split.
    - destruct Hbase as [Heq|(a & Ha & Hfresh)].
      + rewrite Heq. intros Hb'. by apply Hne, (Hdis name n b).
      + rewrite Ha. intros [= ->]. by apply Hfresh.
    - apply Hframe; [done|]. intros Hb'. by apply Hne, (Hdis name n b). }
  split.
  - intros n. rewrite stack_entry_insert.
    destruct (String.eqb_spec name n) as [->|Hne]; [done|].
    destruct (Hall n) as [Hw Hr]. split.
    + eapply wf_frame; [|exact Hw]. intros b Hb. by apply (Hother n b).
    + rewrite <- Hr. apply read_frame. intros b Hb. by apply (Hother n b).
  - intros n1 n2 b. rewrite !stack_entry_insert.
    destruct (String.eqb_spec name n1) as [<-|Hne1],
             (String.eqb_spec name n2) as [<-|Hne2]; try done.
    + intros H1 H2. by destruct (proj1 (Hother n2 b Hne2 H2)).
    + intros H1 H2. by destruct (proj1 (Hother n1 b Hne1 H1)).
    + apply Hdis.
Qed.

Lemma data_after_cons maps (d : gmap string V) w ws :
  Context.data_after maps d (w :: ws)
  = Context.data_after maps (Context.data_after maps d [w]) ws.
Proof. destruct w as [| [a|] | | | | |]; reflexivity. Qed.

Lemma stack_after_cons n acc (w : Context.write V) ws :
  Context.stack_after n acc (w :: ws)
  = Context.stack_after n (Context.stack_after n acc [w]) ws.
Proof. destruct w; reflexivity. Qed.

Lemma sections_after_cons acc (w : Context.write V) ws :
  Context.sections_after acc (w :: ws)
  = Context.sections_after (Context.sections_after acc [w]) ws.
Proof. destruct w; reflexivity. Qed.

(** One write keeps the context in step with the maps and lists. *)
Lemma write_tracked maps c st d stk sec w :
  Context.tracks maps c st d stk sec ->
  (forall a, w = Context.WMerge (Some a) -> is_Some (maps !! a)) ->
  exists st',
    Context.apply_write growcap c w st = Some st'
    /\ Context.tracks maps c st' (Context.data_after maps d [w])
         (fun n => Context.stack_after n (stk n) [w])
         (Context.sections_after sec [w]).
Proof.
  intros (x & m & Hc & Hd & Hs & Hsec & Hmaps & Hall & Hdis) Hlive.
  destruct w as [key value|arg|name content|name content|name content|arg|arg]; simpl.
  - unfold Context.Set_. rewrite Hc. simpl. rewrite Hd. simpl.
    eexists. split; [reflexivity|]. exists x, m. simpl.
    repeat split; try done.
    + apply lookup_insert_eq.
    + by apply Hmaps.
    + rewrite lookup_insert_ne; [by apply Hmaps|]. intros Heq.
      by apply (proj1 (Hmaps a H)).
    + apply Hall.
    + apply Hall.
  - unfold Context.Merge. rewrite Hc. simpl. rewrite Hd. simpl.
    destruct arg as [a|].
    + destruct (Hlive a eq_refl) as [src Hsrc].
      assert (Ha : a ∈ dom maps) by (apply elem_of_dom; by eexists).
      destruct (Hmaps a Ha) as [Hne Hlk]. rewrite Hlk, Hsrc. simpl.
      eexists. split; [reflexivity|]. exists x, m. simpl.
      repeat split; try done.
      * apply lookup_insert_eq.
      * by apply Hmaps.
      * rewrite lookup_insert_ne; [by apply Hmaps|]. intros Heq.
        by apply (proj1 (Hmaps a0 H)).
      * apply Hall.
      * apply Hall.
    + simpl. eexists. split; [reflexivity|]. exists x, m. simpl.
      repeat split; try done.
      * rewrite lookup_insert_eq. by rewrite (left_id_L ∅ (∪)).
      * by apply Hmaps.
      * rewrite lookup_insert_ne; [by apply Hmaps|]. intros Heq.
        by apply (proj1 (Hmaps a H)).
      * apply Hall.
      * apply Hall.
  - unfold Context.PushStack. rewrite Hc. simpl. rewrite Hs. simpl.
    destruct (Hall name) as [Hw Hr].
    destruct (append1_tracked _ _ content _ Hw Hr) as (arrs' & s' & Happ & Hw' & Hr').
    rewrite Happ. simpl.
    destruct (append1_spec _ _ _ _ _ _ Happ) as (Hframe & _ & Hbase).
    destruct (stacks_step _ _ _ name s' stk _ Hall Hdis Hframe Hbase Hw' Hr')
      as [Hall' Hdis'].
    eexists. split; [reflexivity|]. exists x, (<[name := s']> m). simpl.
    repeat split; try done.
    + apply lookup_insert_eq.
    + by apply Hmaps.
    + by apply Hmaps.
    + apply Hall'.
    + rewrite (proj2 (Hall' n)). by destruct (String.eqb_spec name n) as [->|].
  - unfold Context.PrependStack. rewrite Hc. simpl. rewrite Hs. simpl.
    destruct (Hall name) as [Hw Hr].
    destruct (prepend1_tracked _ content _ _ Hr) as (arrs' & s' & Hpre & Hw' & Hr').
    rewrite Hpre. simpl.
    destruct (prepend1_spec _ _ _ _ _ _ Hpre) as (Hext & Hfresh).
    assert (Hframe : forall b, b ∈ dom (Context.arrays st) ->
              Context.base (Context.stack_entry m name) <> Some b ->
              arrs' !! b = Context.arrays st !! b) by (intros b Hb _; by apply Hext).
    destruct (stacks_step _ _ _ name s' stk _ Hall Hdis Hframe (or_intror Hfresh) Hw' Hr')
      as [Hall' Hdis'].
    eexists. split; [reflexivity|]. exists x, (<[name := s']> m). simpl.
    repeat split; try done.
    + apply lookup_insert_eq.
    + by apply Hmaps.
    + by apply Hmaps.
    + apply Hall'.
    + rewrite (proj2 (Hall' n)). by destruct (String.eqb_spec name n) as [->|].
  - unfold Context.SetSection. rewrite Hc. simpl. rewrite Hsec. simpl.
    eexists. split; [reflexivity|]. exists x, m. simpl.
    repeat split; try done.
    + apply lookup_insert_eq.
    + by apply Hmaps.
    + by apply Hmaps.
    + apply Hall.
    + apply Hall.
  - unfold Context.SetErrors. rewrite Hc. simpl.
    eexists. split; [reflexivity|]. eexists _, m. simpl.
    split; [apply lookup_insert_eq|]. simpl.
    repeat split; try done.
    + by apply Hmaps.
    + by apply Hmaps.
    + apply Hall.
    + apply Hall.
  - unfold Context.SetOld. rewrite Hc. simpl.
    eexists. split; [reflexivity|]. eexists _, m. simpl.
    split; [apply lookup_insert_eq|]. simpl.
    repeat split; try done.
    + by apply Hmaps.
    + by apply Hmaps.
    + apply Hall.
    + apply Hall.
Qed.

Lemma writes_tracked maps c ws : forall st d stk sec,
  Context.tracks maps c st d stk sec ->
  Context.merges_live maps ws ->
  exists st',
    Context.apply_writes growcap c ws st = Some st'
    /\ Context.tracks maps c st' (Context.data_after maps d ws)
         (fun n => Context.stack_after n (stk n) ws)
         (Context.sections_after sec ws).
Proof.
  induction ws as [|w ws IH]; intros st d stk sec Ht Hlive.
  - exists st. by split.
  - destruct (write_tracked maps c st d stk sec w Ht) as (st1 & Hw & Ht1).
    { intros a ->. apply Hlive. by left. }
    destruct (IH st1 _ _ _ Ht1) as (st2 & Hws & Ht2).
    { intros a Ha. apply Hlive. by right. }
    exists st2. split.
    + simpl. rewrite Hw. exact Hws.
    + rewrite data_after_cons, sections_after_cons.
      destruct Ht2 as (x & m & H1 & H2 & H3 & H4 & H5 & H6 & H7).
      exists x, m. repeat split; try done.
      * by apply H5.
      * by apply H5.
      * apply H6.
      * rewrite stack_after_cons. apply H6.
Qed.

Lemma NewContext_tracked st0 :
  Context.tracks (Context.ifaceMaps st0) (Context.NewContext st0).2
    (Context.NewContext st0).1 ∅ (fun _ => []) ∅.
Proof.
  unfold Context.NewContext. simpl.
  eexists _, ∅. simpl. split; [apply lookup_insert_eq|]. simpl.
  split; [apply lookup_insert_eq|].
  split.
  { rewrite lookup_insert_ne; [apply lookup_insert_eq|]. apply fresh_insert_ne. }
  split.
  { rewrite lookup_insert_ne; [apply lookup_insert_eq|]. apply fresh_insert_ne. }
  split.
  { intros a Ha.
    assert (Hne : a <> fresh (dom (Context.ifaceMaps st0))).
    { intros ->. by apply (is_fresh (dom (Context.ifaceMaps st0))). }
    split; [done|]. by rewrite lookup_insert_ne. }
  split.
  - intros n. split; [apply wf_nil|reflexivity].
  - intros n1 n2 b H. discriminate H.
Qed.

(** X5. A new context after any sequence of writes shows what the
    writes add up to, as plain maps and lists: [Get] and [Has] the
    entries that [Set] and [Merge] stored (the later one winning),
    [GetStack] for every stack the prepended fragments before the
    pushed ones, the pushed ones in the order of the calls and the
    prepended ones in reverse order, [GetSection] and [HasSection] the
    last content given by [SetSection], the empty string for a section
    that was never set.  No call panics, whatever capacity the runtime
    gives the stacks; the [Merge] arguments are nil or maps of the
    store. *)
Theorem Context_follows_writes st0 ws :
  Context.merges_live (Context.ifaceMaps st0) ws ->
  let c := (Context.NewContext st0).2 in
  exists st2,
    Context.apply_writes growcap c ws (Context.NewContext st0).1 = Some st2
    /\ (forall k, Context.Get c k st2
                  = Some (Context.data_after (Context.ifaceMaps st0) ∅ ws !! k))
    /\ (forall k, Context.Has c k st2
                  = Some (bool_decide
                            (is_Some (Context.data_after (Context.ifaceMaps st0) ∅ ws !! k))))
    /\ (forall n, Context.stack_content c n st2 = Some (Context.stack_after n [] ws))
    /\ (forall n, Context.GetSection c n st2
                  = Some (default EmptyString (Context.sections_after ∅ ws !! n)))
    /\ (forall n, Context.HasSection c n st2
                  = Some (bool_decide (is_Some (Context.sections_after ∅ ws !! n)))).
Proof.
  intros Hlive c.
  destruct (writes_tracked _ c ws _ _ _ _ (NewContext_tracked st0) Hlive)
    as (st2 & Hws & x & m & H1 & H2 & H3 & H4 & _ & H6 & _).
  exists st2. split; [exact Hws|].
  unfold Context.Get, Context.Has, Context.stack_content, Context.GetStack,
    Context.GetSection, Context.HasSection.
  rewrite H1. simpl. rewrite H2, H3, H4. simpl.
  repeat split; try done. intros n. apply H6.
Qed.

End ContextModel.

Lemma Context_follows_writes_witness :
  exists st2,
    Context.apply_writes Context.example_growcap Context.example_ctx
      [Context.WPushStack "s" "A"; Context.WPrependStack "s" "Z";
       Context.WPushStack "s" "B"; Context.WSet "k" 1%nat]
      (Context.NewContext (Context.MkStore nat ∅ ∅ ∅ ∅ ∅)).1 = Some st2
    /\ Context.stack_content Context.example_ctx "s" st2 = Some ["Z"; "A"; "B"]
    /\ Context.Get Context.example_ctx "k" st2 = Some (Some 1%nat)
    /\ Context.Get Context.example_ctx "j" st2 = Some None.
Proof.
  destruct (Context_follows_writes nat Context.example_growcap
              (Context.MkStore nat ∅ ∅ ∅ ∅ ∅)
              [Context.WPushStack "s" "A"; Context.WPrependStack "s" "Z";
               Context.WPushStack "s" "B"; Context.WSet "k" 1%nat])
    as (st2 & H1 & H2 & _ & H3 & _).
  - intros a [H|[H|[H|[H|[]]]]]; discriminate H.
  - exists st2. split; [exact H1|]. split; [exact (H3 "s")|].
    split; [exact (H2 "k")|exact (H2 "j")].
Defined.

(** ** Termination of the lexer *)

Lemma forward_refl l : Lexer.forward l l.
Proof. by repeat split. Qed.

Lemma forward_trans l1 l2 l3 :
  Lexer.forward l1 l2 -> Lexer.forward l2 l3 -> Lexer.forward l1 l3.
Proof.
  intros (Hi1 & Ht1 & Hv1 & Hp1 & Hb1) (Hi2 & Ht2 & Hv2 & Hp2 & Hb2).
  rewrite Hi1 in *. repeat split; try congruence; lia.
Qed.

Lemma advance_forward l : Lexer.forward l (Lexer.advance l).
Proof.
  unfold Lexer.forward, Lexer.advance.
  destruct (Nat.ltb_spec (Lexer.pos l) (Str.len (Lexer.input l))).
  - destruct (Ascii.eqb _ _); simpl; repeat split; lia.
  - repeat split; lia.
Qed.

Lemma advanceN_forward n l : Lexer.forward l (Lexer.advanceN n l).
Proof.
  revert l. induction n as [|n IH]; intros l; [apply forward_refl|].
  simpl. eapply forward_trans; [apply advance_forward|apply IH].
Qed.

Lemma skipWhitespace_loop_forward n l :
  Lexer.forward l (Lexer.skipWhitespace_loop n l).
Proof.
  revert l. induction n as [|n IH]; intros l; [apply forward_refl|].
  simpl. destruct (_ && _); [|apply forward_refl].
  eapply forward_trans; [apply advance_forward|apply IH].
Qed.

Lemma scanName_loop_forward n l : Lexer.forward l (Lexer.scanName_loop n l).
Proof.
  revert l. induction n as [|n IH]; intros l; [apply forward_refl|].
  simpl. destruct (_ && _); [|apply forward_refl].
  eapply forward_trans; [apply advance_forward|apply IH].
Qed.

Lemma scanText_loop_forward n l : Lexer.forward l (Lexer.scanText_loop n l).
Proof.
  revert l. induction n as [|n IH]; intros l; [apply forward_refl|].
  simpl. destruct (_ <? _)%nat; [|apply forward_refl].
  destruct (_ || _); [apply forward_refl|].
  destruct (Lexer.atDirective l); [apply forward_refl|].
  eapply forward_trans; [apply advance_forward|apply IH].
Qed.

Lemma scanDirectiveArgs_loop_forward n depth inString stringChar l :
  Lexer.forward l (Lexer.scanDirectiveArgs_loop n depth inString stringChar l).2.
Proof.
  revert depth inString stringChar l.
  induction n as [|n IH]; intros depth inString stringChar l; [apply forward_refl|].
  simpl. destruct (_ && _); [|apply forward_refl].
  destruct (if _ && _ then _ else _) as [inString' stringChar'].
  eapply forward_trans; [|apply IH].
  destruct (0 <? _); [apply advance_forward|apply forward_refl].
Qed.

Lemma seek_forward close n l l' :
  Lexer.seek close n l = Some l' ->
  Lexer.forward l l' /\ Lexer.matchString close l' = true.
Proof.
  revert l. induction n as [|n IH]; intros l; [done|].
  simpl. destruct (_ <? _)%nat; [|done].
  destruct (Lexer.matchString close l) eqn:Hm.
  - intros [= <-]. split; [apply forward_refl|done].
  - intros H. destruct (IH _ H) as [Hf Hm']. split; [|done].
    eapply forward_trans; [apply advance_forward|exact Hf].
Qed.

(** After [n] bytes are known to follow, [advanceN n] moves by [n]. *)
Lemma advanceN_moves n l :
  (Lexer.pos l + n <= Str.len (Lexer.input l))%nat ->
  Lexer.forward l (Lexer.advanceN n l)
  /\ Lexer.pos (Lexer.advanceN n l) = (Lexer.pos l + n)%nat.
Proof. intros H. split; [apply advanceN_forward|by apply advanceN_pos]. Qed.

Lemma slice_nonempty i j s :
  (i < j)%nat -> (j <= Str.len s)%nat -> Str.slice i j s <> EmptyString.
Proof.
  intros Hij Hj. unfold Str.slice.
  pose proof (len_drop i s) as Hl.
  destruct (Str.drop i s) as [|c r]; [unfold Str.len in *; simpl in Hl; lia|].
  destruct (j - i)%nat eqn:E; [lia|]. done.
Qed.

(** [nextToken] with one level of recursion written out. *)
Lemma nextToken_S fuel l :
  Lexer.nextToken (S fuel) l =
    if (Str.len (Lexer.input l) <=? Lexer.pos l)%nat then
      Lexer.Ok (Lexer.MkToken Lexer.TOKEN_EOF EmptyString EmptyString Lexer.zeroPos, l)
    else if Lexer.inVerbatim l then Lexer.scanVerbatimContent (Lexer.here l) l
    else if Lexer.matchString "{{--" l then Lexer.scanComment (Lexer.here l) l
    else if Lexer.matchString "{!!" l then Lexer.scanRawEcho (Lexer.here l) l
    else if Lexer.matchString "{{" l then Lexer.scanEscapedEcho (Lexer.here l) l
    else if Lexer.matchString "@@" l then
      Lexer.Ok (Lexer.MkToken Lexer.TOKEN_TEXT "@" EmptyString (Lexer.here l),
                Lexer.advanceN 2 l)
    else if Lexer.atDirective l then Lexer.scanDirective (Lexer.here l) l
    else
      if String.eqb (Str.slice (Lexer.pos l)
                       (Lexer.pos (Lexer.scanText_loop (Lexer.remaining l) l))
                       (Lexer.input (Lexer.scanText_loop (Lexer.remaining l) l)))
           EmptyString
      then Lexer.nextToken fuel (Lexer.scanText_loop (Lexer.remaining l) l)
      else Lexer.Ok (Lexer.MkToken Lexer.TOKEN_TEXT
                       (Str.slice (Lexer.pos l)
                          (Lexer.pos (Lexer.scanText_loop (Lexer.remaining l) l))
                          (Lexer.input (Lexer.scanText_loop (Lexer.remaining l) l)))
                       EmptyString (Lexer.here l),
                     Lexer.scanText_loop (Lexer.remaining l) l).
Proof. reflexivity. Qed.

Lemma scanText_loop_S n l :
  Lexer.scanText_loop (S n) l =
    if (Lexer.pos l <? Str.len (Lexer.input l))%nat then
      if Lexer.matchString "{{" l || Lexer.matchString "{!!" l || Lexer.matchString "@@" l
      then l
      else if Lexer.atDirective l then l
      else Lexer.scanText_loop n (Lexer.advance l)
    else l.
Proof. reflexivity. Qed.

Ltac lexer_fields :=
  unfold Lexer.push_token, Lexer.set_inVerbatim;
  cbn [Lexer.input Lexer.pos Lexer.tokens Lexer.inVerbatim Lexer.Type_ Lexer.Message
       fst snd].

Ltac lexer_error :=
  left; eexists; split; [reflexivity|];
  unfold Lexer.error_messages; cbn [Lexer.Message In];
  repeat first [ by left | right ].

(** The verbatim scanner, when the closing directive is found at
    [l1]: it ends twelve bytes further on and may collect one text
    token. *)
Lemma scanVerbatimContent_found startPos l l1 :
  Lexer.seek "@endverbatim" (Lexer.remaining l) l = Some l1 ->
  exists tok l',
    Lexer.scanVerbatimContent startPos l = Lexer.Ok (tok, l')
    /\ Lexer.Type_ tok = Lexer.TOKEN_VERBATIM_END
    /\ Lexer.input l' = Lexer.input (Lexer.advanceN 12 l1)
    /\ Lexer.pos l' = Lexer.pos (Lexer.advanceN 12 l1)
    /\ (Lexer.tokens l' = Lexer.tokens (Lexer.advanceN 12 l1)
        \/ exists t, Lexer.Type_ t = Lexer.TOKEN_TEXT
                     /\ Lexer.tokens l' = Lexer.tokens (Lexer.advanceN 12 l1) ++ [t]).
Proof.
  intros Hs. unfold Lexer.scanVerbatimContent. rewrite Hs. cbv beta iota zeta.
  generalize (Lexer.advanceN 12 l1). intros l2.
  destruct (negb _).
  - eexists _, _. split; [reflexivity|]. split; [reflexivity|].
    split; [reflexivity|]. split; [reflexivity|]. right. eexists. split; [|reflexivity]. reflexivity.
  - eexists _, _. split; [reflexivity|]. split; [reflexivity|].
    split; [reflexivity|]. split; [reflexivity|]. by left.
Qed.

(** What one call of [nextToken] does when input is left: it returns
    a token other than EOF and has consumed at least one byte, or it
    returns an error; the collected tokens grow at most by one text
    token. *)
Lemma nextToken_progress fuel l :
  (Lexer.pos l < Str.len (Lexer.input l))%nat ->
  (exists e, Lexer.nextToken (S fuel) l = Lexer.Fail e
             /\ In (Lexer.Message e) Lexer.error_messages)
  \/ (exists tok l',
        Lexer.nextToken (S fuel) l = Lexer.Ok (tok, l')
        /\ Lexer.Type_ tok <> Lexer.TOKEN_EOF
        /\ Lexer.input l' = Lexer.input l
        /\ (Lexer.pos l < Lexer.pos l')%nat
        /\ (Lexer.pos l' <= Str.len (Lexer.input l))%nat
        /\ (Lexer.tokens l' = Lexer.tokens l
            \/ exists t, Lexer.Type_ t = Lexer.TOKEN_TEXT
                         /\ Lexer.tokens l' = Lexer.tokens l ++ [t])).
Proof.
  intros Hlt. rewrite nextToken_S.
  destruct (Nat.leb_spec (Str.len (Lexer.input l)) (Lexer.pos l)); [lia|].
  destruct (Lexer.inVerbatim l).
  { destruct (Lexer.seek "@endverbatim" (Lexer.remaining l) l) as [l1|] eqn:Hs.
    2: { left. eexists. split.
         - unfold Lexer.scanVerbatimContent. rewrite Hs. reflexivity.
         - unfold Lexer.error_messages. cbn [Lexer.Message In].
           repeat first [ by left | right ]. }
    destruct (seek_forward _ _ _ _ Hs) as [(Hi & Ht & _ & Hp & Hb) Hm].
    apply matchString_bound in Hm. change (Str.len "@endverbatim") with 12%nat in Hm.
    destruct (advanceN_moves 12 l1 Hm) as [(Hi2 & Ht2 & _ & _ & _) Hp2].
    rewrite Hi in Hm.
    destruct (scanVerbatimContent_found (Lexer.here l) l l1 Hs)
      as (tok & l' & Hscan & Hty & Hi' & Hp' & Ht').
    right. exists tok, l'. split; [exact Hscan|].
    split; [by rewrite Hty|].
    rewrite Hi', Hp', Hi2, Hp2, Hi.
    repeat split; try lia.
    destruct Ht' as [Ht'|(t & Hty' & Ht')]; rewrite Ht', Ht2, Ht; [by left|].
    right. by exists t. }
  destruct (Lexer.matchString "{{--" l) eqn:Hc.
  { unfold Lexer.scanComment.
    apply matchString_bound in Hc. change (Str.len "{{--") with 4%nat in Hc.
    destruct (advanceN_moves 4 l Hc) as [(Hi0 & Ht0 & _ & _ & _) Hp0].
    destruct (Lexer.seek _ _ _) as [l1|] eqn:Hs; [|lexer_error].
    destruct (seek_forward _ _ _ _ Hs) as [(Hi & Ht & _ & Hp & Hb) Hm].
    apply matchString_bound in Hm. change (Str.len "--}}") with 4%nat in Hm.
    destruct (advanceN_moves 4 l1 Hm) as [(Hi2 & Ht2 & _ & _ & _) Hp2].
    right. eexists _, _. split; [reflexivity|].
    split; [lexer_fields; discriminate|].
    rewrite Hi2, Hp2, Ht2, Hi, Ht, Hi0, Ht0 in *.
    repeat split; try done; try lia; by left. }
  destruct (Lexer.matchString "{!!" l) eqn:Hr.
  { unfold Lexer.scanRawEcho.
    apply matchString_bound in Hr. change (Str.len "{!!") with 3%nat in Hr.
    destruct (advanceN_moves 3 l Hr) as [(Hi0 & Ht0 & _ & _ & _) Hp0].
    pose proof (skipWhitespace_loop_forward
                  (Lexer.remaining (Lexer.advanceN 3 l)) (Lexer.advanceN 3 l))
      as (Hiw & Htw & _ & Hpw & _).
    fold (Lexer.skipWhitespace (Lexer.advanceN 3 l)) in *.
    destruct (Lexer.seek _ _ _) as [l1|] eqn:Hs; [|lexer_error].
    destruct (seek_forward _ _ _ _ Hs) as [(Hi & Ht & _ & Hp & Hb) Hm].
    apply matchString_bound in Hm. change (Str.len "!!}") with 3%nat in Hm.
    destruct (advanceN_moves 3 l1 Hm) as [(Hi2 & Ht2 & _ & _ & _) Hp2].
    right. eexists _, _. split; [reflexivity|].
    split; [lexer_fields; discriminate|].
    rewrite Hi2, Hp2, Ht2, Hi, Ht, Hiw, Htw, Hi0, Ht0 in *.
    repeat split; try done; try lia; by left. }
  destruct (Lexer.matchString "{{" l) eqn:He.
  { unfold Lexer.scanEscapedEcho.
    apply matchString_bound in He. change (Str.len "{{") with 2%nat in He.
    destruct (advanceN_moves 2 l He) as [(Hi0 & Ht0 & _ & _ & _) Hp0].
    pose proof (skipWhitespace_loop_forward
                  (Lexer.remaining (Lexer.advanceN 2 l)) (Lexer.advanceN 2 l))
      as (Hiw & Htw & _ & Hpw & _).
    fold (Lexer.skipWhitespace (Lexer.advanceN 2 l)) in *.
    destruct (Lexer.seek _ _ _) as [l1|] eqn:Hs; [|lexer_error].
    destruct (seek_forward _ _ _ _ Hs) as [(Hi & Ht & _ & Hp & Hb) Hm].
    apply matchString_bound in Hm. change (Str.len "}}") with 2%nat in Hm.
    destruct (advanceN_moves 2 l1 Hm) as [(Hi2 & Ht2 & _ & _ & _) Hp2].
    right. eexists _, _. split; [reflexivity|].
    split; [lexer_fields; discriminate|].
    rewrite Hi2, Hp2, Ht2, Hi, Ht, Hiw, Htw, Hi0, Ht0 in *.
    repeat split; try done; try lia; by left. }
  destruct (Lexer.matchString "@@" l) eqn:Ha.
  { apply matchString_bound in Ha. change (Str.len "@@") with 2%nat in Ha.
    destruct (advanceN_moves 2 l Ha) as [(Hi0 & Ht0 & _ & _ & _) Hp0].
    right. eexists _, _. split; [reflexivity|].
    split; [lexer_fields; discriminate|].
    rewrite Hi0, Hp0, Ht0. repeat split; try done; try lia; by left. }
  destruct (Lexer.atDirective l) eqn:Hd.
  { unfold Lexer.scanDirective.
    pose proof (advance_forward l) as F0.
    pose proof (advance_pos l Hlt) as P0.
    pose proof (scanName_loop_forward (Lexer.remaining (Lexer.advance l)) (Lexer.advance l))
      as F1.
    set (l1 := Lexer.scanName_loop _ _) in *.
    pose proof (forward_trans _ _ _ F0 F1) as (Hi & Ht & _ & Hp & Hb).
    assert (Hp1 : (Lexer.pos l < Lexer.pos l1)%nat).
    { destruct F1 as (_ & _ & _ & Hq & _). lia. }
    destruct (String.eqb _ "verbatim").
    { right. eexists _, _. split; [reflexivity|].
      split; [lexer_fields; discriminate|]. lexer_fields.
      repeat split; try done; try lia; by left. }
    destruct (_ && _).
    - unfold Lexer.scanDirectiveArgs.
      pose proof (advance_forward l1) as F2.
      pose proof (scanDirectiveArgs_loop_forward
                    (S (Lexer.remaining (Lexer.advance l1))) 1 false zero (Lexer.advance l1))
        as F3.
      destruct (Lexer.scanDirectiveArgs_loop _ 1 false zero _) as [depth l2].
      cbn [snd] in F3. destruct (negb _); [lexer_error|].
      pose proof (advance_forward l2) as F4.
      pose proof (forward_trans _ _ _ F2 (forward_trans _ _ _ F3 F4))
        as (Hi' & Ht' & _ & Hp' & Hb').
      right. eexists _, _. split; [reflexivity|].
      split; [lexer_fields; discriminate|].
      rewrite Hi', Ht', Hi, Ht. rewrite Hi in Hb'.
      repeat split; try done; try lia; by left.
    - right. eexists _, _. split; [reflexivity|].
      split; [lexer_fields; discriminate|].
      repeat split; try done; try lia; by left. }
  (* text *)
  pose proof (scanText_loop_forward (Lexer.remaining l) l) as F.
  assert (Hstep : (Lexer.pos l < Lexer.pos (Lexer.scanText_loop (Lexer.remaining l) l))%nat).
  { unfold Lexer.remaining. destruct (Str.len (Lexer.input l) - Lexer.pos l)%nat eqn:E; [lia|].
    rewrite scanText_loop_S.
    destruct (Nat.ltb_spec (Lexer.pos l) (Str.len (Lexer.input l))); [|lia].
    rewrite He, Hr, Ha, Hd. cbn [orb].
    pose proof (scanText_loop_forward n (Lexer.advance l)) as (_ & _ & _ & Hq & _).
    rewrite advance_pos in Hq by lia. lia. }
  destruct F as (Hi & Ht & _ & Hp & Hb).
  set (l1 := Lexer.scanText_loop _ _) in *.
  destruct (String.eqb_spec (Str.slice (Lexer.pos l) (Lexer.pos l1) (Lexer.input l1)) EmptyString)
    as [Hempty|_].
  { exfalso. revert Hempty. apply slice_nonempty; [lia|]. rewrite Hi. lia. }
  right. eexists _, _. split; [reflexivity|].
  split; [lexer_fields; discriminate|].
  repeat split; try done; try lia; by left.
Qed.

Lemma Tokenize_loop_total fuel : forall l,
  (Lexer.remaining l < fuel)%nat ->
  (Lexer.pos l <= Str.len (Lexer.input l))%nat ->
  Forall (fun t => Lexer.Type_ t <> Lexer.TOKEN_EOF) (Lexer.tokens l) ->
  (exists e, Lexer.Tokenize_loop fuel l = Lexer.Fail e
             /\ In (Lexer.Message e) Lexer.error_messages)
  \/ (exists l', Lexer.Tokenize_loop fuel l = Lexer.Ok l'
                 /\ Forall (fun t => Lexer.Type_ t <> Lexer.TOKEN_EOF) (Lexer.tokens l')).
Proof.
  induction fuel as [|fuel IH]; intros l Hf Hle Htok; [lia|].
  cbn [Lexer.Tokenize_loop].
  destruct (Nat.ltb_spec (Lexer.pos l) (Str.len (Lexer.input l))) as [Hlt|Hge];
    [|right; by exists l].
  destruct (nextToken_progress fuel l Hlt)
    as [(e & He & Hmsg)|(tok & l' & Hn & Hty & Hi & Hp & Hb & Ht)].
  - rewrite He. left. by exists e.
  - rewrite Hn.
    assert (Hne : negb (Lexer.TokenType_eqb (Lexer.Type_ tok) Lexer.TOKEN_EOF) = true)
      by (by destruct (Lexer.Type_ tok)).
    rewrite Hne. apply IH.
    + unfold Lexer.remaining in *. lexer_fields. rewrite Hi. lia.
    + lexer_fields. rewrite Hi. lia.
    + lexer_fields. apply Forall_app. split; [|by constructor].
      destruct Ht as [->|(t & Hty' & ->)]; [done|].
      apply Forall_app. split; [done|]. constructor; [|done]. by rewrite Hty'.
Qed.

(** X6. [Tokenize] returns on every input: either one of the five
    lexer errors, or a token list that ends with the EOF token and
    holds no other EOF token. *)
Theorem Tokenize_returns (inp : string) :
  (exists e, Lexer.Tokenize inp = Lexer.Fail e
             /\ In (Lexer.Message e) Lexer.error_messages)
  \/ (exists body p,
        Lexer.Tokenize inp
          = Lexer.Ok (body ++ [Lexer.MkToken Lexer.TOKEN_EOF EmptyString EmptyString p])
        /\ Forall (fun t => Lexer.Type_ t <> Lexer.TOKEN_EOF) body).
Proof.
  unfold Lexer.Tokenize, Lexer.Tokenize_from.
  destruct (Tokenize_loop_total (S (Lexer.remaining (Lexer.New inp))) (Lexer.New inp))
    as [(e & He & Hmsg)|(l' & Hl & Htok)].
  - lia.
  - cbn [Lexer.New Lexer.pos]. lia.
  - constructor.
  - left. exists e. by rewrite He.
  - right. exists (Lexer.tokens l'), (Lexer.here l'). by rewrite Hl.
Qed.

(** ** Plain text *)

Lemma Index_None_drop sub i : forall s,
  Str.Index s sub = None -> Str.HasPrefix (Str.drop i s) sub = false.
Proof.
  induction i as [|i IH]; intros s H.
  - destruct s as [|c s].
    + destruct sub; [discriminate H|reflexivity].
    + rewrite Index_cons in H. simpl Str.drop.
      by destruct (Str.HasPrefix (String c s) sub).
  - destruct s as [|c s].
    + destruct sub; [discriminate H|reflexivity].
    + simpl Str.drop. apply IH. rewrite Index_cons in H.
      destruct (Str.HasPrefix (String c s) sub); [done|].
      by destruct (Str.Index s sub).
Qed.

Lemma Contains_false_at sub (l : Lexer.t) :
  Str.Contains (Lexer.input l) sub = false ->
  (Lexer.pos l <= Str.len (Lexer.input l))%nat ->
  Lexer.matchString sub l = false.
Proof.
  unfold Str.Contains. intros H Hle. rewrite matchString_prefix by done.
  apply Index_None_drop. by destruct (Str.Index _ _).
Qed.

Lemma HasPrefix_longer s a b rest :
  Str.HasPrefix s (String a (String b EmptyString)) = false ->
  Str.HasPrefix s (String a (String b rest)) = false.
Proof.
  destruct s as [|c [|c2 r]]; try done.
  rewrite !HasPrefix_cons, HasPrefix_nil.
  destruct (Ascii.eqb a c); [|done]. by destruct (Ascii.eqb b c2).
Qed.

Lemma HasPrefix_one s a rest :
  Str.HasPrefix s (String a EmptyString) = false ->
  Str.HasPrefix s (String a rest) = false.
Proof.
  destruct s as [|c r]; [done|]. rewrite !HasPrefix_cons, HasPrefix_nil.
  by destruct (Ascii.eqb a c).
Qed.

Lemma current_at l :
  (Lexer.pos l < Str.len (Lexer.input l))%nat ->
  Lexer.current l = Str.at_ (Lexer.pos l) (Lexer.input l).
Proof.
  intros H. unfold Lexer.current.
  by destruct (Nat.leb_spec (Str.len (Lexer.input l)) (Lexer.pos l)); [lia|].
Qed.

Lemma no_at_sign l :
  Str.Contains (Lexer.input l) "@" = false ->
  (Lexer.pos l < Str.len (Lexer.input l))%nat ->
  Ascii.eqb (Lexer.current l) "@" = false.
Proof.
  intros H Hlt. rewrite current_at by done.
  assert (Hm : Lexer.matchString "@" l = false) by (apply Contains_false_at; [done|lia]).
  rewrite matchString_prefix, (drop_S_at _ _ Hlt), HasPrefix_cons, HasPrefix_nil in Hm by lia.
  rewrite Ascii.eqb_sym. by destruct (Ascii.eqb "@" _).
Qed.

(** In an input without [{{], [{!!] and [@] the text scanner runs to
    the end. *)
Lemma scanText_loop_plain n : forall l,
  Str.Contains (Lexer.input l) "{{" = false ->
  Str.Contains (Lexer.input l) "{!!" = false ->
  Str.Contains (Lexer.input l) "@" = false ->
  (Lexer.pos l <= Str.len (Lexer.input l))%nat ->
  (Lexer.remaining l <= n)%nat ->
  Lexer.scanText_loop n l = Lexer.advanceN (Lexer.remaining l) l.
Proof.
  induction n as [|n IH]; intros l H1 H2 H3 Hle Hn.
  - by replace (Lexer.remaining l) with O by lia.
  - simpl. unfold Lexer.remaining in *.
    destruct (Nat.ltb_spec (Lexer.pos l) (Str.len (Lexer.input l))) as [Hlt|Hge].
    + rewrite !Contains_false_at by (done || lia).
      assert (Hat : Lexer.matchString "@@" l = false).
      { rewrite matchString_prefix by lia. apply HasPrefix_one.
        rewrite <- matchString_prefix by lia. apply Contains_false_at; [done|lia]. }
      rewrite Hat.
      unfold Lexer.atDirective. rewrite no_at_sign by done. simpl.
      rewrite IH; rewrite ?advance_input, ?advance_pos; try done; try lia.
      replace (Str.len (Lexer.input l) - Lexer.pos l)%nat
        with (S (Str.len (Lexer.input l) - S (Lexer.pos l)))%nat by lia.
      reflexivity.
    + by replace (Str.len (Lexer.input l) - Lexer.pos l)%nat with O by lia.
Qed.

Lemma take_len s : Str.take (Str.len s) s = s.
Proof. induction s as [|c s IH]; [done|]. unfold Str.len in *. simpl. by rewrite IH. Qed.

Lemma Tokenize_loop_end fuel l :
  (Str.len (Lexer.input l) <= Lexer.pos l)%nat ->
  Lexer.Tokenize_loop fuel l = Lexer.Ok l.
Proof.
  intros H. destruct fuel; simpl;
    by destruct (Nat.ltb_spec (Lexer.pos l) (Str.len (Lexer.input l))); [lia|].
Qed.

(** X7. Text without [{{], [{!!] and [@] is passed on as it is: the
    lexer returns one text token whose value is the whole input,
    placed at line 1, column 1, followed by the EOF token at the end
    of the input. *)
Theorem plain_text_is_one_token (inp : string) :
  Str.Contains inp "{{" = false ->
  Str.Contains inp "{!!" = false ->
  Str.Contains inp "@" = false ->
  inp <> EmptyString ->
  Lexer.Tokenize inp =
    Lexer.Ok [Lexer.MkToken Lexer.TOKEN_TEXT inp EmptyString (Lexer.MkPos 1 1 0);
              Lexer.MkToken Lexer.TOKEN_EOF EmptyString EmptyString
                (Lexer.here (Lexer.advanceN (Str.len inp) (Lexer.New inp)))].
Proof.
  intros H1 H2 H3 Hne.
  set (l0 := Lexer.New inp).
  assert (Hlen : (0 < Str.len inp)%nat).
  { destruct inp; [done|]. unfold Str.len. simpl. lia. }
  assert (Hp0 : (Lexer.pos l0 < Str.len (Lexer.input l0))%nat) by exact Hlen.
  assert (Hrem : Lexer.remaining l0 = Str.len inp)
    by (unfold Lexer.remaining; simpl; lia).
  assert (Hm : forall sub, Str.Contains inp sub = false -> Lexer.matchString sub l0 = false).
  { intros sub Hs. apply Contains_false_at; [done|simpl; lia]. }
  assert (Hm2 : forall a b rest, Str.Contains inp (String a (String b EmptyString)) = false ->
                  Lexer.matchString (String a (String b rest)) l0 = false).
  { intros a b rest Hs. rewrite matchString_prefix by (simpl; lia).
    apply HasPrefix_longer. rewrite <- matchString_prefix by (simpl; lia). by apply Hm. }
  assert (Hat : Lexer.matchString "@@" l0 = false).
  { rewrite matchString_prefix by (simpl; lia). apply HasPrefix_one.
    rewrite <- matchString_prefix by (simpl; lia). by apply Hm. }
  assert (Hnext : forall fuel,
            Lexer.nextToken (S fuel) l0 =
              Lexer.Ok (Lexer.MkToken Lexer.TOKEN_TEXT inp EmptyString (Lexer.MkPos 1 1 0),
                        Lexer.advanceN (Str.len inp) l0)).
  { intros fuel. rewrite nextToken_S.
    rewrite (Hm2 "{"%char "{"%char "--" H1), (Hm "{!!" H2), (Hm "{{" H1), Hat.
    unfold Lexer.atDirective. rewrite no_at_sign by (done || lia).
    rewrite scanText_loop_plain by (done || lia).
    rewrite Hrem, advanceN_input, advanceN_pos by (change (Lexer.input l0) with inp; change (Lexer.pos l0) with O; lia).
    change (Lexer.input l0) with inp. change (Lexer.pos l0) with O.
    change (Lexer.inVerbatim l0) with false. change (Lexer.here l0) with (Lexer.MkPos 1 1 0).
    destruct (Nat.leb_spec (Str.len inp) 0); [lia|].
    unfold Str.slice. cbn [Str.drop andb]. rewrite Nat.add_0_l, Nat.sub_0_r, take_len.
    destruct (String.eqb_spec inp EmptyString); [done|]. reflexivity. }
  unfold Lexer.Tokenize, Lexer.Tokenize_from. fold l0. rewrite Hrem.
  cbn [Lexer.Tokenize_loop]. change (Lexer.input l0) with inp.
  change (Lexer.pos l0) with O.
  destruct (Nat.ltb_spec 0 (Str.len inp)); [|lia].
  rewrite Hnext. cbn [negb Lexer.TokenType_eqb Lexer.Type_].
  rewrite Tokenize_loop_end.
  - unfold Lexer.push_token, Lexer.here. cbn [Lexer.tokens Lexer.pos Lexer.line Lexer.column].
    destruct (advanceN_forward (Str.len inp) l0) as (_ & Ht & _). by rewrite Ht.
  - unfold Lexer.push_token. cbn [Lexer.input Lexer.pos].
    rewrite advanceN_input, advanceN_pos; change (Lexer.input l0) with inp; change (Lexer.pos l0) with O; lia.
Qed.

Lemma plain_text_is_one_token_witness :
  Lexer.Tokenize "a < b" =
    Lexer.Ok [Lexer.MkToken Lexer.TOKEN_TEXT "a < b" EmptyString (Lexer.MkPos 1 1 0);
              Lexer.MkToken Lexer.TOKEN_EOF EmptyString EmptyString (Lexer.MkPos 1 6 5)].
Proof.
  exact (plain_text_is_one_token "a < b" eq_refl eq_refl eq_refl
           ltac:(discriminate)).
Defined.

(** ** Termination of the parser *)

Lemma not_at_end p :
  Parser.isAtEnd p = false -> (Parser.pos p < length (Parser.tokens p))%nat.
Proof.
  unfold Parser.isAtEnd. intros H. apply orb_false_iff in H as [H _].
  by apply Nat.leb_gt in H.
Qed.

Section ParserLoops.

Variable rec : Parser.t -> option (option Parser.Node * Parser.t).
Variable bound : nat.
Hypothesis rec_ok : forall q,
  Parser.isAtEnd q = false -> (Parser.unread q <= bound)%nat ->
  Parser.advanced q (rec q).

Lemma rec_step q :
  Parser.isAtEnd q = false -> (Parser.unread q <= bound)%nat ->
  exists r q', rec q = Some (r, q')
               /\ Parser.tokens q' = Parser.tokens q
               /\ (Parser.pos q < Parser.pos q')%nat
               /\ (Parser.unread q' < Parser.unread q)%nat.
Proof.
  intros He Hu. pose proof (rec_ok q He Hu) as H. pose proof (not_at_end q He) as Hlt.
  destruct (rec q) as [[r q']|]; [|done]. destruct H as [Ht Hp].
  exists r, q'. repeat split; try done. unfold Parser.unread. rewrite Ht. lia.
Qed.

Lemma children_until_total stops n : forall p acc,
  (Parser.unread p <= bound)%nat -> (Parser.unread p < n)%nat ->
  exists ch p',
    Parser.children_until rec stops n p acc = Some (ch, p')
    /\ Parser.tokens p' = Parser.tokens p
    /\ (Parser.pos p <= Parser.pos p')%nat
    /\ Parser.isAtEnd p' || existsb (fun d => Parser.isDirective d p') stops = true.
Proof.
  induction n as [|n IH]; intros p acc Hb Hn; [lia|].
  cbn [Parser.children_until].
  destruct (Parser.isAtEnd p || existsb _ stops) eqn:Hstop.
  - exists acc, p. by repeat split.
  - apply orb_false_iff in Hstop as [He _].
    destruct (rec_step p He Hb) as (r & q & -> & Ht & Hp & Hu).
    cbn [mbind option_bind].
    destruct (IH q (Parser.snoc_opt acc r)) as (ch & p' & -> & Ht' & Hp' & Hs); try lia.
    exists ch, p'. repeat split; try done; [congruence|lia].
Qed.


Lemma advance_unread p :
  Parser.isAtEnd p = false ->
  Parser.tokens (Parser.advance p) = Parser.tokens p
  /\ Parser.pos (Parser.advance p) = S (Parser.pos p)
  /\ S (Parser.unread (Parser.advance p)) = Parser.unread p.
Proof.
  intros He. pose proof (not_at_end p He) as Hlt.
  unfold Parser.unread, Parser.advance. cbn [Parser.tokens Parser.pos].
  repeat split; lia.
Qed.

Lemma skip_directive_after name p :
  Parser.tokens (Parser.skip_directive name p) = Parser.tokens p
  /\ (Parser.pos p <= Parser.pos (Parser.skip_directive name p))%nat.
Proof.
  unfold Parser.skip_directive. destruct (Parser.isDirective name p); [|by split].
  unfold Parser.advance. cbn [Parser.tokens Parser.pos]. split; [done|lia].
Qed.

Lemma block_total n terminator p :
  (Parser.unread p <= bound)%nat -> (Parser.unread p < n)%nat ->
  exists ch p',
    Parser.block rec n terminator p = Some (ch, p')
    /\ Parser.tokens p' = Parser.tokens p
    /\ (Parser.pos p <= Parser.pos p')%nat.
Proof.
  intros Hb Hn. unfold Parser.block.
  destruct (children_until_total [terminator] n p [] Hb Hn) as (ch & p' & -> & Ht & Hp & _).
  cbn [mbind option_bind].
  destruct (skip_directive_after terminator p') as [Ht' Hp'].
  eexists _, _. split; [reflexivity|]. split; [congruence|lia].
Qed.

Lemma parseIf_loop_total n : forall p ch eifs els,
  (Parser.unread p <= bound)%nat -> (Parser.unread p < n)%nat ->
  (eifs = [] /\ els = None) \/ Parser.isAtEnd p = true
  \/ Parser.isDirective "elseif" p = true \/ Parser.isDirective "else" p = true
  \/ Parser.isDirective "endif" p = true ->
  exists ch' eifs' els' p',
    Parser.parseIf_loop rec n p ch eifs els = Some (ch', eifs', els', p')
    /\ Parser.tokens p' = Parser.tokens p
    /\ (Parser.pos p <= Parser.pos p')%nat.
Proof.
  induction n as [|n IH]; intros p ch eifs els Hb Hn Hinv; [lia|].
  cbn [Parser.parseIf_loop].
  destruct (Parser.isAtEnd p) eqn:He; [by eexists _, _, _, _|].
  destruct (advance_unread p He) as (Hat & Hap & Hau).
  destruct (Parser.isDirective "elseif" p) eqn:H1.
  { destruct (children_until_total ["elseif"; "else"; "endif"] n (Parser.advance p) [])
      as (c1 & p1 & -> & Ht & Hp & Hs); try lia.
    cbn [mbind option_bind].
    destruct (IH p1 ch (eifs ++ [Parser.MkElseIf (Lexer.Pos (Parser.current p))
                                   (Lexer.Args (Parser.current p)) c1]) els)
      as (ch' & eifs' & els' & p' & -> & Ht' & Hp').
    - unfold Parser.unread in *. rewrite Ht. lia.
    - unfold Parser.unread in *. rewrite Ht. lia.
    - right. cbn [existsb] in Hs. rewrite orb_false_r in Hs.
      destruct (Parser.isAtEnd p1); [by left|]. right.
      destruct (Parser.isDirective "elseif" p1); [by left|]. right.
      destruct (Parser.isDirective "else" p1); [by left|]. right. exact Hs.
    - eexists _, _, _, _. split; [reflexivity|]. split; [congruence|lia]. }
  destruct (Parser.isDirective "else" p) eqn:H2.
  { destruct (children_until_total ["endif"] n (Parser.advance p) [])
      as (c1 & p1 & -> & Ht & Hp & Hs); try lia.
    cbn [mbind option_bind].
    destruct (IH p1 ch eifs (Some (Parser.MkElse (Lexer.Pos (Parser.current p)) c1)))
      as (ch' & eifs' & els' & p' & -> & Ht' & Hp').
    - unfold Parser.unread in *. rewrite Ht. lia.
    - unfold Parser.unread in *. rewrite Ht. lia.
    - right. cbn [existsb] in Hs. rewrite orb_false_r in Hs.
      destruct (Parser.isAtEnd p1); [by left|]. right. right. right. exact Hs.
    - eexists _, _, _, _. split; [reflexivity|]. split; [congruence|lia]. }
  destruct (Parser.isDirective "endif" p) eqn:H3.
  { eexists _, _, _, _. split; [reflexivity|]. split; [done|lia]. }
  destruct Hinv as [[-> ->]|[?|[?|[?|?]]]]; try congruence.
  destruct (rec_step p He Hb) as (r & q & -> & Ht & Hp & Hu).
  cbn [mbind option_bind].
  destruct (IH q (Parser.snoc_opt ch r) [] None) as (ch' & eifs' & els' & p' & -> & Ht' & Hp');
    try lia; [by left|].
  eexists _, _, _, _. split; [reflexivity|]. split; [congruence|lia].
Qed.

Lemma parseSwitch_loop_total n : forall p cases cur default,
  (Parser.unread p <= bound)%nat -> (Parser.unread p < n)%nat ->
  exists cases' cur' default' p',
    Parser.parseSwitch_loop rec n p cases cur default = Some (cases', cur', default', p')
    /\ Parser.tokens p' = Parser.tokens p
    /\ (Parser.pos p <= Parser.pos p')%nat.
Proof.
  induction n as [|n IH]; intros p cases cur default Hb Hn; [lia|].
  cbn [Parser.parseSwitch_loop].
  destruct (Parser.isAtEnd p) eqn:He; [by eexists _, _, _, _|].
  destruct (advance_unread p He) as (Hat & Hap & Hau).
  cbn [orb].
  destruct (Parser.isDirective "endswitch" p); [by eexists _, _, _, _|].
  assert (Hadv : forall cases cur default,
            exists cases' cur' default' p',
              Parser.parseSwitch_loop rec n (Parser.advance p) cases cur default
                = Some (cases', cur', default', p')
              /\ Parser.tokens p' = Parser.tokens p
              /\ (Parser.pos p <= Parser.pos p')%nat).
  { intros cs cu df.
    destruct (IH (Parser.advance p) cs cu df) as (a & b & c & p' & -> & Ht' & Hp'); try lia.
    eexists _, _, _, _. split; [reflexivity|]. split; [congruence|lia]. }
  destruct (Parser.isDirective "case" p); [apply Hadv|].
  destruct (Parser.isDirective "default" p); [apply Hadv|].
  destruct (Parser.isDirective "break" p); [apply Hadv|].
  destruct (rec_step p He Hb) as (r & q & -> & Ht & Hp & Hu).
  cbn [mbind option_bind].
  assert (Hq : forall cases cur default,
            exists cases' cur' default' p',
              Parser.parseSwitch_loop rec n q cases cur default
                = Some (cases', cur', default', p')
              /\ Parser.tokens p' = Parser.tokens p
              /\ (Parser.pos p <= Parser.pos p')%nat).
  { intros cs cu df.
    destruct (IH q cs cu df) as (a & b & c & p' & -> & Ht' & Hp'); try lia.
    eexists _, _, _, _. split; [reflexivity|]. split; [congruence|lia]. }
  destruct r as [c|], default as [[dpos dch]|], cur as [[cpos cval cch]|]; apply Hq.
Qed.

Lemma parseForelse_loop_total n : forall p inEmpty ch empty,
  (Parser.unread p <= bound)%nat -> (Parser.unread p < n)%nat ->
  exists ch' empty' p',
    Parser.parseForelse_loop rec n p inEmpty ch empty = Some (ch', empty', p')
    /\ Parser.tokens p' = Parser.tokens p
    /\ (Parser.pos p <= Parser.pos p')%nat.
Proof.
  induction n as [|n IH]; intros p inEmpty ch empty Hb Hn; [lia|].
  cbn [Parser.parseForelse_loop].
  destruct (Parser.isAtEnd p) eqn:He; [by eexists _, _, _|].
  destruct (advance_unread p He) as (Hat & Hap & Hau).
  cbn [orb].
  destruct (Parser.isDirective "endforelse" p); [by eexists _, _, _|].
  destruct (Parser.isDirective "empty" p).
  { destruct (IH (Parser.advance p) true ch empty) as (a & b & p' & -> & Ht' & Hp'); try lia.
    eexists _, _, _. split; [reflexivity|]. split; [congruence|lia]. }
  destruct (rec_step p He Hb) as (r & q & -> & Ht & Hp & Hu).
  cbn [mbind option_bind].
  destruct inEmpty.
  - destruct (IH q true ch (Parser.snoc_opt empty r)) as (a & b & p' & -> & Ht' & Hp'); try lia.
    eexists _, _, _. split; [reflexivity|]. split; [congruence|lia].
  - destruct (IH q false (Parser.snoc_opt ch r) empty) as (a & b & p' & -> & Ht' & Hp'); try lia.
    eexists _, _, _. split; [reflexivity|]. split; [congruence|lia].
Qed.

Lemma parseComponent_loop_total n : forall p ch slots cur,
  (Parser.unread p <= bound)%nat -> (Parser.unread p < n)%nat ->
  exists ch' slots' cur' p',
    Parser.parseComponent_loop rec n p ch slots cur = Some (ch', slots', cur', p')
    /\ Parser.tokens p' = Parser.tokens p
    /\ (Parser.pos p <= Parser.pos p')%nat.
Proof.
  induction n as [|n IH]; intros p ch slots cur Hb Hn; [lia|].
  cbn [Parser.parseComponent_loop].
  destruct (Parser.isAtEnd p) eqn:He; [by eexists _, _, _, _|].
  destruct (advance_unread p He) as (Hat & Hap & Hau).
  cbn [orb].
  destruct (Parser.isDirective "endcomponent" p); [by eexists _, _, _, _|].
  assert (Hadv : forall ch slots cur,
            exists ch' slots' cur' p',
              Parser.parseComponent_loop rec n (Parser.advance p) ch slots cur
                = Some (ch', slots', cur', p')
              /\ Parser.tokens p' = Parser.tokens p
              /\ (Parser.pos p <= Parser.pos p')%nat).
  { intros a b c.
    destruct (IH (Parser.advance p) a b c) as (a' & b' & c' & p' & -> & Ht' & Hp'); try lia.
    eexists _, _, _, _. split; [reflexivity|]. split; [congruence|lia]. }
  destruct (Parser.isDirective "slot" p); [apply Hadv|].
  destruct (Parser.isDirective "endslot" p); [apply Hadv|].
  destruct (rec_step p He Hb) as (r & q & -> & Ht & Hp & Hu).
  cbn [mbind option_bind].
  assert (Hq : forall ch slots cur,
            exists ch' slots' cur' p',
              Parser.parseComponent_loop rec n q ch slots cur
                = Some (ch', slots', cur', p')
              /\ Parser.tokens p' = Parser.tokens p
              /\ (Parser.pos p <= Parser.pos p')%nat).
  { intros a b c.
    destruct (IH q a b c) as (a' & b' & c' & p' & -> & Ht' & Hp'); try lia.
    eexists _, _, _, _. split; [reflexivity|]. split; [congruence|lia]. }
  destruct r as [c|], cur as [[spos sname sch]|]; apply Hq.
Qed.

End ParserLoops.

Lemma parseVerbatim_loop_total n : forall p content,
  (Parser.unread p < n)%nat ->
  exists content' p',
    Parser.parseVerbatim_loop n p content = Some (content', p')
    /\ Parser.tokens p' = Parser.tokens p
    /\ (Parser.pos p <= Parser.pos p')%nat.
Proof.
  induction n as [|n IH]; intros p content Hn; [lia|].
  cbn [Parser.parseVerbatim_loop].
  destruct (Parser.isAtEnd p) eqn:He; [by eexists _, _|].
  destruct (advance_unread p He) as (Hat & Hap & Hau).
  destruct (Lexer.TokenType_eqb _ Lexer.TOKEN_VERBATIM_END).
  { eexists _, _. split; [reflexivity|]. split; [done|lia]. }
  destruct (IH (Parser.advance p)
              (if Lexer.TokenType_eqb (Lexer.Type_ (Parser.current p)) Lexer.TOKEN_TEXT
               then content +:+ Lexer.Value (Parser.current p) else content))
    as (c' & p' & -> & Ht' & Hp'); try lia.
  eexists _, _. split; [reflexivity|]. split; [congruence|lia].
Qed.

Lemma parsePhp_loop_total n : forall p code,
  (Parser.unread p < n)%nat ->
  exists code' p',
    Parser.parsePhp_loop n p code = Some (code', p')
    /\ Parser.tokens p' = Parser.tokens p
    /\ (Parser.pos p <= Parser.pos p')%nat.
Proof.
  induction n as [|n IH]; intros p code Hn; [lia|].
  cbn [Parser.parsePhp_loop].
  destruct (Parser.isAtEnd p) eqn:He; [by eexists _, _|].
  destruct (advance_unread p He) as (Hat & Hap & Hau).
  cbn [orb].
  destruct (Parser.isDirective "endphp" p); [by eexists _, _|].
  destruct (IH (Parser.advance p)
              (if Lexer.TokenType_eqb (Lexer.Type_ (Parser.current p)) Lexer.TOKEN_TEXT
               then code +:+ Lexer.Value (Parser.current p) else code))
    as (c' & p' & -> & Ht' & Hp'); try lia.
  eexists _, _. split; [reflexivity|]. split; [congruence|lia].
Qed.

(** One call of [parseNode] on a token other than EOF returns and
    consumes at least that token. *)
Lemma parseNode_total fuel : forall p,
  Parser.isAtEnd p = false -> (Parser.unread p <= fuel)%nat ->
  Parser.advanced p (Parser.parseNode (S fuel) p).
Proof.
  induction fuel as [|fuel IH]; intros p He Hu.
  { pose proof (not_at_end p He). unfold Parser.unread in Hu. lia. }
  destruct (advance_unread p He) as (Hat & Hap & Hau).
  remember (S fuel) as f1 eqn:Hf1.
  assert (IH1 : forall q, Parser.isAtEnd q = false -> (Parser.unread q <= fuel)%nat ->
                          Parser.advanced q (Parser.parseNode f1 q))
    by (subst f1; exact IH).
  clear IH.
  pose proof (block_total (Parser.parseNode f1) fuel IH1 f1) as Hblock.
  assert (Himm : forall r : option Parser.Node,
            Parser.advanced p (Some (r, Parser.advance p))).
  { intros r. split; [exact Hat|lia]. }
  assert (Hblk : forall term (f : list Parser.Node -> Parser.Node),
            Parser.advanced p
              ('(ch, p') ← Parser.block (Parser.parseNode f1) f1 term
                             (Parser.advance p);
               Some (Some (f ch), p'))).
  { intros term f. destruct (Hblock term (Parser.advance p)) as (ch & p' & -> & Ht & Hp);
      try lia.
    cbn [mbind option_bind]. split; [congruence|lia]. }
  cbn [Parser.parseNode].
  destruct (Lexer.Type_ (Parser.current p)) eqn:Hty; cbv beta iota.
  1-4: apply Himm.
  1, 2:
    (destruct (String.eqb _ "if");
     [destruct (parseIf_loop_total (Parser.parseNode f1) fuel IH1 f1
                  (Parser.advance p) [] [] None)
        as (a & b & c & p' & -> & Ht & Hp); try lia; [by left|];
      cbn [mbind option_bind]; split; [congruence|lia]|]);
    (destruct (String.eqb _ "unless"); [apply (Hblk _ (fun ch => Parser.UnlessNode _ _ ch))|]);
    (destruct (String.eqb _ "switch");
     [destruct (parseSwitch_loop_total (Parser.parseNode f1) fuel IH1 f1
                  (Parser.advance p) [] None None)
        as (a & b & c & p' & -> & Ht & Hp); try lia;
      cbn [mbind option_bind];
      destruct (skip_directive_after "endswitch" p') as [Ht' Hp'];
      split; [congruence|lia]|]);
    (destruct (String.eqb _ "for");
     [apply (Hblk _ (fun ch => Parser.ForNode _ _ _ _ ch))|]);
    (destruct (String.eqb _ "foreach");
     [destruct (Parser.foreachArgs _) as [[items key] value];
      apply (Hblk _ (fun ch => Parser.ForeachNode _ _ _ _ ch))|]);
    (destruct (String.eqb _ "forelse");
     [destruct (Parser.foreachArgs _) as [[items key] value];
      destruct (parseForelse_loop_total (Parser.parseNode f1) fuel IH1 f1
                  (Parser.advance p) false [] [])
        as (a & b & p' & -> & Ht & Hp); try lia;
      cbn [mbind option_bind];
      destruct (skip_directive_after "endforelse" p') as [Ht' Hp'];
      split; [congruence|lia]|]);
    (destruct (String.eqb _ "while"); [apply (Hblk _ (fun ch => Parser.WhileNode _ _ ch))|]);
    (destruct (String.eqb _ "section");
     [destruct (Parser.part 1 _);
      [apply Himm|];
      destruct (children_until_total (Parser.parseNode f1) fuel IH1
                  ["endsection"; "show"] f1 (Parser.advance p) [])
        as (ch & p' & -> & Ht & Hp & _); try lia;
      cbn [mbind option_bind];
      destruct (Parser.isDirective "show" p');
      [unfold Parser.advance; split; cbn [Parser.tokens Parser.pos]; [congruence|lia]|];
      destruct (skip_directive_after "endsection" p') as [Ht' Hp'];
      split; [congruence|lia]|]);
    (destruct (String.eqb _ "yield"); [apply Himm|]);
    (destruct (String.eqb _ "extends"); [apply Himm|]);
    (destruct (_ || _); [apply Himm|]);
    (destruct (String.eqb _ "each"); [apply Himm|]);
    (destruct (String.eqb _ "push");
     [apply (Hblk _ (fun ch => Parser.PushNode _ _ ch false))|]);
    (destruct (String.eqb _ "pushOnce");
     [apply (Hblk _ (fun ch => Parser.PushNode _ _ ch true))|]);
    (destruct (String.eqb _ "prepend");
     [apply (Hblk _ (fun ch => Parser.PrependNode _ _ ch))|]);
    (destruct (String.eqb _ "stack"); [apply Himm|]);
    (destruct (String.eqb _ "component");
     [destruct (parseComponent_loop_total (Parser.parseNode f1) fuel IH1 f1
                  (Parser.advance p) [] [] None)
        as (a & b & c & p' & -> & Ht & Hp); try lia;
      cbn [mbind option_bind];
      destruct (skip_directive_after "endcomponent" p') as [Ht' Hp'];
      split; [congruence|lia]|]);
    (destruct (String.eqb _ "php");
     [destruct (parsePhp_loop_total f1 (Parser.advance p) EmptyString)
        as (a & p' & -> & Ht & Hp); try lia;
      cbn [mbind option_bind];
      destruct (skip_directive_after "endphp" p') as [Ht' Hp'];
      split; [congruence|lia]|]);
    (destruct (String.eqb _ "isset"); [apply (Hblk _ (fun ch => Parser.IssetNode _ _ ch))|]);
    (destruct (String.eqb _ "empty");
     [apply (Hblk _ (fun ch => Parser.EmptyCheckNode _ _ ch))|]);
    (destruct (String.eqb _ "auth"); [apply (Hblk _ (fun ch => Parser.AuthNode _ _ ch))|]);
    (destruct (String.eqb _ "guest"); [apply (Hblk _ (fun ch => Parser.GuestNode _ _ ch))|]);
    (destruct (String.eqb _ "env"); [apply (Hblk _ (fun ch => Parser.EnvNode _ _ ch))|]);
    (destruct (String.eqb _ "production");
     [apply (Hblk _ (fun ch => Parser.ProductionNode _ ch))|]);
    (destruct (String.eqb _ "error"); [apply (Hblk _ (fun ch => Parser.ErrorNode _ _ ch))|]);
    (destruct (String.eqb _ "once"); [apply (Hblk _ (fun ch => Parser.OnceNode _ ch))|]);
    (destruct (String.eqb _ "break"); [apply Himm|]);
    (destruct (String.eqb _ "continue"); [apply Himm|]);
    (destruct (String.eqb _ "parent"); [apply Himm|]);
    apply Himm.
  - destruct (parseVerbatim_loop_total f1 (Parser.advance p) EmptyString)
      as (c & p' & -> & Ht & Hp); try lia.
    cbn [mbind option_bind]. split; [congruence|lia].
  - apply Himm.
  - unfold Parser.isAtEnd in He. rewrite Hty in He.
    by rewrite orb_true_r in He.
Qed.

Lemma Parse_loop_total fuel : forall p acc,
  (Parser.unread p < fuel)%nat ->
  exists nodes, Parser.Parse_loop fuel p acc = Some nodes.
Proof.
  induction fuel as [|fuel IH]; intros p acc Hu; [lia|].
  cbn [Parser.Parse_loop].
  destruct (Parser.isAtEnd p) eqn:He; [by eexists|].
  pose proof (parseNode_total fuel p He ltac:(lia)) as H.
  destruct (Parser.parseNode (S fuel) p) as [[r q]|]; [|done].
  destruct H as [Ht Hp]. cbn [mbind option_bind].
  apply IH. pose proof (not_at_end p He). unfold Parser.unread in *. rewrite Ht. lia.
Qed.

Lemma Parse_total toks : exists root, Parser.Parse toks = Some root.
Proof.
  unfold Parser.Parse.
  destruct (Parse_loop_total (S (length toks)) (Parser.New toks) []) as [nodes ->].
  - unfold Parser.unread, Parser.New. cbn [Parser.tokens Parser.pos]. lia.
  - by eexists.
Qed.

(** X8. [Parse] returns a syntax tree for every token list: the
    parser has no error path and every loop of it consumes tokens, so
    a block that is never closed simply ends where the tokens end. *)
Theorem Parse_always_returns (toks : list Lexer.Token) :
  exists nodes, Parser.Parse toks = Some (Parser.MkRoot nodes).
Proof.
  unfold Parser.Parse.
  destruct (Parse_loop_total (S (length toks)) (Parser.New toks) []) as [nodes ->].
  - unfold Parser.unread, Parser.New. cbn [Parser.tokens Parser.pos]. lia.
  - by exists nodes.
Qed.

Lemma Tokenize_cases inp :
  (exists e, Lexer.Tokenize inp = Lexer.Fail e
             /\ In (Lexer.Message e) Lexer.error_messages)
  \/ (exists toks, Lexer.Tokenize inp = Lexer.Ok toks).
Proof.
  unfold Lexer.Tokenize, Lexer.Tokenize_from.
  destruct (Tokenize_loop_total (S (Lexer.remaining (Lexer.New inp))) (Lexer.New inp))
    as [(e & He & Hmsg)|(l' & Hl & Htok)].
  - lia.
  - cbn [Lexer.New Lexer.pos]. lia.
  - constructor.
  - left. exists e. by rewrite He.
  - right. rewrite Hl. by eexists.
Qed.

(** X9. [compile] returns for every template text, and the only way
    it fails is a lexer error: the result is the compiled text with
    the parent name and the sections, or the error [lexer error: ]
    followed by the message of the [LexerError] that [Tokenize]
    returned; the parser and the compiler never fail. *)
Theorem compile_fails_only_in_lexer (content : string) :
  (exists compiled extends sections,
     Engine.compile content = Engine.Ok (compiled, extends, sections))
  \/ (exists e,
        Lexer.Tokenize content = Lexer.Fail e
        /\ In (Lexer.Message e) Lexer.error_messages
        /\ Engine.compile content = Engine.Error ("lexer error: " +:+ Lexer.Message e)
        /\ Engine.compileString content
           = Engine.Error ("lexer error: " +:+ Lexer.Message e)).
Proof.
  unfold Engine.compileString, Engine.compile.
  destruct (Tokenize_cases content) as [(e & -> & Hmsg)|(toks & ->)].
  - right. by exists e.
  - left. destruct (Parse_total toks) as [root ->].
    destruct (Compiler.Compile root Compiler.New) as [compiled c].
    by eexists _, _, _.
Qed.

(** ** Facts about inheritance resolution *)

Lemma compile_returns content : Engine.compile content <> Engine.OutOfFuel.
Proof.
  unfold Engine.compile.
  destruct (Tokenize_cases content) as [(e & -> & _)|(toks & ->)]; [done|].
  destruct (Parse_total toks) as [root ->].
  by destruct (Compiler.Compile root Compiler.New).
Qed.

Section Inheritance.

Context (viewsPath extension Separator : string) (Join : string -> string -> string).
Context (ReadFile : string -> string + string) {ModTime Template : Type}.
Context (Stat : string -> ModTime + string).
Context (ParseTemplate : string -> string -> Template + string).
Context (range_order : nat -> gmap string string -> list (string * string)).

Local Abbreviation path := (Engine.resolvePath viewsPath extension Separator Join).
Local Abbreviation resolve :=
  (Engine.compileWithInheritance viewsPath extension Separator Join ReadFile
     ModTime Template Stat ParseTemplate range_order).
Local Abbreviation extends_to :=
  (Engine.extends_to viewsPath extension Separator Join ReadFile ModTime Stat).
Local Abbreviation links :=
  (Engine.links viewsPath extension Separator Join ReadFile ModTime Stat).

(** One link: a call on a parent that extends [q] is a call on [q],
    one level deeper, with some other text and sections. *)
Lemma resolve_link fuel depth name cc p q cs :
  extends_to p q ->
  exists cc' cs', resolve (S fuel) depth name cc p cs = resolve fuel (S depth) name cc' q cs'.
Proof.
  intros (content & info & compiled & secs & Hr & Hs & Hc & Hq).
  cbn [Engine.compileWithInheritance]. cbv zeta.
  rewrite Hr, Hs, Hc.
  destruct (String.eqb_spec q EmptyString) as [->|_]; [done|].
  cbn [negb]. by do 2 eexists.
Qed.

(** Along a chain of templates each of which extends a further one,
    resolution does not return within any number of recursive calls. *)
Lemma extends_chain_diverges (on_chain : string -> Prop) :
  (forall p, on_chain p -> exists q, extends_to p q /\ on_chain q) ->
  forall fuel depth name childCompiled parentName childSections,
    on_chain parentName ->
    resolve fuel depth name childCompiled parentName childSections = Engine.OutOfFuel.
Proof.
  intros Hchain fuel. induction fuel as [|fuel IH];
    intros depth name cc parent cs Hon; [reflexivity|].
  destruct (Hchain parent Hon) as (q & Hext & Hq).
  destruct (resolve_link fuel depth name cc parent q cs Hext) as (cc' & cs' & ->).
  by apply IH.
Qed.

(** After [n] links the call is a call on the template reached. *)
Lemma resolve_links n : forall p q, links n p q ->
  forall fuel depth name cc cs,
    exists cc' cs',
      resolve (n + fuel) depth name cc p cs = resolve fuel (n + depth) name cc' q cs'.
Proof.
  induction n as [|n IH]; intros p q Hl fuel depth name cc cs.
  - inversion Hl; subst. by exists cc, cs.
  - inversion Hl as [|n' p' q' r' Hext Hrest]; subst.
    cbn [Nat.add].
    destruct (resolve_link (n + fuel) depth name cc p q' cs Hext) as (cc1 & cs1 & ->).
    destruct (IH q' q Hrest fuel (S depth) name cc1 cs1) as (cc2 & cs2 & ->).
    exists cc2, cs2. f_equal. lia.
Qed.

Lemma resolve_links_short n : forall p q, links n p q ->
  forall fuel depth name cc cs,
    (fuel <= n)%nat -> resolve fuel depth name cc p cs = Engine.OutOfFuel.
Proof.
  induction n as [|n IH]; intros p q Hl fuel depth name cc cs Hle.
  - by replace fuel with O by lia.
  - destruct fuel as [|fuel]; [done|].
    inversion Hl as [|n' p' q' r' Hext Hrest]; subst.
    destruct (resolve_link fuel depth name cc p q' cs Hext) as (cc1 & cs1 & ->).
    apply (IH q' q Hrest). lia.
Qed.


End Inheritance.

Lemma cyclic_views_chain p :
  p = "a" \/ p = "b" ->
  exists q,
    Engine.extends_to "views" ".legit" "/" Engine.slash_join Engine.cyclic_views
      unit (Engine.stat_views Engine.cyclic_views) p q
    /\ (q = "a" \/ q = "b").
Proof.
  intros [-> | ->].
  - exists "b". split; [|by right].
    exists "@extends('b')", tt, EmptyString, ∅.
    split; [vm_compute; reflexivity|]. split; [vm_compute; reflexivity|].
    split; [vm_compute; reflexivity|discriminate].
  - exists "a". split; [|by left].
    exists "@extends('a')", tt, EmptyString, ∅.
    split; [vm_compute; reflexivity|]. split; [vm_compute; reflexivity|].
    split; [vm_compute; reflexivity|discriminate].
Qed.

Lemma layout_views_link :
  Engine.links "views" ".legit" "/" Engine.slash_join Engine.layout_views
    unit (Engine.stat_views Engine.layout_views) 1 "mid" "base".
Proof.
  apply (Engine.links_step _ _ _ _ _ _ _ O "mid" "base" "base"); [|constructor].
  exists "@extends('base')", tt, EmptyString, ∅.
  split; [vm_compute; reflexivity|]. split; [vm_compute; reflexivity|].
  split; [vm_compute; reflexivity|discriminate].
Qed.



(** ** Facts about the template language *)

Lemma plain_app a b : Template.plain (a +:+ b) = Template.plain a && Template.plain b.
Proof.
  induction a as [|c a IH]; [done|].
  change (Template.plain_char c && Template.plain (a +:+ b) =
          Template.plain_char c && Template.plain a && Template.plain b).
  by rewrite IH, andb_assoc.
Qed.

Lemma plain_uint_empty u : Template.plain (DecimalString.NilEmpty.string_of_uint u) = true.
Proof. induction u; try reflexivity; cbn; assumption. Qed.

Lemma plain_uint u : Template.plain (DecimalString.NilZero.string_of_uint u) = true.
Proof. destruct u; try reflexivity; cbn; apply plain_uint_empty. Qed.

Lemma plain_itoa z : Template.plain (Str.itoa z) = true.
Proof.
  unfold Str.itoa, DecimalString.NilZero.string_of_int.
  destruct (Z.to_int z); [apply plain_uint|]. cbn. apply plain_uint.
Qed.

(** An action whose body is plain ends at the delimiter behind the
    body. *)
Lemma scan_action_plain a rest :
  Template.plain a = true ->
  Template.scan Template.InAction (a +:+ "}}" +:+ rest) =
    '(t, items) ← Template.scan Template.InText rest;
    Some (a, Template.text_item t ++ items).
Proof.
  induction a as [|c a IH]; intros Hp.
  - change (EmptyString +:+ "}}" +:+ rest) with (String "}" (String "}" rest)).
    cbn [Template.scan Ascii.eqb Bool.eqb andb].
    by destruct (Template.scan Template.InText rest) as [[t items]|].
  - cbn [Template.plain] in Hp. apply andb_true_iff in Hp as [Hc Ha].
    specialize (IH Ha).
    change (String c a +:+ "}}" +:+ rest) with (String c (a +:+ "}}" +:+ rest)).
    assert (Hq : Template.quote_mode c = Template.InAction).
    { unfold Template.plain_char in Hc. unfold Template.quote_mode.
      destruct (Ascii.eqb c "}"), (Ascii.eqb c "034"), (Ascii.eqb c "'"),
        (Ascii.eqb c "096"); done. }
    assert (Hb : Ascii.eqb c "}" = false).
    { unfold Template.plain_char in Hc. by destruct (Ascii.eqb c "}"). }
    cbn [Template.scan]. rewrite Hq, Hb. cbn [andb].
    rewrite IH.
    destruct (a +:+ "}}" +:+ rest); [|];
      by destruct (Template.scan Template.InText rest) as [[t items]|].
Qed.

Lemma items_of_action a rest :
  Template.plain a = true ->
  Template.items_of ("{{" +:+ a +:+ "}}" +:+ rest) =
    cons (Template.IAction a) <$> Template.items_of rest.
Proof.
  intros Hp. unfold Template.items_of.
  change ("{{" +:+ a +:+ "}}" +:+ rest) with (String "{" (String "{" (a +:+ "}}" +:+ rest))).
  cbn [Template.scan Ascii.eqb Bool.eqb andb].
  rewrite (scan_action_plain a rest Hp).
  by destruct (Template.scan Template.InText rest) as [[t items]|].
Qed.

Lemma right_trim_space x : Template.right_trim (x +:+ " ") = false.
Proof.
  induction x as [|c x IH]; [reflexivity|].
  change (String c x +:+ " ") with (String c (x +:+ " ")).
  cbn [Template.right_trim].
  destruct x as [|c' x]; [cbn; by destruct (Template.is_space c)|].
  change (String c' x +:+ " ") with (String c' (x +:+ " ")) in *.
  assert (Hne : exists c2 r, x +:+ " " = String c2 r)
    by (destruct x; do 2 eexists; reflexivity).
  destruct Hne as (c2 & r & E). rewrite E in *. exact IH.
Qed.

Lemma blank_app_false a b : Template.blank a = false -> Template.blank (a +:+ b) = false.
Proof.
  induction a as [|c a IH]; [done|]. cbn [Template.blank].
  change (String c a +:+ b) with (String c (a +:+ b)). cbn [Template.blank].
  destruct (Template.is_space c); [exact IH|done].
Qed.

(** The actions of the loop header are read as what they are written
    as. *)
Lemma classify_pipe x :
  Template.classify (" $" +:+ x +:+ " ") = Some (Template.WPipe (" $" +:+ x +:+ " ")).
Proof.
  unfold Template.classify.
  change (" $" +:+ x +:+ " ") with (String " " (String "$" (x +:+ " "))).
  assert (Hr : Template.right_trim (String " " (String "$" (x +:+ " "))) = false).
  { apply (right_trim_space (String " " (String "$" x))). }
  rewrite Hr. reflexivity.
Qed.

Lemma classify_if x :
  Template.classify (" if not " +:+ x +:+ " ") = Some (Template.WIf (" not " +:+ x +:+ " ")).
Proof.
  unfold Template.classify.
  assert (Hr : Template.right_trim (" if not " +:+ x +:+ " ") = false).
  { apply (right_trim_space (" if not " +:+ x)). }
  rewrite Hr. reflexivity.
Qed.

Lemma classify_range x :
  Template.classify (" range $" +:+ x +:+ " ")
    = Some (Template.WRange (" $" +:+ x +:+ " ")).
Proof.
  unfold Template.classify.
  assert (Hr : Template.right_trim (" range $" +:+ x +:+ " ") = false).
  { apply (right_trim_space (" range $" +:+ x)). }
  rewrite Hr. reflexivity.
Qed.

Lemma steps_app a b st :
  Template.steps (a ++ b) st = st' ← Template.steps a st; Template.steps b st'.
Proof.
  revert st. induction a as [|it a IH]; intros st; [done|].
  cbn [app Template.steps]. destruct (Template.step st it) as [st'|]; [|done].
  apply IH.
Qed.

(** *** Moving a block body under another block *)
Section Graft.

Variable pipe : string.
Variable pre top : list Template.node.

Local Abbreviation grafted := (Template.grafted pipe pre top).
Local Abbreviation grafted_open := (Template.grafted_open pipe pre top).
Local Abbreviation grafted_closed := (Template.grafted_closed pipe pre top).

Lemma in_range_grafted up pa ba ea :
  Template.in_range (up ++ [Template.Frame Template.KRange pa ba ea false]) =
  Template.in_range (up ++ [Template.Frame Template.KRange pipe (pre ++ ba) ea false]).
Proof.
  unfold Template.in_range. rewrite !existsb_app. reflexivity.
Qed.

Lemma add_grafted n st st' :
  grafted st st' -> grafted (Template.add n st) (Template.add n st').
Proof.
  intros H. destruct H as [up pa ba ea|fs pa ba ea more].
  - destruct up as [|u up].
    + cbn [app Template.add]. unfold Template.add_to. cbn [Template.f_else
        Template.f_kind Template.f_pipe Template.f_body Template.f_chained].
      destruct ea as [l|].
      * apply (grafted_open [] pa ba (Some (l ++ [n]))).
      * rewrite <- app_assoc. apply (grafted_open [] pa (ba ++ [n]) None).
    + cbn [app Template.add]. apply (grafted_open (Template.add_to u n :: up)).
  - destruct fs as [|f fs]; cbn [Template.add].
    + rewrite <- app_assoc. cbn [app].
      apply (grafted_closed [] pa ba ea (more ++ [n])).
    + apply grafted_closed.
Qed.

Lemma close_chain_open up : forall n ch pa ba ea st2,
  Template.close_chain n ch (up ++ [Template.Frame Template.KRange pa ba ea false]) []
    = Some st2 ->
  exists st2',
    Template.close_chain n ch
      (up ++ [Template.Frame Template.KRange pipe (pre ++ ba) ea false]) top = Some st2'
    /\ grafted st2 st2'.
Proof.
  induction up as [|u up IH]; intros n ch pa ba ea st2 H.
  - cbn [app] in *. destruct ch.
    + cbn [Template.close_chain Template.f_chained] in *.
      unfold Template.add_to in *.
      cbn [Template.f_else Template.f_kind Template.f_pipe Template.f_body
             Template.f_chained] in *.
      destruct ea as [l|];
        cbn [Template.close Template.f_else Template.f_kind Template.f_pipe
               Template.f_body Template.f_chained default Template.add app] in *;
        injection H as <-; eexists; (split; [reflexivity|]).
      * apply (grafted_closed [] pa ba (l ++ [n]) []).
      * rewrite <- app_assoc. apply (grafted_closed [] pa (ba ++ [n]) [] []).
    + cbn [Template.close_chain] in *. injection H as <-.
      eexists; split; [reflexivity|].
      apply (add_grafted n _ _ (grafted_open [] pa ba ea)).
  - cbn [app] in *. destruct ch.
    + cbn [Template.close_chain] in *. exact (IH _ _ pa ba ea st2 H).
    + cbn [Template.close_chain] in *. injection H as <-.
      eexists; split; [reflexivity|].
      apply (add_grafted n _ _ (grafted_open (u :: up) pa ba ea)).
Qed.

Lemma close_chain_closed fs : forall n ch pa ba ea more st2,
  Template.close_chain n ch fs (Template.Range pa ba ea :: more) = Some st2 ->
  exists st2',
    Template.close_chain n ch fs (top ++ Template.Range pipe (pre ++ ba) ea :: more)
      = Some st2'
    /\ grafted st2 st2'.
Proof.
  induction fs as [|g fs IH]; intros n ch pa ba ea more st2 H.
  - destruct ch; [done|]. cbn [Template.close_chain] in *. injection H as <-.
    eexists; split; [reflexivity|].
    apply (add_grafted n _ _ (grafted_closed [] pa ba ea more)).
  - destruct ch.
    + cbn [Template.close_chain] in *. exact (IH _ _ pa ba ea more st2 H).
    + cbn [Template.close_chain] in *. injection H as <-.
      eexists; split; [reflexivity|].
      apply (add_grafted n _ _ (grafted_closed (g :: fs) pa ba ea more)).
Qed.

Lemma step_grafted it st st' st2 :
  grafted st st' ->
  Template.step st it = Some st2 ->
  exists st2', Template.step st' it = Some st2' /\ grafted st2 st2'.
Proof.
  intros Hg Hs. destruct it as [t|body].
  - cbn [Template.step] in *. injection Hs as <-.
    eexists; split; [reflexivity|]. by apply add_grafted.
  - cbn [Template.step] in *.
    destruct (Template.classify body) as [w|]; [|done].
    cbn [mbind option_bind] in *.
    destruct w as [| |p|p|p| | |p].
    + (* end *)
      destruct Hg as [up pa ba ea|fs pa ba ea more].
      * destruct up as [|u up]; cbn [app Template.end_block] in *.
        -- cbn [Template.close_chain Template.f_chained Template.close
                  Template.f_kind Template.f_pipe Template.f_body Template.f_else
                  Template.add app] in *.
           injection Hs as <-. eexists; split; [reflexivity|].
           apply (grafted_closed [] pa ba (default [] ea) []).
        -- exact (close_chain_open up _ _ pa ba ea st2 Hs).
      * destruct fs as [|f fs]; cbn [Template.end_block] in *; [done|].
        exact (close_chain_closed fs _ _ pa ba ea more st2 Hs).
    + (* else *)
      destruct Hg as [up pa ba ea|fs pa ba ea more]; cbn [fst snd] in *.
      * destruct up as [|u up]; cbn [app] in *.
        -- cbn [Template.f_else Template.f_kind Template.f_pipe Template.f_body
                  Template.f_chained] in *.
           destruct ea as [l|]; [done|]. injection Hs as <-.
           eexists; split; [reflexivity|].
           apply (grafted_open [] pa ba (Some [])).
        -- destruct (Template.f_else u); [done|]. injection Hs as <-.
           eexists; split; [reflexivity|].
           apply (grafted_open (_ :: up)).
      * destruct fs as [|f fs]; [done|].
        destruct (Template.f_else f); [done|]. injection Hs as <-.
        eexists; split; [reflexivity|]. apply grafted_closed.
    + (* else if *)
      destruct Hg as [up pa ba ea|fs pa ba ea more]; cbn [fst snd] in *.
      * destruct up as [|u up]; cbn [app] in *.
        -- cbn [Template.f_else Template.f_kind] in *. done.
        -- destruct (Template.f_kind u), (Template.f_else u); try done.
           injection Hs as <-. eexists; split; [reflexivity|].
           apply (grafted_open (_ :: _ :: up)).
      * destruct fs as [|f fs]; [done|].
        destruct (Template.f_kind f), (Template.f_else f); try done.
        injection Hs as <-. eexists; split; [reflexivity|]. apply grafted_closed.
    + (* if *)
      injection Hs as <-. eexists; split; [reflexivity|].
      destruct Hg as [up pa ba ea|fs pa ba ea more]; cbn [fst snd].
      * apply (grafted_open (_ :: up)).
      * apply grafted_closed.
    + (* range *)
      injection Hs as <-. eexists; split; [reflexivity|].
      destruct Hg as [up pa ba ea|fs pa ba ea more]; cbn [fst snd].
      * apply (grafted_open (_ :: up)).
      * apply grafted_closed.
    + (* break *)
      destruct Hg as [up pa ba ea|fs pa ba ea more]; cbn [fst snd] in *.
      * rewrite <- (in_range_grafted up pa ba ea).
        destruct (Template.in_range _); [|done]. injection Hs as <-.
        eexists; split; [reflexivity|].
        exact (add_grafted Template.Break _ _ (grafted_open up pa ba ea)).
      * destruct (Template.in_range fs); [|done]. injection Hs as <-.
        eexists; split; [reflexivity|].
        exact (add_grafted Template.Break _ _ (grafted_closed fs pa ba ea more)).
    + (* continue *)
      destruct Hg as [up pa ba ea|fs pa ba ea more]; cbn [fst snd] in *.
      * rewrite <- (in_range_grafted up pa ba ea).
        destruct (Template.in_range _); [|done]. injection Hs as <-.
        eexists; split; [reflexivity|].
        exact (add_grafted Template.Continue _ _ (grafted_open up pa ba ea)).
      * destruct (Template.in_range fs); [|done]. injection Hs as <-.
        eexists; split; [reflexivity|].
        exact (add_grafted Template.Continue _ _ (grafted_closed fs pa ba ea more)).
    + (* pipeline *)
      injection Hs as <-. eexists; split; [reflexivity|]. by apply add_grafted.
Qed.

Lemma steps_grafted items : forall st st' st2,
  grafted st st' ->
  Template.steps items st = Some st2 ->
  exists st2', Template.steps items st' = Some st2' /\ grafted st2 st2'.
Proof.
  induction items as [|it items IH]; intros st st' st2 Hg Hs.
  - cbn [Template.steps] in *. injection Hs as <-. by exists st'.
  - cbn [Template.steps] in *.
    destruct (Template.step st it) as [st1|] eqn:H1; [|done].
    destruct (step_grafted it st st' st1 Hg H1) as (st1' & -> & Hg1).
    cbn [mbind option_bind] in *. by apply (IH st1).
Qed.

End Graft.

(** The text of a loop header, its guard and a block body behind
    them: the tree is the range over the guard, the update and the
    nodes of the body, given that the body closes the range it is
    wrapped in. *)
Lemma parse_guarded_range x1 x2 cond x3 rest nodes :
  Template.plain x1 = true -> Template.plain x2 = true ->
  Template.plain cond = true -> Template.plain x3 = true ->
  Template.parse ("{{ range . }}" +:+ rest) = Some [Template.Range " . " nodes []] ->
  Template.parse
    ("{{" +:+ (" $" +:+ x1 +:+ " ") +:+ "}}"
     +:+ "{{" +:+ (" range $" +:+ x2 +:+ " ") +:+ "}}"
     +:+ "{{" +:+ (" if not " +:+ cond +:+ " ") +:+ "}}"
     +:+ "{{" +:+ " break " +:+ "}}" +:+ "{{" +:+ " end " +:+ "}}"
     +:+ "{{" +:+ (" $" +:+ x3 +:+ " ") +:+ "}}" +:+ rest)
  = Some [Template.Action (" $" +:+ x1 +:+ " ");
          Template.Range (" $" +:+ x2 +:+ " ")
            (Template.If (" not " +:+ cond +:+ " ") [Template.Break] []
             :: Template.Action (" $" +:+ x3 +:+ " ") :: nodes) []].
Proof.
  intros H1 H2 Hc H3 Hwrap.
  assert (Hsp : forall x, Template.plain x = true -> Template.plain (" $" +:+ x +:+ " ") = true).
  { intros x Hx. change (" $" +:+ x +:+ " ") with (String " " (String "$" (x +:+ " "))).
    cbn [Template.plain]. rewrite plain_app, Hx. reflexivity. }
  (* the items of the body, from the wrapped text *)
  unfold Template.parse in Hwrap.
  change ("{{ range . }}" +:+ rest) with ("{{" +:+ " range . " +:+ "}}" +:+ rest) in Hwrap.
  rewrite items_of_action in Hwrap by reflexivity.
  destruct (Template.items_of rest) as [items|] eqn:Hitems; [|done].
  cbn [fmap option_fmap option_map mbind option_bind] in Hwrap.
  cbn [Template.steps] in Hwrap.
  change (Template.step ([], []) (Template.IAction " range . "))
    with (Some ([Template.Frame Template.KRange " . " [] None false], @nil Template.node))
    in Hwrap.
  cbn [mbind option_bind] in Hwrap.
  destruct (Template.steps items _) as [st2|] eqn:Hsteps; [|done].
  cbn [mbind option_bind] in Hwrap.
  set (pre := [Template.If (" not " +:+ cond +:+ " ") [Template.Break] [];
               Template.Action (" $" +:+ x3 +:+ " ")]).
  set (top := [Template.Action (" $" +:+ x1 +:+ " ")]).
  destruct (steps_grafted (" $" +:+ x2 +:+ " ") pre top items _ _ st2
              (Template.grafted_open _ pre top [] " . " [] None) Hsteps)
    as (st2' & Hsteps' & Hg).
  assert (Hst2 : st2 = ([], [Template.Range " . " nodes []])).
  { destruct st2 as [[|f fs] root]; [|done]. by injection Hwrap as ->. }
  subst st2.
  assert (Hst2' : st2' = ([], top ++ [Template.Range (" $" +:+ x2 +:+ " ") (pre ++ nodes) []])).
  { inversion Hg; subst. reflexivity. }
  subst st2'.
  (* the items of the header *)
  unfold Template.parse.
  rewrite items_of_action by (apply Hsp, H1).
  rewrite items_of_action by
    (change (" range $" +:+ x2 +:+ " ") with (" range" +:+ (" $" +:+ x2 +:+ " "));
     rewrite plain_app, (Hsp x2 H2); reflexivity).
  rewrite items_of_action by
    (change (" if not " +:+ cond +:+ " ") with (" if not " +:+ (cond +:+ " "));
     rewrite !plain_app, Hc; reflexivity).
  rewrite items_of_action by reflexivity.
  rewrite items_of_action by reflexivity.
  rewrite items_of_action by (apply Hsp, H3).
  rewrite Hitems.
  cbn [fmap option_fmap option_map mbind option_bind].
  cbn [Template.steps Template.step].
  rewrite (classify_pipe x1). cbn [mbind option_bind Template.add app].
  rewrite (classify_range x2). cbn [mbind option_bind fst snd].
  rewrite (classify_if cond). cbn [mbind option_bind fst snd].
  change (Template.classify " break ") with (Some Template.WBreak).
  cbn [mbind option_bind fst snd Template.in_range existsb Template.f_kind
         Template.f_else orb Template.add Template.add_to app].
  change (Template.classify " end ") with (Some Template.WEnd).
  cbn [mbind option_bind Template.end_block Template.close_chain Template.f_chained
         Template.close Template.f_kind Template.f_pipe Template.f_body Template.f_else
         default Template.add Template.add_to app].
  rewrite (classify_pipe x3).
  cbn [mbind option_bind Template.add Template.add_to Template.f_kind Template.f_pipe
         Template.f_body Template.f_else Template.f_chained app].
  fold pre. change (pre) with (pre ++ []) at 1.
  unfold top in Hsteps'. cbn [app] in Hsteps'.
  rewrite Hsteps'. reflexivity.
Qed.

(** *** Execution *)

Section ExecFacts.

Context {St V : Type} (m : Template.machine St V).

Lemma exec_If p body els s :
  Template.exec m (Template.If p body els) s =
    match Template.test m p s with
    | Some (b, s1) =>
        let '(s2, f) := Template.exec_list m (if b then body else els) s1 in
        (Template.restore m s s2, f)
    | None => (s, Template.Failing)
    end.
Proof. reflexivity. Qed.

Lemma exec_Range p body els s :
  Template.exec m (Template.Range p body els) s =
    match Template.elements m p s with
    | Some (vs, s1) =>
        let '(s2, f) :=
          match vs with
          | [] => Template.exec_list m els s1
          | _ => Template.passes m (Template.exec_list m body) p s1 O vs s1
          end in
        (Template.restore m s s2, f)
    | None => (s, Template.Failing)
    end.
Proof. reflexivity. Qed.

Lemma exec_list_cons n l s :
  Template.exec_list m (n :: l) s =
    let '(s1, f) := Template.exec m n s in
    match f with
    | Template.Normal => Template.exec_list m l s1
    | _ => (s1, f)
    end.
Proof. reflexivity. Qed.

Lemma passes_guarded pipe guard rest mark vs : forall i s,
  Template.passes m
    (Template.exec_list m (Template.If guard [Template.Break] [] :: rest))
    pipe mark i vs s =
  (Template.checked_loop (Template.guard_check m pipe guard) (Template.exec_list m rest)
     (Template.restore m mark) i vs s).1.
Proof.
  induction vs as [|v vs IH]; intros i s; [reflexivity|].
  cbn [Template.passes Template.checked_loop].
  rewrite exec_list_cons, exec_If. unfold Template.guard_check. cbv zeta.
  destruct (Template.test m guard (Template.pass m pipe i v s)) as [[b s']|];
    [|reflexivity].
  destruct b; cbn [negb]; [reflexivity|].
  cbn [Template.exec_list].
  destruct (Template.exec_list m rest _) as [s2 f].
  destruct f; try reflexivity.
  - rewrite IH. by destruct (Template.checked_loop _ _ _ _ _ _) as [[s3 f'] k].
  - rewrite IH. by destruct (Template.checked_loop _ _ _ _ _ _) as [[s3 f'] k].
Qed.

Lemma checked_loop_bound check body finish vs : forall i s,
  ((Template.checked_loop (St := St) (V := V) check body finish i vs s).2 <= length vs)%nat.
Proof.
  induction vs as [|v vs IH]; intros i s; cbn [Template.checked_loop length]; [done|].
  destruct (check i v s) as [s1 [[|]|]]; cbn [snd]; try lia.
  destruct (body s1) as [s2 f]. destruct f; cbn [snd]; try lia.
  - specialize (IH (S i) (finish s2)).
    destruct (Template.checked_loop _ _ _ _ _ _) as [[s3 f'] k]. cbn [snd] in *. lia.
  - specialize (IH (S i) (finish s2)).
    destruct (Template.checked_loop _ _ _ _ _ _) as [[s3 f'] k]. cbn [snd] in *. lia.
Qed.

End ExecFacts.

(** ** The lowering of [@while] *)

Lemma until_1000 : Engine.until 1000 = Some (seqZ 0 1000).
Proof.
  unfold Engine.until. change (1000 <=? 0) with false. cbv iota.
  rewrite make_ints_some by (unfold Engine.maxAlloc; lia).
  cbn [mbind option_bind]. rewrite fill_id. reflexivity.
Qed.




(** ** Induction on syntax trees *)

(** A property holds of every node when it holds of a node whose
    subnodes have it. *)
Lemma Node_nested_ind (P : Parser.Node -> Prop) :
  (forall n, Forall P (Parser.subnodes n) -> P n) -> forall n, P n.
Proof.
  intros H. fix IH 1. intros n. apply H.
  destruct n; cbn [Parser.subnodes]; try constructor.
  all: repeat apply Forall_app_2.
  all: try (induction Children as [|x l IHl]; constructor; [apply IH|apply IHl]).
  all: try (induction Empty as [|x l IHl]; constructor; [apply IH|apply IHl]).
  - induction ElseIfs as [|[pos' cond ch] l IHl]; [constructor|].
    cbn [map concat]. apply Forall_app_2; [|apply IHl].
    induction ch as [|x l' IHl']; constructor; [apply IH|apply IHl'].
  - destruct Else as [[pos' ch]|]; [|constructor].
    induction ch as [|x l' IHl']; constructor; [apply IH|apply IHl'].
  - induction Cases as [|[pos' v ch] l IHl]; [constructor|].
    cbn [map concat]. apply Forall_app_2; [|apply IHl].
    induction ch as [|x l' IHl']; constructor; [apply IH|apply IHl'].
  - destruct Default as [[pos' ch]|]; [|constructor].
    induction ch as [|x l' IHl']; constructor; [apply IH|apply IHl'].
  - induction Slots as [|[k [pos' nm ch]] l IHl]; [constructor|].
    cbn [map concat]. apply Forall_app_2; [|apply IHl].
    induction ch as [|x l' IHl']; constructor; [apply IH|apply IHl'].
Qed.

(** ** The loop depth of the compiler *)

Lemma leave_enter d :
  GoInt.in_int d -> GoInt.sub (GoInt.add d 1) 1 = d.
Proof.
  unfold GoInt.in_int, GoInt.sub, GoInt.add, GoInt.wrap, GoInt.min_int, GoInt.max_int.
  intros H. destruct (Z.eq_dec d (2 ^ 63 - 1)) as [->|Hne]; [reflexivity|].
  rewrite (Z.mod_small (d + 1 + 2 ^ 63)) by lia.
  rewrite Z.mod_small; lia.
Qed.

Lemma wrap_in_int z : GoInt.in_int (GoInt.wrap z).
Proof.
  unfold GoInt.in_int, GoInt.wrap, GoInt.min_int, GoInt.max_int.
  pose proof (Z.mod_pos_bound (z + 2 ^ 63) (2 ^ 64) ltac:(lia)). lia.
Qed.

(** The property of a node that the loop depth is the same after its
    compilation. *)
Lemma children_keep_depth l :
  Forall (fun n => forall c, GoInt.in_int (Compiler.loopDepth c) ->
            Compiler.loopDepth (Compiler.compileNode n c).2 = Compiler.loopDepth c) l ->
  forall c, GoInt.in_int (Compiler.loopDepth c) ->
    Compiler.loopDepth (Compiler.compileChildren l c).2 = Compiler.loopDepth c.
Proof.
  induction 1 as [|x l Hx _ IH]; intros c Hc; [reflexivity|].
  cbn [Compiler.compileChildren]. specialize (Hx c Hc).
  destruct (Compiler.compileNode x c) as [s1 c1]. cbn [snd] in Hx.
  assert (Hc1 : GoInt.in_int (Compiler.loopDepth c1)) by (by rewrite Hx).
  specialize (IH c1 Hc1). destruct (Compiler.compileChildren l c1) as [s2 c2].
  cbn [snd] in *. congruence.
Qed.

Ltac depth_fields :=
  unfold Compiler.leave_loop, Compiler.enter_loop, Compiler.set_loopDepth,
    Compiler.set_sections, Compiler.set_parentCalls, Compiler.set_pushes,
    Compiler.set_prepends, Compiler.set_onceKeys, Compiler.set_extends in *;
  cbn [Compiler.loopDepth snd fst] in *.

Lemma compileNode_keeps_depth : forall n c,
  GoInt.in_int (Compiler.loopDepth c) ->
  Compiler.loopDepth (Compiler.compileNode n c).2 = Compiler.loopDepth c.
Proof.
  apply (Node_nested_ind (fun n => forall c, GoInt.in_int (Compiler.loopDepth c) ->
           Compiler.loopDepth (Compiler.compileNode n c).2 = Compiler.loopDepth c)).
  intros n Hsub c Hc.
  destruct n; cbn [Parser.subnodes] in Hsub; cbn [Compiler.compileNode];
    fold Compiler.compileChildren; try reflexivity.
  all: try (pose proof (children_keep_depth _ Hsub c Hc) as Hk;
            destruct (Compiler.compileChildren _ c) as [body c1];
            repeat match goal with |- context [if ?b then _ else _] => destruct b end;
            depth_fields; solve [congruence]).
  all: try (pose proof (children_keep_depth _ Hsub (Compiler.enter_loop c)) as Hk;
            destruct (Compiler.compileChildren _ (Compiler.enter_loop c)) as [body c1];
            depth_fields; rewrite Hk by apply wrap_in_int; by apply leave_enter).
  - (* if *)
    apply Forall_app in Hsub as [Hch Hsub]. apply Forall_app in Hsub as [He Hel].
    pose proof (children_keep_depth _ Hch c Hc) as Hk.
    destruct (Compiler.compileChildren Children c) as [body c1]. cbn [snd] in Hk.
    assert (Hc1 : GoInt.in_int (Compiler.loopDepth c1)) by (by rewrite Hk).
    rewrite <- Hk. clear Hk Hch Hc c. revert c1 Hc1.
    induction ElseIfs as [|[p cond ch] l IH]; intros c1 Hc1; cbv beta iota fix.
    + destruct Else as [[p ch]|]; [|reflexivity].
      pose proof (children_keep_depth _ Hel c1 Hc1) as Hk.
      by destruct (Compiler.compileChildren ch c1) as [s c3].
    + cbn [map concat] in He. apply Forall_app in He as [Hh He].
      pose proof (children_keep_depth _ Hh c1 Hc1) as Hk.
      specialize (IH He).
      destruct (Compiler.compileChildren ch c1) as [s1 c2]. cbn [snd] in Hk.
      assert (Hc2 : GoInt.in_int (Compiler.loopDepth c2)) by (by rewrite Hk).
      specialize (IH c2 Hc2). rewrite <- Hk, <- IH.
      destruct ((fix goE (l0 : list Parser.ElseIfNode) (c0 : Compiler.t) {struct l0} := _) l c2)
        as [s2 c3].
      destruct Else as [[p' ch']|]; [|reflexivity].
      by destruct (Compiler.compileChildren ch' c3).
  - (* switch *)
    apply Forall_app in Hsub as [Hcs Hd].
    assert (Hgo : forall first c1, GoInt.in_int (Compiler.loopDepth c1) ->
              Compiler.loopDepth
                ((fix goC (first : bool) (l : list Parser.CaseNode) (c0 : Compiler.t)
                      {struct l} : string * Compiler.t :=
                    match l with
                    | [] => (EmptyString, c0)
                    | Parser.MkCase _ value ch :: l' =>
                        let '(s1, c2) := Compiler.compileChildren ch c0 in
                        let '(s2, c3) := goC false l' c2 in
                        ((if first
                          then Compiler.cat ["{{ if eq "; Compiler.transformExpression Expression;
                                             " "; Compiler.transformExpression value; " }}"]
                          else Compiler.cat ["{{ else if eq ";
                                             Compiler.transformExpression Expression; " ";
                                             Compiler.transformExpression value; " }}"])
                         +:+ s1 +:+ s2, c3)
                    end) first Cases c1).2 = Compiler.loopDepth c1).
    { clear Hd Hc c. induction Cases as [|[p v ch] l IH]; intros first c1 Hc1;
        cbv beta iota fix; [reflexivity|].
      cbn [map concat] in Hcs. apply Forall_app in Hcs as [Hh Hcs].
      pose proof (children_keep_depth _ Hh c1 Hc1) as Hk.
      specialize (IH Hcs false).
      destruct (Compiler.compileChildren ch c1) as [s1 c2]. cbn [snd] in Hk.
      assert (Hc2 : GoInt.in_int (Compiler.loopDepth c2)) by (by rewrite Hk).
      specialize (IH c2 Hc2). rewrite <- Hk, <- IH.
      by destruct ((fix goC (first : bool) (l0 : list Parser.CaseNode) (c0 : Compiler.t)
                       {struct l0} := _) false l c2). }
    specialize (Hgo true c Hc).
    destruct ((fix goC (first : bool) (l0 : list Parser.CaseNode) (c0 : Compiler.t)
                  {struct l0} := _) true Cases c) as [body c1].
    cbn [snd] in Hgo. rewrite <- Hgo.
    destruct Default as [[p ch]|]; [|reflexivity].
    assert (Hc1 : GoInt.in_int (Compiler.loopDepth c1)) by (by rewrite Hgo).
    pose proof (children_keep_depth _ Hd c1 Hc1) as Hk.
    by destruct (Compiler.compileChildren ch c1).
  - (* forelse *)
    apply Forall_app in Hsub as [Hch Hem].
    pose proof (children_keep_depth _ Hch (Compiler.enter_loop c) (wrap_in_int _)) as Hk.
    destruct (Compiler.compileChildren Children (Compiler.enter_loop c)) as [body c1].
    cbn [snd] in Hk.
    assert (Hc1 : GoInt.in_int (Compiler.loopDepth c1)) by (rewrite Hk; apply wrap_in_int).
    pose proof (children_keep_depth _ Hem c1 Hc1) as Hk2.
    destruct (Compiler.compileChildren Empty c1) as [emp c2].
    depth_fields. rewrite Hk2, Hk. by apply leave_enter.
  - (* component *)
    apply Forall_app in Hsub as [Hch Hsl].
    pose proof (children_keep_depth _ Hch c Hc) as Hk.
    destruct (Compiler.compileChildren Children c) as [body c1]. cbn [snd] in Hk.
    assert (Hc1 : GoInt.in_int (Compiler.loopDepth c1)) by (by rewrite Hk).
    rewrite <- Hk. clear Hk Hch Hc c. revert c1 Hc1.
    induction Slots as [|[k [p nm ch]] l IH]; intros c1 Hc1; cbv beta iota fix;
      [reflexivity|].
    cbn [map concat] in Hsl. apply Forall_app in Hsl as [Hh Hsl].
    pose proof (children_keep_depth _ Hh c1 Hc1) as Hk.
    specialize (IH Hsl).
    destruct (Compiler.compileChildren ch c1) as [s1 c2]. cbn [snd] in Hk.
    assert (Hc2 : GoInt.in_int (Compiler.loopDepth c2)) by (by rewrite Hk).
    specialize (IH c2 Hc2). rewrite <- Hk, <- IH.
    by destruct ((fix goS (l0 : list (string * Parser.SlotNode)) (c0 : Compiler.t)
                     {struct l0} := _) l c2).
Qed.

(** X10. Compiling leaves the loop depth of the compiler as it found
    it: every loop raises the depth for its children and lowers it
    again when it is done, so after any node, any list of children and
    any whole template the depth is what it was; two loops that follow
    each other are therefore numbered alike, and after [Compile] on a
    new compiler the depth is 0 again. *)
Theorem compile_restores_loop_depth (c : Compiler.t) :
  GoInt.in_int (Compiler.loopDepth c) ->
  (forall n, Compiler.loopDepth (Compiler.compileNode n c).2 = Compiler.loopDepth c)
  /\ (forall l, Compiler.loopDepth (Compiler.compileChildren l c).2 = Compiler.loopDepth c)
  /\ (forall root, Compiler.loopDepth (Compiler.Compile root c).2 = Compiler.loopDepth c).
Proof.
  intros Hc. split; [|split].
  - intros n. by apply compileNode_keeps_depth.
  - intros l. apply children_keep_depth; [|exact Hc].
    apply Forall_forall. intros n _ c' Hc'. by apply compileNode_keeps_depth.
  - intros root. unfold Compiler.Compile. apply children_keep_depth; [|exact Hc].
    apply Forall_forall. intros n _ c' Hc'. by apply compileNode_keeps_depth.
Qed.

Lemma compile_restores_loop_depth_witness :
  Compiler.loopDepth
    (Compiler.compileNode
       (Parser.WhileNode Lexer.zeroPos "$a"
          [Parser.ForeachNode Lexer.zeroPos "$xs" EmptyString "x"
             [Parser.TextNode Lexer.zeroPos "t"]])
       Compiler.New).2 = 0.
Proof.
  refine (proj1 (compile_restores_loop_depth Compiler.New _) _).
  unfold GoInt.in_int, GoInt.min_int, GoInt.max_int. cbn. lia.
Defined.


(** X11. The text that inheritance resolution hands to the template
    library depends on the order in which the range over the merged
    sections visits them, an order that Go leaves open.  When a
    section of the child holds a yield of its own, the section for
    that yield is placed only if the range reaches it after the
    section that holds it: visited one way the page is complete,
    visited the other way the inner block stays unfilled. *)
Theorem resolved_text_depends_on_range_order :
  exists order1 order2 : nat -> gmap string string -> list (string * string),
    (forall k m, order1 k m ≡ₚ map_to_list m)
    /\ (forall k m, order2 k m ≡ₚ map_to_list m)
    /\ Engine.compileFile "views" ".legit" "/" Engine.slash_join
         Engine.nested_views unit (string * string)
         (Engine.stat_views Engine.nested_views) (fun name text => inl (name, text))
         order1 5 "page"
         (Engine.resolvePath "views" ".legit" "/" Engine.slash_join "page")
       = Engine.Ok (("page", "[[B]]"), tt)
    /\ Engine.compileFile "views" ".legit" "/" Engine.slash_join
         Engine.nested_views unit (string * string)
         (Engine.stat_views Engine.nested_views) (fun name text => inl (name, text))
         order2 5 "page"
         (Engine.resolvePath "views" ".legit" "/" Engine.slash_join "page")
       = Engine.Ok (("page",
                     "[[{{ block " +:+ Str.dq +:+ "b" +:+ Str.dq +:+ " . }}{{ end }}]]"), tt).
Proof.
  exists (fun _ m => map_to_list m), (fun _ m => reverse (map_to_list m)).
  split; [done|]. split; [intros k m; apply reverse_Permutation|].
  split; vm_compute; reflexivity.
Qed.
